(** * HMN Cascade intelligence pipeline: [scripts/langextract]

    A shallow embedding of [schema.py] and [extract.py] and the properties
    of the transcript assembler, the two-path extractor, the graph
    synchronizer and the batch driver.

    Conventions.
    - A Python [str] is a list of Unicode code points ([pystr]); [lit]
      turns an ASCII literal of the source into one.
    - The graph store is a pair of finite maps (nodes and relationships by
      identity); every Cypher text of the source is written out clause by
      clause over it.
    - The services the script talks to (the LLM clients, the source table,
      the reachability of the graph store, its clock) are fields of an
      environment [Env]; code that can raise returns a [res]. *)

From Stdlib Require Import Ascii String QArith.
From stdpp Require Import gmap strings list fin_maps.
Close Scope Q_scope.

(* ================================================================= *)
(** ** Python strings *)

Abbreviation pystr := (list N).

Definition lit (s : string) : pystr :=
  (λ a, N_of_ascii a) <$> list_ascii_of_string s.

Definition NL : N := 10.       (* newline *)
Definition DQUOTE : N := 34.   (* double quote *)
Definition BSLASH : N := 92.   (* backslash *)

(** [s.startswith(p)], [s.endswith(p)]. *)
Definition startswith (s p : pystr) : bool := bool_decide (p `prefix_of` s).
Definition endswith (s p : pystr) : bool := bool_decide (p `suffix_of` s).

(** [str.isspace] on one code point: the whitespace [str.strip()] removes. *)
Definition py_isspace (c : N) : bool :=
  ((9 <=? c) && (c <=? 13) || (28 <=? c) && (c <=? 32)
   || (c =? 133) || (c =? 160) || (c =? 5760)
   || (8192 <=? c) && (c <=? 8202)
   || (c =? 8232) || (c =? 8233) || (c =? 8239) || (c =? 8287)
   || (c =? 12288))%N.

Fixpoint lstrip (s : pystr) : pystr :=
  match s with
  | c :: s' => if py_isspace c then lstrip s' else s
  | [] => []
  end.

Definition rstrip (s : pystr) : pystr := reverse (lstrip (reverse s)).

(** [s.strip()] *)
Definition strip (s : pystr) : pystr := rstrip (lstrip s).

(** [sep.join(parts)] *)
Fixpoint join (sep : pystr) (parts : list pystr) : pystr :=
  match parts with
  | [] => []
  | [p] => p
  | p :: ps => p ++ sep ++ join sep ps
  end.

(** [s.split(NL, 1)[1]] when [NL in s]: what follows the first newline. *)
Fixpoint after_first_newline (s : pystr) : option pystr :=
  match s with
  | [] => None
  | c :: s' => if (c =? NL)%N then Some s' else after_first_newline s'
  end.

(** Truthiness of a [str]. *)
Definition truthy (s : pystr) : bool :=
  match s with [] => false | _ => true end.

(* ================================================================= *)
(** ** [json.loads] on a document that starts with a quote

    The assembler calls [json.loads] only on strings that start with a
    double quote, so the only production of the JSON grammar that can
    succeed is a single string literal followed by JSON whitespace.  The
    scanner below is [json.decoder.scanstring] in strict mode. *)

Definition json_ws (c : N) : bool :=
  ((c =? 32) || (c =? 9) || (c =? 10) || (c =? 13))%N.

Fixpoint skip_json_ws (s : pystr) : pystr :=
  match s with
  | c :: s' => if json_ws c then skip_json_ws s' else s
  | [] => []
  end.

(** The [BACKSLASH] table of the decoder. *)
Definition backslash_escape (c : N) : option N :=
  if (c =? 34)%N then Some 34%N          (* quote *)
  else if (c =? 92)%N then Some 92%N     (* backslash *)
  else if (c =? 47)%N then Some 47%N     (* slash *)
  else if (c =? 98)%N then Some 8%N      (* backspace *)
  else if (c =? 102)%N then Some 12%N    (* form feed *)
  else if (c =? 110)%N then Some 10%N    (* newline *)
  else if (c =? 114)%N then Some 13%N    (* carriage return *)
  else if (c =? 116)%N then Some 9%N     (* tab *)
  else None.

Definition hex_digit (c : N) : option N :=
  if ((48 <=? c) && (c <=? 57))%N then Some (c - 48)%N
  else if ((65 <=? c) && (c <=? 70))%N then Some (c - 55)%N
  else if ((97 <=? c) && (c <=? 102))%N then Some (c - 87)%N
  else None.

(** [_decode_uXXXX]: the four hexadecimal digits after the u of an escape. *)
Definition decode_uXXXX (s : pystr) : option N :=
  match s with
  | a :: b :: c :: d :: _ =>
      match hex_digit a, hex_digit b, hex_digit c, hex_digit d with
      | Some a, Some b, Some c, Some d => Some (((a * 16 + b) * 16 + c) * 16 + d)%N
      | _, _, _, _ => None
      end
  | _ => None
  end.

Definition high_surrogate (u : N) : bool := ((55296 <=? u) && (u <=? 56319))%N.
Definition low_surrogate (u : N) : bool := ((56320 <=? u) && (u <=? 57343))%N.

Inductive scan_result :=
  | ScanOk (content rest : pystr)
  | ScanError            (* JSONDecodeError *)
  | ScanFuel.            (* the loop bound of the model was reached *)

(** [scanstring(s, end)] with [s] already past the opening quote; [chunks]
    is the text decoded so far.  One iteration consumes one plain
    character or one escape. *)
Fixpoint scanstring (fuel : nat) (s : pystr) (chunks : pystr) : scan_result :=
  match fuel with
  | O => ScanFuel
  | S fuel =>
      match s with
      | [] => ScanError                                 (* unterminated *)
      | c :: s1 =>
          if (c =? DQUOTE)%N then ScanOk chunks s1
          else if (c =? BSLASH)%N then
            match s1 with
            | [] => ScanError                           (* unterminated *)
            | esc :: s2 =>
                if (esc =? 117)%N then                  (* a u escape *)
                  match decode_uXXXX s2 with
                  | None => ScanError
                  | Some uni =>
                      let s3 := drop 4 s2 in
                      if high_surrogate uni && bool_decide (take 2 s3 = [BSLASH; 117%N]) then
                        match decode_uXXXX (drop 2 s3) with
                        | None => ScanError
                        | Some uni2 =>
                            if low_surrogate uni2 then
                              scanstring fuel (drop 6 s3)
                                (chunks ++ [65536 + N.lor (N.shiftl (uni - 55296) 10) (uni2 - 56320)])%N
                            else scanstring fuel s3 (chunks ++ [uni])
                        end
                      else scanstring fuel s3 (chunks ++ [uni])
                  end
                else
                  match backslash_escape esc with
                  | None => ScanError                   (* invalid escape *)
                  | Some ch => scanstring fuel s2 (chunks ++ [ch])
                  end
            end
          else if (c <? 32)%N then ScanError            (* control character *)
          else scanstring fuel s1 (chunks ++ [c])
      end
  end.

(** [json.loads(s)] for [s] a [str]; [None] is [JSONDecodeError]. *)
Definition json_loads (s : pystr) : option pystr :=
  match skip_json_ws s with
  | c :: s1 =>
      if (c =? DQUOTE)%N then
        match scanstring (S (length s1)) s1 [] with
        | ScanOk content rest =>
            match skip_json_ws rest with
            | [] => Some content
            | _ => None                                 (* extra data *)
            end
        | _ => None
        end
      else None   (* another JSON value: never reached from the assembler *)
  | [] => None
  end.

(* ================================================================= *)
(** ** Results and errors

    Code that can raise returns a [res]. *)

(** The errors that are an [Exception]. *)
Inductive error :=
  | ServiceUnavailable          (* the graph driver cannot reach the store *)
  | SourceUnavailable           (* the table client cannot reach the source *)
  | LLMError                    (* any error of an LLM client *)
  | DataError                   (* the reply does not parse or does not validate *)
  | AttributeError              (* [None.get]: [None] has no attribute *)
  | TypeError.                  (* [for x in None]: [None] is not iterable *)

Inductive exn :=
  | Exception (e : error)
  | SystemExit (code : nat).    (* sys.exit(code) *)

Inductive res (A : Type) :=
  | Ok (a : A)
  | Raise (e : exn).
Arguments Ok {A} a.
Arguments Raise {A} e.

#[global] Instance res_ret : MRet res := λ A a, Ok a.
#[global] Instance res_bind : MBind res := λ A B f r,
  match r with
  | Ok a => f a
  | Raise e => Raise e
  end.

(* ================================================================= *)
(** ** Session rows of the source table

    A row is the [dict] the table client returns.  A value found under a
    key whose text the code prints is a [str] or something else; of a
    value that is not a [str] the code only ever takes the text an
    f-string gives it, which [POther] carries ([None] for JSON null).
    Such a key can be absent: the field is an [option], [None] meaning
    that the key is not in the [dict].

    Under [participant] the code expects a [dict], under [responses] and
    [aiFollowUps] a list: these keys are a [field], which is absent, JSON
    null, or a value of the expected type.  The entries of the two lists
    are taken to be [dict]s. *)

Inductive field (A : Type) :=
  | Absent                      (* the key is not in the [dict] *)
  | Null                        (* the key holds JSON null *)
  | Present (a : A).
Arguments Absent {A}.
Arguments Null {A}.
Arguments Present {A} a.

(** [d.get(key, default)]; the result [None] is Python's [None]. *)
Definition dict_get {A} (f : field A) (default : A) : option A :=
  match f with
  | Absent => Some default
  | Null => None
  | Present a => Some a
  end.

(** [for x in v]: [None] is not iterable. *)
Definition iterate {A} (v : option (list A)) : res (list A) :=
  match v with
  | Some l => Ok l
  | None => Raise (Exception TypeError)
  end.

(** [v.get]: [None] has no attribute [get]. *)
Definition attribute {A} (v : option A) : res A :=
  match v with
  | Some a => Ok a
  | None => Raise (Exception AttributeError)
  end.

Definition is_absent {A} (f : field A) : bool :=
  match f with Absent => true | _ => false end.

Inductive pyval :=
  | PStr (s : pystr)
  | POther (shown : pystr).

(** The text of [v] inside an f-string. *)
Definition fmt (v : pyval) : pystr :=
  match v with PStr s => s | POther shown => shown end.

Record followup := {
  fu_question : option pyval;     (* followup.get('question', '') *)
  fu_answer : option pyval        (* followup.get('answer', '') *)
}.

Record response := {
  inputType : option pyval;
  questionText : option pyval;
  answer : option pyval;
  aiFollowUps : field (list followup)
}.

Record participant := {
  p_name : option pyval;
  p_company : option pyval;
  p_role : option pyval;
  p_industry : option pyval
}.

(** The keys the pipeline reads, at the top level of a row or under its
    [data] key; [other_keys] tells whether the [dict] holds further keys. *)
Record body := {
  b_participant : field participant;
  b_responses : field (list response);
  other_keys : bool
}.

(** Truthiness of a [dict]: it is not empty. *)
Definition body_truthy (b : body) : bool :=
  negb (is_absent (b_participant b)) || negb (is_absent (b_responses b))
  || other_keys b.

Record session_row := {
  row_id : pystr;                 (* session["id"] *)
  row_status : pystr;             (* the status column *)
  row_data : option body;         (* session.get("data") *)
  row_top : body                  (* the keys of the row itself *)
}.

(** [session.get("data") or session] *)
Definition data_of (session : session_row) : body :=
  match row_data session with
  | Some d => if body_truthy d then d else row_top session
  | None => row_top session
  end.

(** [data.get("participant", {})]; [None] is Python's [None]. *)
Definition participant_of (session : session_row) : option participant :=
  dict_get (b_participant (data_of session))
           {| p_name := None; p_company := None; p_role := None; p_industry := None |}.

(* ================================================================= *)
(** ** Conversation assembler: [get_ai_conversation_text] *)

Definition allowed_input_types : list pystr :=
  [lit "ai_conversation"; lit "open_text"; lit "voice"].

(** [input_type in ("ai_conversation", "open_text", "voice")] for
    [input_type = resp.get("inputType", "")]. *)
Definition eligible (resp : response) : bool :=
  match default (PStr []) (inputType resp) with
  | PStr s => bool_decide (s ∈ allowed_input_types)
  | POther _ => false
  end.

(** Lines 86 to 90: unwrap a double-serialized answer. *)
Definition unwrap_answer (answer : pyval) : pyval :=
  match answer with
  | PStr a =>
      if startswith a [DQUOTE] && endswith a [DQUOTE] then
        match json_loads a with
        | Some decoded => PStr decoded
        | None => answer              (* except: pass *)
        end
      else answer
  | POther _ => answer
  end.

Definition qa_block (q_text answer : pyval) : pystr :=
  lit "Q: " ++ fmt q_text ++ [NL] ++ lit "A: " ++ fmt answer.

(** The two [parts.append] of one follow-up. *)
Definition followup_step (parts : list pystr) (fu : followup) : list pystr :=
  let parts := parts ++ [lit "Follow-up Q: " ++ fmt (default (PStr []) (fu_question fu))] in
  parts ++ [lit "Follow-up A: " ++ fmt (default (PStr []) (fu_answer fu))].

(** One iteration of [for resp in responses], on the list [parts]; the
    inner loop raises when [aiFollowUps] is null. *)
Definition response_step (parts : list pystr) (resp : response) : res (list pystr) :=
  if negb (eligible resp) then Ok parts                   (* continue *)
  else
    let q_text := default (PStr (lit "Unknown question")) (questionText resp) in
    let answer := default (PStr []) (answer resp) in
    let answer := unwrap_answer answer in
    let parts := parts ++ [qa_block q_text answer] in
    followups ← iterate (dict_get (aiFollowUps resp) []);
    Ok (foldl followup_step parts followups).

(** The loop [for resp in responses]. *)
Fixpoint for_responses (responses : list response) (parts : list pystr)
    : res (list pystr) :=
  match responses with
  | [] => Ok parts
  | resp :: responses =>
      parts ← response_step parts resp;
      for_responses responses parts
  end.

(** The list [parts] at the end of the loop; the loop raises when
    [responses] is null. *)
Definition conversation_parts (session : session_row) : res (list pystr) :=
  responses ← iterate (dict_get (b_responses (data_of session)) []);
  for_responses responses [].

Definition get_ai_conversation_text (session : session_row) : res pystr :=
  parts ← conversation_parts session;
  Ok (join [NL; NL] parts).

(* ================================================================= *)
(** ** Extraction schema: [schema.py] *)

Inductive SentimentType := POSITIVE | NEGATIVE | NEUTRAL | MIXED.

Inductive ThemeCategory :=
  | TOOL | PAIN_POINT | GOAL | CAPABILITY | PROCESS | CULTURE | STRATEGY.

(** The [.value] of the two [str] enumerations. *)
Definition sentiment_value (s : SentimentType) : pystr :=
  match s with
  | POSITIVE => lit "positive" | NEGATIVE => lit "negative"
  | NEUTRAL => lit "neutral" | MIXED => lit "mixed"
  end.

Definition category_value (c : ThemeCategory) : pystr :=
  match c with
  | TOOL => lit "tool" | PAIN_POINT => lit "pain_point" | GOAL => lit "goal"
  | CAPABILITY => lit "capability" | PROCESS => lit "process"
  | CULTURE => lit "culture" | STRATEGY => lit "strategy"
  end.

(** A field declared [Optional[str] = Field(default=None)] is an
    [option pystr]; the [float] of [confidence] is carried as a rational. *)
Record ExtractedTheme := {
  theme_name : pystr;
  category : ThemeCategory;
  sentiment : SentimentType;
  related_dimensions : list pystr;
  evidence : pystr;
  confidence : Q
}.

Record ExtractedTool := {
  tool_name : pystr;
  usage_frequency : option pystr;
  sophistication : option pystr;
  use_case : option pystr
}.

Record ExtractedPainPoint := {
  pp_description : pystr;
  severity : pystr;
  area : pystr;
  potential_ai_solution : option pystr
}.

Record ExtractedGoal := {
  goal_description : pystr;
  timeframe : option pystr;
  related_to_ai : bool
}.

Record ExtractedQuote := {
  text : pystr;
  context : pystr;
  quote_sentiment : SentimentType;
  usable_as_testimonial : bool
}.

Record SessionExtraction := {
  session_id : pystr;
  participant_name : pyval;
  company : pyval;
  themes : list ExtractedTheme;
  tools : list ExtractedTool;
  pain_points : list ExtractedPainPoint;
  goals : list ExtractedGoal;
  quotes : list ExtractedQuote
}.

(** [ExtractedTool(name=name)]: the model built from a parsed object that
    gives only the required field; the others take their declared default. *)
Definition ExtractedTool_of_name (name : pystr) : ExtractedTool :=
  {| tool_name := name; usage_frequency := None; sophistication := None;
     use_case := None |}.

(** [field or placeholder] on an [Optional[str]]. *)
Definition or_default (field : option pystr) (placeholder : pystr) : pystr :=
  match field with
  | Some s => if truthy s then s else placeholder
  | None => placeholder
  end.

(* ================================================================= *)
(** ** The graph store

    Nodes and relationships are kept by identity.  A node has a label and
    a property map, a relationship a type, its two end nodes and a
    property map.  Labels and types the pipeline never names are
    [OtherLabel] and [OtherRel]. *)

Inductive Label :=
  | Session | Theme | ScoringDimension | Tool | PainPoint | Goal | Quote
  | OtherLabel (name : string).

Inductive RelType :=
  | SURFACED | RELATES_TO | USES_TOOL | HAS_PAIN_POINT | HAS_GOAL | QUOTED
  | OtherRel (name : string).

Inductive Value :=
  | VStr (s : pystr)
  | VBool (b : bool)
  | VFloat (q : Q)
  | VDateTime (t : N).

#[global] Instance Q_eq_dec : EqDecision Q.
Proof. solve_decision. Defined.
#[global] Instance Label_eq_dec : EqDecision Label.
Proof. solve_decision. Defined.
#[global] Instance RelType_eq_dec : EqDecision RelType.
Proof. solve_decision. Defined.
#[global] Instance Value_eq_dec : EqDecision Value.
Proof. solve_decision. Defined.

Record Node := { nlabel : Label; nprops : gmap string Value }.

Record Rel := {
  rtype : RelType;
  rsrc : nat;
  rdst : nat;
  rprops : gmap string Value
}.

Record Graph := { nodes : gmap nat Node; rels : gmap nat Rel }.

Definition empty_graph : Graph := {| nodes := ∅; rels := ∅ |}.

(** The node pattern [(x:l {k: v})]. *)
Definition node_is (l : Label) (k : string) (v : Value) (n : Node) : Prop :=
  nlabel n = l ∧ nprops n !! k = Some v.

#[global] Instance node_is_dec l k v n : Decision (node_is l k v n).
Proof. unfold node_is. apply _. Defined.

(** The relationship pattern [(s)-[r:ty]->(t)] for bound [s] and [t]. *)
Definition rel_is (ty : RelType) (s t : nat) (r : Rel) : Prop :=
  rtype r = ty ∧ rsrc r = s ∧ rdst r = t.

#[global] Instance rel_is_dec ty s t r : Decision (rel_is ty s t r).
Proof. unfold rel_is. apply _. Defined.

(** [SET x.k = v, ...] on one property map: the new values win. *)
Definition set_node (sets : gmap string Value) (n : Node) : Node :=
  {| nlabel := nlabel n; nprops := sets ∪ nprops n |}.

Definition set_rel (sets : gmap string Value) (r : Rel) : Rel :=
  {| rtype := rtype r; rsrc := rsrc r; rdst := rdst r; rprops := sets ∪ rprops r |}.

(** *** Clauses *)

(** [MATCH (x:l {k: v})]: the identities of the nodes that match. *)
Definition MATCH_node (l : Label) (k : string) (v : Value) (g : Graph) : list nat :=
  (map_to_list (filter (λ kn, node_is l k v kn.2) (nodes g))).*1.

(** [CREATE (x:l props)] *)
Definition CREATE_node (l : Label) (props : gmap string Value) (g : Graph) : Graph * nat :=
  let i := fresh (dom (nodes g)) in
  ({| nodes := <[i := {| nlabel := l; nprops := props |}]> (nodes g); rels := rels g |}, i).

(** [MERGE (x:l {k: v})]: every node that matches, or a new one when none does. *)
Definition MERGE_node (l : Label) (k : string) (v : Value) (g : Graph) : Graph * list nat :=
  match MATCH_node l k v g with
  | [] => let '(g, i) := CREATE_node l {[ k := v ]} g in (g, [i])
  | ids => (g, ids)
  end.

(** [SET x.k = v, ...] for the nodes bound to [x]. *)
Definition SET_nodes (xs : list nat) (sets : gmap string Value) (g : Graph) : Graph :=
  {| nodes := map_imap (λ i n, Some (if bool_decide (i ∈ xs) then set_node sets n else n)) (nodes g);
     rels := rels g |}.

(** [CREATE (s)-[:ty props]->(t)] *)
Definition CREATE_rel (ty : RelType) (s t : nat) (props : gmap string Value) (g : Graph) : Graph :=
  {| nodes := nodes g;
     rels := <[fresh (dom (rels g)) := {| rtype := ty; rsrc := s; rdst := t; rprops := props |}]> (rels g) |}.

(** [MERGE (s)-[r:ty]->(t)] on one row: nothing when a relationship of the
    pattern is there, a new one without properties otherwise. *)
Definition MERGE_rel (ty : RelType) (g : Graph) (row : nat * nat) : Graph :=
  if decide (filter (λ ir, rel_is ty row.1 row.2 ir.2) (rels g) = ∅)
  then CREATE_rel ty row.1 row.2 ∅ g
  else g.

(** The clause over all rows [(s, t)]. *)
Definition MERGE_rels (ty : RelType) (rows : list (nat * nat)) (g : Graph) : Graph :=
  foldl (MERGE_rel ty) g rows.

(** [SET r.k = v, ...] for the relationships bound to [r] by the [MERGE]:
    every relationship of the type along some row. *)
Definition SET_rels (ty : RelType) (rows : list (nat * nat)) (sets : gmap string Value)
    (g : Graph) : Graph :=
  {| nodes := nodes g;
     rels := (λ r, if bool_decide (rtype r = ty ∧ (rsrc r, rdst r) ∈ rows)
                   then set_rel sets r else r) <$> rels g |}.

(** The rows after a second pattern is matched: every pair. *)
Definition rows_of (ss ts : list nat) : list (nat * nat) :=
  s ← ss; t ← ts; [(s, t)].

(** *** The statements of [extract.py]

    Each definition follows its Cypher text clause by clause; [now] is the
    value of [datetime()] while the statement runs. *)

(** Lines 244 to 250. *)
Definition theme_query (now : N) (name category sessionId sentiment : pystr)
    (confidence : Q) (evidence : pystr) (g : Graph) : Graph :=
  (* MERGE (t:Theme {name: $name}) *)
  let '(g, t) := MERGE_node Theme "name" (VStr name) g in
  (* SET t.category = $category, t.updatedAt = datetime() *)
  let g := SET_nodes t (<["category" := VStr category]> {["updatedAt" := VDateTime now]}) g in
  (* WITH t MATCH (s:Session {id: $sessionId}) *)
  let s := MATCH_node Session "id" (VStr sessionId) g in
  let rows := rows_of s t in
  (* MERGE (s)-[r:SURFACED]->(t) *)
  let g := MERGE_rels SURFACED rows g in
  (* SET r.sentiment = $sentiment, r.confidence = $confidence, r.evidence = $evidence *)
  SET_rels SURFACED rows
    (<["sentiment" := VStr sentiment]>
       (<["confidence" := VFloat confidence]> {["evidence" := VStr evidence]})) g.

(** Lines 262 to 266. *)
Definition dimension_query (theme dim : pystr) (g : Graph) : Graph :=
  (* MERGE (t:Theme {name: $theme}) *)
  let '(g, t) := MERGE_node Theme "name" (VStr theme) g in
  (* MERGE (d:ScoringDimension {name: $dim}) *)
  let '(g, d) := MERGE_node ScoringDimension "name" (VStr dim) g in
  (* MERGE (t)-[:RELATES_TO]->(d) *)
  MERGE_rels RELATES_TO (rows_of t d) g.

(** Lines 270 to 276. *)
Definition tool_query (now : N) (name sessionId frequency sophistication useCase : pystr)
    (g : Graph) : Graph :=
  let '(g, t) := MERGE_node Tool "name" (VStr name) g in
  let g := SET_nodes t {["updatedAt" := VDateTime now]} g in
  let s := MATCH_node Session "id" (VStr sessionId) g in
  let rows := rows_of s t in
  let g := MERGE_rels USES_TOOL rows g in
  SET_rels USES_TOOL rows
    (<["frequency" := VStr frequency]>
       (<["sophistication" := VStr sophistication]> {["useCase" := VStr useCase]})) g.

(** Lines 287 to 293. *)
Definition pain_point_query (now : N) (desc severity area sessionId solution : pystr)
    (g : Graph) : Graph :=
  let '(g, p) := MERGE_node PainPoint "description" (VStr desc) g in
  let g := SET_nodes p
    (<["severity" := VStr severity]>
       (<["area" := VStr area]> {["updatedAt" := VDateTime now]})) g in
  let s := MATCH_node Session "id" (VStr sessionId) g in
  let rows := rows_of s p in
  let g := MERGE_rels HAS_PAIN_POINT rows g in
  SET_rels HAS_PAIN_POINT rows {["potentialAiSolution" := VStr solution]} g.

(** Lines 304 to 309. *)
Definition goal_query (now : N) (desc timeframe : pystr) (aiRelated : bool)
    (sessionId : pystr) (g : Graph) : Graph :=
  let '(g, gl) := MERGE_node Goal "description" (VStr desc) g in
  let g := SET_nodes gl
    (<["timeframe" := VStr timeframe]>
       (<["relatedToAi" := VBool aiRelated]> {["updatedAt" := VDateTime now]})) g in
  let s := MATCH_node Session "id" (VStr sessionId) g in
  MERGE_rels HAS_GOAL (rows_of s gl) g.

(** Lines 319 to 322: one new node and one new relationship for each
    Session node the [MATCH] finds. *)
Definition quote_query (now : N) (sessionId text context sentiment : pystr)
    (testimonial : bool) (g : Graph) : Graph :=
  foldl (λ g s,
           let '(g, q) := CREATE_node Quote
             (<["text" := VStr text]>
                (<["context" := VStr context]>
                   (<["sentiment" := VStr sentiment]>
                      (<["testimonial" := VBool testimonial]>
                         {["createdAt" := VDateTime now]})))) g in
           CREATE_rel QUOTED s q ∅ g)
        g (MATCH_node Session "id" (VStr sessionId) g).

(** Lines 340 to 343: [MATCH (s:Session)-[:SURFACED]->(:Theme) RETURN
    DISTINCT s.id]; a Session node without the property gives the null
    [None]. *)
Definition processed_query (g : Graph) : list (option Value) :=
  remove_dups
    (ir ← map_to_list (rels g);
     if decide (rtype ir.2 = SURFACED) then
       match nodes g !! rsrc ir.2, nodes g !! rdst ir.2 with
       | Some s, Some t =>
           if decide (nlabel s = Session ∧ nlabel t = Theme) then [nprops s !! "id"] else []
       | _, _ => []
       end
     else []).

Definition count_label (l : Label) (g : Graph) : nat :=
  size (filter (λ kn, nlabel kn.2 = l) (nodes g)).

(** Lines 406 to 413.  Each [WITH ..., count(x)] after the first groups
    by the counts it carries along, so a label without a node leaves no
    row and [result.single()] is [None]. *)
Definition totals_query (g : Graph) : option (nat * nat * nat * nat * nat) :=
  let tools := count_label Tool g in
  let painPoints := count_label PainPoint g in
  let goals := count_label Goal g in
  let quotes := count_label Quote g in
  if bool_decide (0 < tools ∧ 0 < painPoints ∧ 0 < goals ∧ 0 < quotes)
  then Some (count_label Theme g, tools, painPoints, goals, quotes)
  else None.

(** The statements as data: what [session.run] is given. *)
Inductive Query :=
  | QPing                                            (* RETURN 1 AS n *)
  | QTheme (name category sessionId sentiment : pystr) (confidence : Q) (evidence : pystr)
  | QDimension (theme dim : pystr)
  | QTool (name sessionId frequency sophistication useCase : pystr)
  | QPainPoint (desc severity area sessionId solution : pystr)
  | QGoal (desc timeframe : pystr) (aiRelated : bool) (sessionId : pystr)
  | QQuote (sessionId text context sentiment : pystr) (testimonial : bool)
  | QProcessed
  | QTotals.

(** What a statement does to the graph. *)
Definition exec (now : N) (q : Query) (g : Graph) : Graph :=
  match q with
  | QTheme name category sessionId sentiment confidence evidence =>
      theme_query now name category sessionId sentiment confidence evidence g
  | QDimension theme dim => dimension_query theme dim g
  | QTool name sessionId frequency sophistication useCase =>
      tool_query now name sessionId frequency sophistication useCase g
  | QPainPoint desc severity area sessionId solution =>
      pain_point_query now desc severity area sessionId solution g
  | QGoal desc timeframe aiRelated sessionId =>
      goal_query now desc timeframe aiRelated sessionId g
  | QQuote sessionId text context sentiment testimonial =>
      quote_query now sessionId text context sentiment testimonial g
  | QPing | QProcessed | QTotals => g
  end.

(* ================================================================= *)
(** ** Effects

    What the script does to the outside is recorded in a [World]: the
    graph, the statements sent to the store, the LLM requests made and the
    lines logged.  What the outside answers is an [Env]. *)

(** What a service answers: a value, or an [Exception]. *)
Inductive reply (A : Type) :=
  | Reply (a : A)
  | Failure (e : error).
Arguments Reply {A} a.
Arguments Failure {A} e.

Definition res_of_reply {A} (r : reply A) : res A :=
  match r with
  | Reply a => Ok a
  | Failure e => Raise (Exception e)
  end.

Inductive llm_call :=
  | CallExtractor (p : participant) (conversation_text : pystr)   (* extractor.extract *)
  | CallGenerate (p : participant) (conversation_text : pystr).   (* model.generate_content *)

(** The lines of [log], by their text; the clock prefix is left out. *)
Inductive log_line :=
  | LogFetched (n : nat)
  | LogNoLangextract
  | LogNoText (sid : pystr)
  | LogLangExtractFailed (sid : pystr)
  | LogNoGenai
  | LogNoKey
  | LogGeminiFailed (sid : pystr)
  | LogSynced (themes tools pain_points goals quotes : nat)
  | LogStarting
  | LogVerified
  | LogCannotConnect
  | LogNoSessions
  | LogFiltered (before already to_process : nat)
  | LogAllProcessed
  | LogProcessing (i n : nat) (name company : pyval) (sid : pystr)
  | LogNoExtraction (sid : pystr)
  | LogComplete (success_count n : nat)
  | LogTotals (totals : nat * nat * nat * nat * nat).

Record World := {
  graph : Graph;
  sent : list Query;             (* statements given to session.run, oldest first *)
  llm_calls : list llm_call;     (* LLM requests, oldest first *)
  logs : list log_line           (* oldest first *)
}.

(** The five entity lists the fallback builds from the parsed reply. *)
Record parsed_entities := {
  parsed_themes : list ExtractedTheme;
  parsed_tools : list ExtractedTool;
  parsed_pain_points : list ExtractedPainPoint;
  parsed_goals : list ExtractedGoal;
  parsed_quotes : list ExtractedQuote
}.

Record Env := {
  (** is the store reachable when the [n]-th statement is sent *)
  neo4j_up : nat → bool;
  (** [datetime()] in the [n]-th statement *)
  neo4j_clock : nat → N;
  (** the rows of [cascade_sessions], and whether the source answers *)
  table : list session_row;
  supabase_up : bool;
  (** [from langextract import Extractor] succeeds *)
  langextract_installed : bool;
  (** [import google.generativeai] succeeds *)
  genai_installed : bool;
  GEMINI_API_KEY : pystr;
  (** the [try] body of lines 146 to 155 for the [n]-th LLM request: an
      error, a falsy result, or a [SessionExtraction] *)
  extractor_extract : nat → participant → pystr → reply (option SessionExtraction);
  (** [model.generate_content(prompt).text] for the [n]-th LLM request *)
  generate_content : nat → participant → pystr → reply pystr;
  (** [json.loads] of the cleaned reply and the five list comprehensions
      over the entity models; [None] when any of them raises *)
  parse_entities : pystr → option parsed_entities;
  (** validation of a [str] field by the model class; [None] is a
      [ValidationError] *)
  validate_str : pyval → option pystr
}.

Definition M (A : Type) : Type := World → res A * World.

#[global] Instance M_ret : MRet M := λ A a w, (Ok a, w).
#[global] Instance M_bind : MBind M := λ A B f m w,
  match m w with
  | (Ok a, w') => f a w'
  | (Raise e, w') => (Raise e, w')
  end.

Definition raise {A} (e : exn) : M A := λ w, (Raise e, w).

(** A computation that only returns or raises. *)
Definition of_res {A} (r : res A) : M A := λ w, (r, w).

(** [try: body except Exception: handler]; [SystemExit] is not an
    [Exception] and passes through. *)
Definition try_except {A} (body : M A) (handler : M A) : M A := λ w,
  match body w with
  | (Raise (SystemExit c), w') => (Raise (SystemExit c), w')
  | (Raise _, w') => handler w'
  | (Ok a, w') => (Ok a, w')
  end.

Fixpoint for_each {A} (xs : list A) (body : A → M unit) : M unit :=
  match xs with
  | [] => mret tt
  | x :: xs => body x ;; for_each xs body
  end.

(** The world after one more line is logged, one more LLM request is
    made, one more statement is sent. *)
Definition add_log (line : log_line) (w : World) : World :=
  {| graph := graph w; sent := sent w; llm_calls := llm_calls w;
     logs := logs w ++ [line] |}.

Definition add_call (c : llm_call) (w : World) : World :=
  {| graph := graph w; sent := sent w; llm_calls := llm_calls w ++ [c];
     logs := logs w |}.

Definition add_sent (q : Query) (g : Graph) (w : World) : World :=
  {| graph := g; sent := sent w ++ [q]; llm_calls := llm_calls w; logs := logs w |}.

Definition log (line : log_line) : M unit := λ w, (Ok tt, add_log line w).

Definition get_graph : M Graph := λ w, (Ok (graph w), w).

Section Pipeline.
Context (env : Env).

(** [session.run(q)]: the statement is sent; the store applies it when
    it is reachable, and the driver raises when it is not. *)
Definition session_run (q : Query) : M unit := λ w,
  let n := length (sent w) in
  if neo4j_up env n
  then (Ok tt, add_sent q (exec (neo4j_clock env n) q (graph w)) w)
  else (Raise (Exception ServiceUnavailable), add_sent q (graph w) w).

Definition call_llm {A} (c : llm_call) (answer : nat → reply A) : M A := λ w,
  (res_of_reply (answer (length (llm_calls w))), add_call c w).

(** *** [fetch_analyzed_sessions] *)
Definition fetch_analyzed_sessions (session_id : option pystr) : M (list session_row) :=
  if supabase_up env then
    let sessions :=
      match session_id with
      | Some sid =>
          if truthy sid
          then filter (λ r, row_id r = sid) (table env)                 (* .eq("id", session_id) *)
          else filter (λ r, row_status r = lit "analyzed") (table env)
      | None => filter (λ r, row_status r = lit "analyzed") (table env)  (* .eq("status", "analyzed") *)
      end in
    log (LogFetched (length sessions)) ;;
    mret sessions
  else raise (Exception SourceUnavailable).

(** *** [extract_with_gemini_direct] *)

(** Lines 213 to 218, on the stripped reply. *)
Definition strip_fences (text : pystr) : pystr :=
  let text :=
    if startswith text (lit "```")
    then match after_first_newline text with
         | Some rest => rest
         | None => drop 3 text
         end
    else text in
  let text := if endswith text (lit "```") then take (length text - 3) text else text in
  if startswith text (lit "json") then drop 4 text else text.

Definition extract_with_gemini_direct (session : session_row) : M (option SessionExtraction) :=
  if negb (genai_installed env) then log LogNoGenai ;; mret None
  else if negb (truthy (GEMINI_API_KEY env)) then log LogNoKey ;; mret None
  else
    let participant := participant_of session in
    conversation_text ← of_res (get_ai_conversation_text session);
    if negb (truthy (strip conversation_text)) then mret None
    else
      (* the prompt of lines 192 to 207 takes [participant.get] *)
      participant ← of_res (attribute participant);
      try_except
        (text ← call_llm (CallGenerate participant conversation_text)
                 (λ n, generate_content env n participant conversation_text);
         let text := strip text in
         let text := strip_fences text in
         match parse_entities env (strip text),
               validate_str env (default (PStr (lit "Unknown")) (p_name participant)),
               validate_str env (default (PStr (lit "Unknown")) (p_company participant)) with
         | Some parsed, Some name, Some company =>
             mret (Some {| session_id := row_id session;
                           participant_name := PStr name;
                           company := PStr company;
                           themes := parsed_themes parsed;
                           tools := parsed_tools parsed;
                           pain_points := parsed_pain_points parsed;
                           goals := parsed_goals parsed;
                           quotes := parsed_quotes parsed |})
         | _, _, _ => raise (Exception DataError)
         end)
        (log (LogGeminiFailed (row_id session)) ;; mret None).

(** *** [extract_intelligence] *)
Definition extract_intelligence (session : session_row) : M (option SessionExtraction) :=
  if negb (langextract_installed env) then
    log LogNoLangextract ;; extract_with_gemini_direct session
  else
    let participant := participant_of session in
    conversation_text ← of_res (get_ai_conversation_text session);
    if negb (truthy (strip conversation_text)) then
      log (LogNoText (row_id session)) ;; mret None
    else
      (* the prompt of lines 120 to 143 takes [participant.get] *)
      participant ← of_res (attribute participant);
      try_except
        (result ← call_llm (CallExtractor participant conversation_text)
                   (λ n, extractor_extract env n participant conversation_text);
         match result with
         | Some result =>
             mret (Some {| session_id := row_id session;
                           participant_name := default (PStr (lit "Unknown")) (p_name participant);
                           company := default (PStr (lit "Unknown")) (p_company participant);
                           themes := themes result;
                           tools := tools result;
                           pain_points := pain_points result;
                           goals := goals result;
                           quotes := quotes result |})
         | None => mret None
         end)
        (log (LogLangExtractFailed (row_id session)) ;; extract_with_gemini_direct session).

(** *** [sync_extraction_to_graph] *)
Definition sync_extraction_to_graph (extraction : SessionExtraction) : M unit :=
  for_each (themes extraction) (λ theme,
    session_run (QTheme (theme_name theme) (category_value (category theme))
                   (session_id extraction) (sentiment_value (sentiment theme))
                   (confidence theme) (evidence theme)) ;;
    for_each (related_dimensions theme) (λ dim,
      session_run (QDimension (theme_name theme) dim))) ;;
  for_each (tools extraction) (λ tool,
    session_run (QTool (tool_name tool) (session_id extraction)
                   (or_default (usage_frequency tool) (lit "unknown"))
                   (or_default (sophistication tool) (lit "unknown"))
                   (or_default (use_case tool) []))) ;;
  for_each (pain_points extraction) (λ pp,
    session_run (QPainPoint (pp_description pp) (severity pp) (area pp)
                   (session_id extraction)
                   (or_default (potential_ai_solution pp) []))) ;;
  for_each (goals extraction) (λ goal,
    session_run (QGoal (goal_description goal)
                   (or_default (timeframe goal) (lit "unspecified"))
                   (related_to_ai goal) (session_id extraction))) ;;
  for_each (quotes extraction) (λ quote,
    session_run (QQuote (session_id extraction) (text quote) (context quote)
                   (sentiment_value (quote_sentiment quote))
                   (usable_as_testimonial quote))) ;;
  log (LogSynced (length (themes extraction)) (length (tools extraction))
         (length (pain_points extraction)) (length (goals extraction))
         (length (quotes extraction))).

(** *** [get_processed_session_ids] *)
Definition get_processed_session_ids : M (list (option Value)) :=
  session_run QProcessed ;;
  g ← get_graph;
  mret (processed_query g).

(** *** [main] *)

(** The loop of lines 386 to 400; [i] counts from 1 and [n] is
    [len(sessions)]. *)
Fixpoint process_sessions (i n : nat) (sessions : list session_row)
    (success_count : nat) : M nat :=
  match sessions with
  | [] => mret success_count
  | session_row :: sessions =>
      let sid := row_id session_row in
      (* line 390: [participant.get("name", "Unknown")] *)
      participant ← of_res (attribute (participant_of session_row));
      log (LogProcessing i n (default (PStr (lit "Unknown")) (p_name participant))
             (default (PStr (lit "Unknown")) (p_company participant)) sid) ;;
      extraction ← extract_intelligence session_row;
      success_count ←
        match extraction with
        | Some extraction =>
            sync_extraction_to_graph extraction ;; mret (S success_count)
        | None => log (LogNoExtraction sid) ;; mret success_count
        end;
      process_sessions (S i) n sessions success_count
  end.

Definition main (reprocess : bool) (session : option pystr) : M unit :=
  log LogStarting ;;
  (* Verify Neo4j connection *)
  try_except (session_run QPing ;; log LogVerified)
             (log LogCannotConnect ;; raise (SystemExit 1)) ;;
  (* Fetch sessions *)
  sessions ← fetch_analyzed_sessions session;
  match sessions with
  | [] => log LogNoSessions                                   (* return *)
  | _ =>
      (* Filter already processed (unless --reprocess) *)
      sessions ←
        (if negb reprocess && negb (from_option truthy false session) then
           already_processed ← get_processed_session_ids;
           let before := length sessions in
           let sessions :=
             filter (λ s, Some (VStr (row_id s)) ∉ already_processed) sessions in
           log (LogFiltered before (length already_processed) (length sessions)) ;;
           mret sessions
         else mret sessions);
      match sessions with
      | [] => log LogAllProcessed                             (* return *)
      | _ =>
          success_count ← process_sessions 1 (length sessions) sessions 0;
          log (LogComplete success_count (length sessions)) ;;
          (* Summary stats *)
          session_run QTotals ;;
          g ← get_graph;
          match totals_query g with
          | Some totals => log (LogTotals totals)
          | None => mret tt
          end
      end
  end.

End Pipeline.

(** The status the interpreter exits with: [sys.exit(c)] gives [c], an
    exception nothing catches gives 1, and a [main] that returns gives 0. *)
Definition exit_code (r : res unit) : nat :=
  match r with
  | Ok _ => 0
  | Raise (SystemExit c) => c
  | Raise _ => 1
  end.

Definition start (g : Graph) : World :=
  {| graph := g; sent := []; llm_calls := []; logs := [] |}.

(* ================================================================= *)
(** ** Auxiliary definitions for the statements below *)

(** *** The assembler *)

(** The two blocks of one follow-up. *)
Definition followup_blocks (fu : followup) : list pystr :=
  [lit "Follow-up Q: " ++ fmt (default (PStr []) (fu_question fu));
   lit "Follow-up A: " ++ fmt (default (PStr []) (fu_answer fu))].

(** The value under a key, [d] when the key is absent or null. *)
Definition value_or {A} (d : A) (f : field A) : A :=
  match f with Present a => a | _ => d end.

(** The responses and the follow-ups the loops run over. *)
Definition responses_of (session : session_row) : list response :=
  value_or [] (b_responses (data_of session)).

Definition followups_of (resp : response) : list followup :=
  value_or [] (aiFollowUps resp).

(** The two loops have something to iterate: [responses] is not null,
    and no eligible response has a null [aiFollowUps]. *)
Definition iterable (session : session_row) : bool :=
  bool_decide (is_Some (dict_get (b_responses (data_of session)) []))
  && forallb (λ resp, negb (eligible resp)
                      || bool_decide (is_Some (dict_get (aiFollowUps resp) [])))
             (responses_of session).

(** The blocks of one eligible response, in the order they are appended. *)
Definition response_blocks (resp : response) : list pystr :=
  qa_block (default (PStr (lit "Unknown question")) (questionText resp))
           (unwrap_answer (default (PStr []) (answer resp)))
  :: (followups_of resp ≫= followup_blocks).



(** A code point that [scanstring] copies as it is. *)
Definition plain_char (c : N) : Prop := (32 ≤ c)%N ∧ c ≠ DQUOTE ∧ c ≠ BSLASH.

#[global] Instance plain_char_dec c : Decision (plain_char c).
Proof. unfold plain_char. apply _. Defined.

(** *** Example data *)

Definition no_participant : participant :=
  {| p_name := None; p_company := None; p_role := None; p_industry := None |}.

Definition row_of (sid status : pystr) (responses : list response) : session_row :=
  {| row_id := sid; row_status := status; row_data := None;
     row_top := {| b_participant := Present no_participant;
                   b_responses := Present responses; other_keys := true |} |}.

Definition open_text (q a : pystr) (followups : field (list followup)) : response :=
  {| inputType := Some (PStr (lit "open_text")); questionText := Some (PStr q);
     answer := Some (PStr a); aiFollowUps := followups |}.






(** *** The synchronizer *)

(** The statements of one theme: the theme's own, then one for each of
    its dimensions. *)
Definition theme_queries (sessionId : pystr) (theme : ExtractedTheme) : list Query :=
  QTheme (theme_name theme) (category_value (category theme)) sessionId
         (sentiment_value (sentiment theme)) (confidence theme) (evidence theme)
  :: (QDimension (theme_name theme) <$> related_dimensions theme).

Definition tool_statement (sessionId : pystr) (tool : ExtractedTool) : Query :=
  QTool (tool_name tool) sessionId
        (or_default (usage_frequency tool) (lit "unknown"))
        (or_default (sophistication tool) (lit "unknown"))
        (or_default (use_case tool) []).

Definition pain_point_statement (sessionId : pystr) (pp : ExtractedPainPoint) : Query :=
  QPainPoint (pp_description pp) (severity pp) (area pp) sessionId
             (or_default (potential_ai_solution pp) []).

Definition goal_statement (sessionId : pystr) (goal : ExtractedGoal) : Query :=
  QGoal (goal_description goal) (or_default (timeframe goal) (lit "unspecified"))
        (related_to_ai goal) sessionId.

Definition quote_statement (sessionId : pystr) (quote : ExtractedQuote) : Query :=
  QQuote sessionId (text quote) (context quote)
         (sentiment_value (quote_sentiment quote)) (usable_as_testimonial quote).

(** Every statement one run of the synchronizer sends, in order. *)
Definition sync_queries (e : SessionExtraction) : list Query :=
  (themes e ≫= theme_queries (session_id e))
  ++ (tool_statement (session_id e) <$> tools e)
  ++ (pain_point_statement (session_id e) <$> pain_points e)
  ++ (goal_statement (session_id e) <$> goals e)
  ++ (quote_statement (session_id e) <$> quotes e).

(** The graph after the store has applied [qs], the first of them being
    the [n]-th statement it is sent. *)
Fixpoint run_queries (env : Env) (n : nat) (qs : list Query) (g : Graph) : Graph :=
  match qs with
  | [] => g
  | q :: qs => run_queries env (S n) qs (exec (neo4j_clock env n) q g)
  end.

Definition send_all (env : Env) (qs : list Query) : M unit :=
  for_each qs (session_run env).

Definition synced_line (e : SessionExtraction) : log_line :=
  LogSynced (length (themes e)) (length (tools e)) (length (pain_points e))
            (length (goals e)) (length (quotes e)).

(** The store answers every statement from the [n]-th on. *)
Definition reachable_from (env : Env) (n : nat) : Prop :=
  ∀ k, n ≤ k → neo4j_up env k = true.


(** *** Example environments *)

(** Validation of a [str] field that accepts a [str] only. *)
Definition str_only (v : pyval) : option pystr :=
  match v with PStr s => Some s | POther _ => None end.

(** An environment in which everything is installed and reachable. *)
Definition env_of (rows : list session_row)
    (primary : reply (option SessionExtraction)) (completion : reply pystr)
    (parse : option parsed_entities) : Env :=
  {| neo4j_up := λ _, true;
     neo4j_clock := λ n, N.of_nat n;
     table := rows;
     supabase_up := true;
     langextract_installed := true;
     genai_installed := true;
     GEMINI_API_KEY := lit "key";
     extractor_extract := λ _ _ _, primary;
     generate_content := λ _ _ _, completion;
     parse_entities := λ _, parse;
     validate_str := str_only |}.







Definition extraction_chatgpt_only : SessionExtraction :=
  {| session_id := lit "s1"; participant_name := PStr (lit "Unknown");
     company := PStr (lit "Unknown"); themes := [];
     tools := [ExtractedTool_of_name (lit "ChatGPT")];
     pain_points := []; goals := []; quotes := [] |}.

(** *** Example graphs and runs *)

(** A graph that holds one Session node and nothing else. *)
Definition graph_with_session (sid : pystr) : Graph :=
  (CREATE_node Session {[ "id" := VStr sid ]} empty_graph).1.



(** An environment whose graph store answers the first [n] statements
    only. *)
Definition env_store_up_for (n : nat) (rows : list session_row)
    (primary : reply (option SessionExtraction)) : Env :=
  {| neo4j_up := λ k, bool_decide (k < n);
     neo4j_clock := λ k, N.of_nat k;
     table := rows;
     supabase_up := true;
     langextract_installed := true;
     genai_installed := true;
     GEMINI_API_KEY := lit "key";
     extractor_extract := λ _ _ _, primary;
     generate_content := λ _ _ _, Failure LLMError;
     parse_entities := λ _, None;
     validate_str := str_only |}.


(** The rows [fetch_analyzed_sessions] returns when the source answers. *)
Definition fetched (env : Env) (session : option pystr) : list session_row :=
  match session with
  | Some sid =>
      if truthy sid then filter (λ r, row_id r = sid) (table env)
      else filter (λ r, row_status r = lit "analyzed") (table env)
  | None => filter (λ r, row_status r = lit "analyzed") (table env)
  end.

(** *** Tables of elements with properties

    Nodes and relationships are both kept in a table by identity, and a
    [SET] clause is a conditional assignment on every element of the
    table.  [get] and [put] read and replace the property map of an
    element. *)

Section TableDefs.
Context {A : Type} (get : A → gmap string Value) (put : gmap string Value → A → A).

(** A conditional assignment: the elements it applies to and the
    properties it gives them. *)
Record write := { w_cond : A → bool; w_sets : gmap string Value }.

Definition assign (s : gmap string Value) (a : A) : A := put (s ∪ get a) a.

Definition apply_write (w : write) (a : A) : A :=
  if w_cond w a then assign (w_sets w) a else a.

Definition apply_all (ws : list write) (a : A) : A :=
  foldl (λ a w, apply_write w a) a ws.

(** The properties the writes that apply to [a] leave, the last one
    winning. *)
Definition assigned (ws : list write) (a : A) : gmap string Value :=
  foldl (λ m w, if w_cond w a then w_sets w ∪ m else m) ∅ ws.
End TableDefs.

Arguments write : clear implicits.
Arguments w_cond {A} _ _.
Arguments w_sets {A} _.

Definition put_node (m : gmap string Value) (n : Node) : Node :=
  {| nlabel := nlabel n; nprops := m |}.

Definition put_rel (m : gmap string Value) (r : Rel) : Rel :=
  {| rtype := rtype r; rsrc := rsrc r; rdst := rdst r; rprops := m |}.

(** *** Node patterns *)

Record pattern := { pat_label : Label; pat_key : string; pat_val : Value }.

Definition node_has (p : pattern) (n : Node) : Prop :=
  node_is (pat_label p) (pat_key p) (pat_val p) n.

#[global] Instance node_has_dec p n : Decision (node_has p n).
Proof. unfold node_has. apply _. Defined.

#[global] Instance pattern_eq_dec : EqDecision pattern.
Proof. solve_decision. Defined.

(** The node with identity [i] matches [p]. *)
Definition matches (p : pattern) (ns : gmap nat Node) (i : nat) : Prop :=
  ∃ n, ns !! i = Some n ∧ node_has p n.

Definition present (p : pattern) (ns : gmap nat Node) : Prop := ∃ i, matches p ns i.

Definition match_ids (p : pattern) (ns : gmap nat Node) : list nat :=
  (map_to_list (filter (λ kn, node_has p kn.2) ns)).*1.

Definition new_node (p : pattern) : Node :=
  {| nlabel := pat_label p; nprops := {[ pat_key p := pat_val p ]} |}.

(** [MERGE (x:l {k: v})] on the table of nodes. *)
Definition merge_node (p : pattern) (ns : gmap nat Node) : gmap nat Node :=
  match match_ids p ns with
  | [] => <[fresh (dom ns) := new_node p]> ns
  | _ => ns
  end.

Definition node_write (p : pattern) (sets : gmap string Value) : write Node :=
  {| w_cond := λ n, bool_decide (node_has p n); w_sets := sets |}.

(** [MERGE (x:l {k: v}) SET x.k1 = v1, ...] on the table of nodes. *)
Definition upsert_node (p : pattern) (sets : gmap string Value)
    (ns : gmap nat Node) : gmap nat Node :=
  apply_write nprops put_node (node_write p sets) <$> merge_node p ns.

(** Property names a [SET] of the pipeline never assigns: the keys of
    its patterns. *)
Definition safe_sets (sets : gmap string Value) : Prop :=
  sets !! "name" = None ∧ sets !! "description" = None ∧ sets !! "id" = None.

(** A pattern the pipeline merges on: never a Session, never a Quote. *)
Definition merge_pattern (p : pattern) : Prop :=
  (pat_key p = "name" ∨ pat_key p = "description")
  ∧ pat_label p ≠ Session ∧ pat_label p ≠ Quote.

(** *** Relationship rows *)

Definition new_rel (ty : RelType) (row : nat * nat) : Rel :=
  {| rtype := ty; rsrc := row.1; rdst := row.2; rprops := ∅ |}.

(** A relationship of the type runs along the row. *)
Definition covered (ty : RelType) (rs : gmap nat Rel) (row : nat * nat) : Prop :=
  ∃ j r, rs !! j = Some r ∧ rel_is ty row.1 row.2 r.

Definition merge_row (ty : RelType) (rs : gmap nat Rel) (row : nat * nat) : gmap nat Rel :=
  if decide (filter (λ ir, rel_is ty row.1 row.2 ir.2) rs = ∅)
  then <[fresh (dom rs) := new_rel ty row]> rs
  else rs.

Definition rel_write (ty : RelType) (rows : list (nat * nat))
    (sets : gmap string Value) : write Rel :=
  {| w_cond := λ r, bool_decide (rtype r = ty ∧ (rsrc r, rdst r) ∈ rows);
     w_sets := sets |}.

(** [MERGE (s)-[r:ty]->(t) SET r.k = v, ...] over the rows, on the table
    of relationships. *)
Definition upsert_rels (ty : RelType) (rows : list (nat * nat))
    (sets : gmap string Value) (rs : gmap nat Rel) : gmap nat Rel :=
  apply_write rprops put_rel (rel_write ty rows sets) <$> foldl (merge_row ty) rs rows.

(** A pattern reads a label and one of the three key properties. *)
Definition keyed (q : pattern) : Prop :=
  pat_key q = "name" ∨ pat_key q = "description" ∨ pat_key q = "id".

(** *** The shape of a statement

    The five statements that merge have one shape: nodes are merged on
    patterns and assigned properties, then a relationship of one type is
    merged between every node of one pattern and every node of another,
    and assigned properties. *)

Record upsert := {
  u_merges : list (pattern * gmap string Value);
  u_type : RelType;
  u_src : pattern;
  u_dst : pattern;
  u_rsets : gmap string Value
}.

Definition Pat (l : Label) (k : string) (v : Value) : pattern :=
  {| pat_label := l; pat_key := k; pat_val := v |}.

Definition shape (now : N) (q : Query) : option upsert :=
  match q with
  | QTheme name category sessionId sentiment confidence evidence =>
      Some {| u_merges :=
                [(Pat Theme "name" (VStr name),
                  <["category" := VStr category]> {["updatedAt" := VDateTime now]})];
              u_type := SURFACED;
              u_src := Pat Session "id" (VStr sessionId);
              u_dst := Pat Theme "name" (VStr name);
              u_rsets := <["sentiment" := VStr sentiment]>
                           (<["confidence" := VFloat confidence]>
                              {["evidence" := VStr evidence]}) |}
  | QDimension theme dim =>
      Some {| u_merges := [(Pat Theme "name" (VStr theme), ∅);
                           (Pat ScoringDimension "name" (VStr dim), ∅)];
              u_type := RELATES_TO;
              u_src := Pat Theme "name" (VStr theme);
              u_dst := Pat ScoringDimension "name" (VStr dim);
              u_rsets := ∅ |}
  | QTool name sessionId frequency sophistication useCase =>
      Some {| u_merges := [(Pat Tool "name" (VStr name),
                            {["updatedAt" := VDateTime now]})];
              u_type := USES_TOOL;
              u_src := Pat Session "id" (VStr sessionId);
              u_dst := Pat Tool "name" (VStr name);
              u_rsets := <["frequency" := VStr frequency]>
                           (<["sophistication" := VStr sophistication]>
                              {["useCase" := VStr useCase]}) |}
  | QPainPoint desc severity area sessionId solution =>
      Some {| u_merges :=
                [(Pat PainPoint "description" (VStr desc),
                  <["severity" := VStr severity]>
                    (<["area" := VStr area]> {["updatedAt" := VDateTime now]}))];
              u_type := HAS_PAIN_POINT;
              u_src := Pat Session "id" (VStr sessionId);
              u_dst := Pat PainPoint "description" (VStr desc);
              u_rsets := {["potentialAiSolution" := VStr solution]} |}
  | QGoal desc timeframe aiRelated sessionId =>
      Some {| u_merges :=
                [(Pat Goal "description" (VStr desc),
                  <["timeframe" := VStr timeframe]>
                    (<["relatedToAi" := VBool aiRelated]>
                       {["updatedAt" := VDateTime now]}))];
              u_type := HAS_GOAL;
              u_src := Pat Session "id" (VStr sessionId);
              u_dst := Pat Goal "description" (VStr desc);
              u_rsets := ∅ |}
  | QQuote _ _ _ _ _ | QPing | QProcessed | QTotals => None
  end.

(** The table of nodes after the merges of a statement. *)
Definition nodes_step (u : upsert) (ns : gmap nat Node) : gmap nat Node :=
  foldl (λ ns m, upsert_node m.1 m.2 ns) ns (u_merges u).

(** The rows of a statement: every node of the source pattern with every
    node of the target pattern. *)
Definition rows_ok (u : upsert) (ns : gmap nat Node) (rows : list (nat * nat)) : Prop :=
  ∀ a b, (a, b) ∈ rows ↔ matches (u_src u) ns a ∧ matches (u_dst u) ns b.

Definition wf_upsert (u : upsert) : Prop :=
  Forall (λ m, merge_pattern m.1 ∧ safe_sets m.2) (u_merges u)
  ∧ u_dst u ∈ (u_merges u).*1
  ∧ (u_src u ∈ (u_merges u).*1
     ∨ pat_label (u_src u) = Session ∧ pat_key (u_src u) = "id")
  ∧ u_type u ≠ QUOTED.

(** *** What a run of statements has established *)

Definition merge_write (m : pattern * gmap string Value) : write Node :=
  node_write m.1 m.2.

(** The merges of the statements run so far, in order. *)
Definition merges_of (H : list upsert) : list (pattern * gmap string Value) :=
  H ≫= u_merges.

Definition matchesb (p : pattern) (ns : gmap nat Node) (i : nat) : bool :=
  from_option (λ n, bool_decide (node_has p n)) false (ns !! i).

(** The assignment a statement makes on relationships, read against a
    table of nodes. *)
Definition shape_rel_write (ns : gmap nat Node) (u : upsert) : write Rel :=
  {| w_cond := λ r, bool_decide (rtype r = u_type u)
                    && matchesb (u_src u) ns (rsrc r)
                    && matchesb (u_dst u) ns (rdst r);
     w_sets := u_rsets u |}.

(** A write on nodes that reads a key and assigns none. *)
Definition ok_node (w : write Node) : Prop :=
  ∃ p sets, w = node_write p sets ∧ keyed p ∧ safe_sets sets.

(** A write on relationships that reads no property. *)
Definition ok_rel (w : write Rel) : Prop :=
  ∀ m r, w_cond w (put_rel m r) = w_cond w r.

(** Every pattern merged on so far has a node, and every pair of nodes a
    statement so far relates has its relationship. *)
Definition covers (H : list upsert) (g : Graph) : Prop :=
  (∀ m, m ∈ merges_of H → present m.1 (nodes g))
  ∧ (∀ u a b, u ∈ H →
       matches (u_src u) (nodes g) a → matches (u_dst u) (nodes g) b →
       covered (u_type u) (rels g) (a, b)).

(** Running the assignments made so far once more changes nothing. *)
Definition settled (H : list upsert) (g : Graph) : Prop :=
  (∀ i n, nodes g !! i = Some n →
     apply_all nprops put_node (merge_write <$> merges_of H) n = n)
  ∧ (∀ j r, rels g !! j = Some r →
       apply_all rprops put_rel (shape_rel_write (nodes g) <$> H) r = r).

Definition run_inv (H : list upsert) (g : Graph) : Prop :=
  Forall wf_upsert H ∧ covers H g ∧ settled H g.

(** The shapes of the statements of a run, the first of them being the
    [n]-th statement sent. *)
Fixpoint shapes (env : Env) (n : nat) (qs : list Query) : list upsert :=
  match qs with
  | [] => []
  | q :: qs =>
      from_option (λ u, [u]) [] (shape (neo4j_clock env n) q) ++ shapes env (S n) qs
  end.

(** A statement that merges. *)
Definition merging (q : Query) : Prop := is_Some (shape 0 q).

(** A node without the time of its last update. *)
Definition untimed (n : Node) : Node :=
  put_node (delete "updatedAt" (nprops n)) n.

Definition count_matches (p : pattern) (g : Graph) : nat :=
  length (match_ids p (nodes g)).

Definition count_rels (ty : RelType) (g : Graph) : nat :=
  size (filter (λ jr, rtype jr.2 = ty) (rels g)).

(** The statements of one run that merge, and those that create quotes. *)
Definition merge_queries (e : SessionExtraction) : list Query :=
  (themes e ≫= theme_queries (session_id e))
  ++ (tool_statement (session_id e) <$> tools e)
  ++ (pain_point_statement (session_id e) <$> pain_points e)
  ++ (goal_statement (session_id e) <$> goals e).

Definition quote_queries (e : SessionExtraction) : list Query :=
  quote_statement (session_id e) <$> quotes e.

(** [g'] is [g] with more Quote nodes and QUOTED relationships. *)
Definition quote_ext (g g' : Graph) : Prop :=
  nodes g ⊆ nodes g'
  ∧ rels g ⊆ rels g'
  ∧ (∀ i n, nodes g' !! i = Some n → nodes g !! i = Some n ∨ nlabel n = Quote)
  ∧ (∀ j r, rels g' !! j = Some r → rels g !! j = Some r ∨ rtype r = QUOTED).

(** The properties of a new Quote node. *)
Definition quote_props (now : N) (text context sentiment : pystr) (testimonial : bool)
    : gmap string Value :=
  <["text" := VStr text]>
    (<["context" := VStr context]>
       (<["sentiment" := VStr sentiment]>
          (<["testimonial" := VBool testimonial]> {["createdAt" := VDateTime now]}))).

(** The two [CREATE] clauses for one Session node. *)
Definition create_quote (props : gmap string Value) (g : Graph) (s : nat) : Graph :=
  let '(g, q) := CREATE_node Quote props g in CREATE_rel QUOTED s q ∅ g.

(** A statement that creates a quote for session [sid]. *)
Definition quote_of (sid : pystr) (q : Query) : Prop :=
  match q with QQuote s _ _ _ _ => s = sid | _ => False end.

(** Two merges on the same pattern that assign the same properties, the
    time of the update apart. *)
Definition twin_merge (m m' : pattern * gmap string Value) : Prop :=
  m.1 = m'.1 ∧ delete "updatedAt" m.2 = delete "updatedAt" m'.2.

(** The same statement at two times of the clock. *)
Definition twin (u u' : upsert) : Prop :=
  Forall2 twin_merge (u_merges u) (u_merges u')
  ∧ u_type u = u_type u' ∧ u_src u = u_src u' ∧ u_dst u = u_dst u'
  ∧ u_rsets u = u_rsets u'.

(** *** Vocabulary for the runs of the synchronizer *)

(** The natural keys of an extraction: the patterns its statements merge
    nodes on. *)
Definition natural_keys (e : SessionExtraction) : list pattern :=
  (themes e ≫= λ t,
     Pat Theme "name" (VStr (theme_name t))
     :: ((λ d, Pat ScoringDimension "name" (VStr d)) <$> related_dimensions t))
  ++ ((λ t, Pat Tool "name" (VStr (tool_name t))) <$> tools e)
  ++ ((λ p, Pat PainPoint "description" (VStr (pp_description p))) <$> pain_points e)
  ++ ((λ g, Pat Goal "description" (VStr (goal_description g))) <$> goals e).

(** [g2] is [g1] with the times of update renewed and with more Quote
    nodes and QUOTED relationships: every node of [g1] is there with its
    label and its other properties, every relationship of [g1] is there
    as it was, and whatever else is there is a quote. *)
Definition same_but_quotes (g1 g2 : Graph) : Prop :=
  (∀ i n1, nodes g1 !! i = Some n1 →
     ∃ n2, nodes g2 !! i = Some n2 ∧ untimed n2 = untimed n1)
  ∧ (∀ i n2, nodes g2 !! i = Some n2 → nodes g1 !! i = None → nlabel n2 = Quote)
  ∧ (∀ j r, rels g1 !! j = Some r → rels g2 !! j = Some r)
  ∧ (∀ j r, rels g2 !! j = Some r → rels g1 !! j = None → rtype r = QUOTED).

(** The assignments one run makes on relationships, the first statement
    of the run being the [n]-th sent, read against the nodes of [g]. *)
Definition rel_writes (env : Env) (n : nat) (e : SessionExtraction) (g : Graph)
    : list (write Rel) :=
  shape_rel_write (nodes g) <$> shapes env n (merge_queries e).

(** The number of Session nodes with the identity of the extraction. *)
Definition session_nodes (e : SessionExtraction) (g : Graph) : nat :=
  count_matches (Pat Session "id" (VStr (session_id e))) g.

(** An extraction with one tool and one quote. *)
Definition quote_hours : ExtractedQuote :=
  {| text := lit "AI saves me hours"; context := lit "tools";
     quote_sentiment := POSITIVE; usable_as_testimonial := true |}.

Definition extraction_with_quote : SessionExtraction :=
  {| session_id := lit "s1"; participant_name := PStr (lit "Unknown");
     company := PStr (lit "Unknown"); themes := [];
     tools := [ExtractedTool_of_name (lit "ChatGPT")];
     pain_points := []; goals := []; quotes := [quote_hours] |}.

(** Session s1 with a quote from an earlier extraction. *)
Definition graph_with_quote : Graph :=
  quote_query 0 (lit "s1") (lit "We started last year") (lit "history")
    (lit "neutral") false (graph_with_session (lit "s1")).

(** A statement of a run for session [sid]. *)
Definition for_session (sid : pystr) (q : Query) : Prop :=
  match q with
  | QTheme _ _ s _ _ _ | QTool _ s _ _ _ | QPainPoint _ _ _ s _ | QGoal _ _ _ s
  | QQuote s _ _ _ _ => s = sid
  | QDimension _ _ => True
  | QPing | QProcessed | QTotals => False
  end.

(** A relationship from a Theme node to a ScoringDimension node. *)
Definition theme_to_dimension (g : Graph) (r : Rel) : Prop :=
  rtype r = RELATES_TO
  ∧ ∃ s t, nodes g !! rsrc r = Some s ∧ nlabel s = Theme
           ∧ nodes g !! rdst r = Some t ∧ nlabel t = ScoringDimension.

(** [g'] is [g] with nodes added or assigned properties, and with more
    relationships, each from a Theme node to a ScoringDimension node. *)
Definition orphan_ext (g g' : Graph) : Prop :=
  (∀ i n, nodes g !! i = Some n → ∃ n', nodes g' !! i = Some n' ∧ nlabel n' = nlabel n)
  ∧ rels g ⊆ rels g'
  ∧ (∀ j r, rels g' !! j = Some r → rels g !! j = Some r ∨ theme_to_dimension g' r).

(** *** Vocabulary for the text handed to the parser *)

(** What [extract_with_gemini_direct] gives [json.loads] for a reply:
    lines 215 to 224. *)
Definition cleaned (reply : pystr) : pystr := strip (strip_fences (strip reply)).

(** A reply inside a code fence: the opening fence with a language tag,
    the body on lines of its own, the closing fence. *)
Definition fenced (tag body : pystr) : pystr :=
  lit "```" ++ tag ++ [NL] ++ body ++ [NL] ++ lit "```".

Definition all_space (s : pystr) : Prop := Forall (λ c, py_isspace c = true) s.

(** *** Vocabulary for the traces of the extractor and of the driver *)

(** The two requests the extractor can make for a session, the primary
    one and the fallback one: none when [participant] is null, when the
    transcript cannot be assembled, or when it is blank. *)
Definition requests_of (session : session_row) : option (llm_call * llm_call) :=
  match participant_of session, get_ai_conversation_text session with
  | Some p, Ok text =>
      if truthy (strip text) then Some (CallExtractor p text, CallGenerate p text)
      else None
  | _, _ => None
  end.

(** The requests of the fallback: it asks when it has the package, a key
    and something to ask. *)
Definition fallback_calls (env : Env) (session : session_row) : list llm_call :=
  if genai_installed env && truthy (GEMINI_API_KEY env)
  then from_option (λ rq, [rq.2]) [] (requests_of session)
  else [].


(** The errors a row that is not as expected raises. *)
Definition row_error (session : session_row) (e : exn) : Prop :=
  (e = Exception TypeError ∧ iterable session = false)
  ∨ (e = Exception AttributeError ∧ participant_of session = None).

(** The lines the extractor logs for session [sid]. *)
Definition extraction_line (sid : pystr) (l : log_line) : Prop :=
  l ∈ [LogNoLangextract; LogNoText sid; LogLangExtractFailed sid;
       LogNoGenai; LogNoKey; LogGeminiFailed sid].

(** *** Vocabulary for what a statement keeps and what it creates *)

(** The properties the patterns of the pipeline read. *)
Definition key_properties : list string := ["name"; "description"; "id"].

(** [n'] is [n] after statements of the pipeline: the label and the key
    properties are the same, no property is lost, and a Session or Quote
    node is as it was. *)
Definition node_kept (n n' : Node) : Prop :=
  nlabel n' = nlabel n
  ∧ (∀ k, k ∈ key_properties → nprops n' !! k = nprops n !! k)
  ∧ (∀ k, is_Some (nprops n !! k) → is_Some (nprops n' !! k))
  ∧ (nlabel n = Session ∨ nlabel n = Quote → n' = n).

(** The same for a relationship: type and end nodes are the same, no
    property is lost, and a QUOTED relationship is as it was. *)
Definition rel_kept (r r' : Rel) : Prop :=
  rtype r' = rtype r ∧ rsrc r' = rsrc r ∧ rdst r' = rdst r
  ∧ (∀ k, is_Some (rprops r !! k) → is_Some (rprops r' !! k))
  ∧ (rtype r = QUOTED → r' = r).

(** Every node and relationship of [g] is kept in [g'], under its
    identity. *)
Definition kept (g g' : Graph) : Prop :=
  (∀ i n, nodes g !! i = Some n → ∃ n', nodes g' !! i = Some n' ∧ node_kept n n')
  ∧ (∀ j r, rels g !! j = Some r → ∃ r', rels g' !! j = Some r' ∧ rel_kept r r').

(** The labels of the nodes and the types of the relationships a
    statement can create. *)
Definition creates (q : Query) : list Label * list RelType :=
  match q with
  | QTheme _ _ _ _ _ _ => ([Theme], [SURFACED])
  | QDimension _ _ => ([Theme; ScoringDimension], [RELATES_TO])
  | QTool _ _ _ _ _ => ([Tool], [USES_TOOL])
  | QPainPoint _ _ _ _ _ => ([PainPoint], [HAS_PAIN_POINT])
  | QGoal _ _ _ _ => ([Goal], [HAS_GOAL])
  | QQuote _ _ _ _ _ => ([Quote], [QUOTED])
  | QPing | QProcessed | QTotals => ([], [])
  end.

(** What is in [g'] and not in [g] has a label of [ls] or a type of
    [ts]. *)
Definition only_new (ls : list Label) (ts : list RelType) (g g' : Graph) : Prop :=
  (∀ i n', nodes g' !! i = Some n' → is_Some (nodes g !! i) ∨ nlabel n' ∈ ls)
  ∧ (∀ j r', rels g' !! j = Some r' → is_Some (rels g !! j) ∨ rtype r' ∈ ts).

Definition grows (ls : list Label) (ts : list RelType) (g g' : Graph) : Prop :=
  kept g g' ∧ only_new ls ts g g'.

(** The labels and types the synchronizer creates. *)
Definition sync_labels : list Label :=
  [Theme; ScoringDimension; Tool; PainPoint; Goal; Quote].

Definition sync_types : list RelType :=
  [SURFACED; RELATES_TO; USES_TOOL; HAS_PAIN_POINT; HAS_GOAL; QUOTED].

(** *** Vocabulary for the links of the graph *)

(** [v] is the id of a Session node with a SURFACED relationship to a
    Theme node ([None] when that node has no id). *)
Definition surfaced_id (g : Graph) (v : option Value) : Prop :=
  ∃ j r s t,
    rels g !! j = Some r ∧ rtype r = SURFACED
    ∧ nodes g !! rsrc r = Some s ∧ nlabel s = Session
    ∧ nodes g !! rdst r = Some t ∧ nlabel t = Theme
    ∧ v = nprops s !! "id".

(** Every node of pattern [src] has a relationship of type [ty] to every
    node of pattern [dst]. *)
Definition linked (g : Graph) (l : RelType * pattern * pattern) : Prop :=
  ∀ a b, matches l.1.2 (nodes g) a → matches l.2 (nodes g) b →
         covered l.1.1 (rels g) (a, b).

(** The links an extraction asks for. *)
Definition links (e : SessionExtraction) : list (RelType * pattern * pattern) :=
  let s := Pat Session "id" (VStr (session_id e)) in
  (themes e ≫= λ t,
     (SURFACED, s, Pat Theme "name" (VStr (theme_name t)))
     :: ((λ d, (RELATES_TO, Pat Theme "name" (VStr (theme_name t)),
                Pat ScoringDimension "name" (VStr d))) <$> related_dimensions t))
  ++ ((λ t, (USES_TOOL, s, Pat Tool "name" (VStr (tool_name t)))) <$> tools e)
  ++ ((λ p, (HAS_PAIN_POINT, s, Pat PainPoint "description" (VStr (pp_description p))))
        <$> pain_points e)
  ++ ((λ g, (HAS_GOAL, s, Pat Goal "description" (VStr (goal_description g))))
        <$> goals e).

(** The link of a statement. *)
Definition u_link (u : upsert) : RelType * pattern * pattern :=
  (u_type u, u_src u, u_dst u).

(** An extraction with one theme. *)
Definition theme_adoption : ExtractedTheme :=
  {| theme_name := lit "adoption"; category := TOOL; sentiment := POSITIVE;
     related_dimensions := [lit "ai_action"]; evidence := lit "We use ChatGPT";
     confidence := 4 # 5 |}.

Definition extraction_with_theme : SessionExtraction :=
  {| session_id := lit "s1"; participant_name := PStr (lit "Unknown");
     company := PStr (lit "Unknown"); themes := [theme_adoption];
     tools := [ExtractedTool_of_name (lit "ChatGPT")];
     pain_points := []; goals := []; quotes := [] |}.



(** Every relationship of [g] has its two end nodes in [g]. *)
Definition no_dangling (g : Graph) : Prop :=
  ∀ j r, rels g !! j = Some r →
         is_Some (nodes g !! rsrc r) ∧ is_Some (nodes g !! rdst r).

(** The relationships of [g] that leave a Session node: the id of the
    Session, the type, and the label and name of the node they reach. *)
Definition from_sessions (g : Graph)
    : list (option Value * RelType * Label * option Value) :=
  ir ← map_to_list (rels g);
  match nodes g !! rsrc ir.2, nodes g !! rdst ir.2 with
  | Some s, Some t =>
      if decide (nlabel s = Session)
      then [(nprops s !! "id", rtype ir.2, nlabel t, nprops t !! "name")]
      else []
  | _, _ => []
  end.

(** Session s2 uses the tool ChatGPT; there is no Session s1. *)
Definition graph_s2_uses_chatgpt : Graph :=
  exec 0 (tool_statement (lit "s2") (ExtractedTool_of_name (lit "ChatGPT")))
       (graph_with_session (lit "s2")).

(** *** Vocabulary for the log of a batch *)




(** The sessions the loop of [main] is given: the rows fetched, less
    those already processed when neither flag is set. *)
Definition to_process (env : Env) (reprocess : bool) (session : option pystr)
    (g : Graph) : list session_row :=
  if negb reprocess && negb (from_option truthy false session)
  then filter (λ s, Some (VStr (row_id s)) ∉ processed_query g) (fetched env session)
  else fetched env session.

(** *** Computations that only add to the graph *)

(** Whatever [m] returns or raises, the graph it leaves holds everything
    the graph it found held, and what is new is of the labels and types the
    synchronizer creates. *)
Definition only_adds {A} (m : M A) : Prop :=
  ∀ w, grows sync_labels sync_types (graph w) (graph (m w).2).

(** *** Statements the store refused *)

(** Every statement of [qs] was answered: the store was reachable when
    it was sent. *)
Definition answered (env : Env) (qs : list Query) : Prop :=
  ∀ j, j < length qs → neo4j_up env j = true.

(** Started after statements that were all answered, [m] either returns
    with every statement answered, or raises with every statement but the
    last one answered and an exception that ends the process with
    status 1. *)
Definition fail_fast {A} (env : Env) (m : M A) : Prop :=
  ∀ w, answered env (sent w) →
    match (m w).1 with
    | Ok _ => answered env (sent (m w).2)
    | Raise e =>
        (∀ j, S j < length (sent (m w).2) → neo4j_up env j = true)
        ∧ exit_code (Raise e) = 1
    end.

(** The Session nodes of [g] whose id property is [v]. *)
Definition session_with_id (g : Graph) (v : option Value) : Prop :=
  ∃ i s, nodes g !! i = Some s ∧ nlabel s = Session ∧ nprops s !! "id" = v.

(** *** The batch of [main] *)



(* ================================================================= *)
(** * Properties *)

(** ** Strings and the JSON string scanner *)

Lemma startswith_cons c s : startswith (c :: s) [DQUOTE] = bool_decide (c = DQUOTE).
Proof.
  unfold startswith. apply bool_decide_ext. split.
  - intros [k Hk]. simpl in Hk. congruence.
  - intros ->. by exists s.
Qed.

Lemma startswith_nil p : p ≠ [] → startswith [] p = false.
Proof.
  intros Hp. unfold startswith. apply bool_decide_eq_false.
  intros H. by apply prefix_nil_inv in H.
Qed.

Lemma strip_nil_of_nil : strip [] = [].
Proof. reflexivity. Qed.

Lemma join_nil sep : join sep [] = [].
Proof. reflexivity. Qed.

(** The loop of [scanstring] ends before its bound: every iteration
    consumes at least one code point. *)
Lemma scanstring_fuel fuel s chunks :
  length s < fuel → scanstring fuel s chunks ≠ ScanFuel.
Proof.
  revert s chunks. induction fuel as [|fuel IH]; intros s chunks Hlen; [lia|].
  simpl. destruct s as [|c s1]; [done|]. simpl in Hlen.
  destruct (c =? DQUOTE)%N; [done|].
  destruct (c =? BSLASH)%N.
  - destruct s1 as [|esc s2]; [done|]. simpl in Hlen.
    destruct (esc =? 117)%N.
    + destruct (decode_uXXXX s2) as [uni|]; [|done].
      assert (length (drop 4 s2) ≤ length s2) by (rewrite length_drop; lia).
      destruct (high_surrogate uni && _).
      * destruct (decode_uXXXX _) as [uni2|]; [|done].
        destruct (low_surrogate uni2).
        -- apply IH. rewrite length_drop. lia.
        -- apply IH. lia.
      * apply IH. lia.
    + destruct (backslash_escape esc); [|done]. apply IH. lia.
  - destruct (c <? 32)%N; [done|]. apply IH. lia.
Qed.

(** Plain text up to a quote is copied. *)
Lemma scanstring_plain fuel s rest chunks :
  Forall plain_char s → length s < fuel →
  scanstring fuel (s ++ DQUOTE :: rest) chunks = ScanOk (chunks ++ s) rest.
Proof.
  revert s chunks. induction fuel as [|fuel IH]; intros s chunks Hs Hlen; [lia|].
  destruct s as [|c s]; simpl.
  - by rewrite app_nil_r.
  - apply Forall_cons in Hs as [(Hc & Hq & Hb) Hs]. simpl in Hlen.
    destruct (N.eqb_spec c DQUOTE); [done|].
    destruct (N.eqb_spec c BSLASH); [done|].
    destruct (N.ltb_spec c 32); [lia|].
    rewrite IH; [|done|lia]. by rewrite <- app_assoc.
Qed.

Lemma json_loads_plain s :
  Forall plain_char s → json_loads (DQUOTE :: s ++ [DQUOTE]) = Some s.
Proof.
  intros Hs. unfold json_loads.
  change (skip_json_ws (DQUOTE :: s ++ [DQUOTE])) with (DQUOTE :: s ++ [DQUOTE]).
  cbv beta iota. rewrite N.eqb_refl, (scanstring_plain _ s [] []); [done|done|].
  rewrite length_app. simpl. lia.
Qed.

(** ** The conversation assembler *)

Lemma foldl_followup_step fus parts :
  foldl followup_step parts fus = parts ++ (fus ≫= followup_blocks).
Proof.
  revert parts. induction fus as [|fu fus IH]; intros parts; simpl.
  - by rewrite app_nil_r.
  - rewrite IH. unfold followup_step. by rewrite <- !app_assoc.
Qed.

Lemma response_step_eligible parts resp :
  eligible resp = true →
  response_step parts resp =
  if bool_decide (is_Some (dict_get (aiFollowUps resp) []))
  then Ok (parts ++ response_blocks resp)
  else Raise (Exception TypeError).
Proof.
  intros He. unfold response_step, response_blocks, followups_of. rewrite He.
  cbn [negb]. cbv zeta.
  destruct (aiFollowUps resp) as [| |fus]; cbn [dict_get iterate value_or].
  - rewrite bool_decide_eq_true_2 by by eexists. done.
  - rewrite bool_decide_eq_false_2 by (by intros [? ?]). done.
  - rewrite bool_decide_eq_true_2 by by eexists. cbn.
    rewrite foldl_followup_step. by rewrite <- app_assoc.
Qed.

Lemma response_step_skip parts resp :
  eligible resp = false → response_step parts resp = Ok parts.
Proof. intros He. unfold response_step. by rewrite He. Qed.

Lemma for_responses_blocks resps parts :
  for_responses resps parts =
  if forallb (λ resp, negb (eligible resp)
                      || bool_decide (is_Some (dict_get (aiFollowUps resp) []))) resps
  then Ok (parts ++ (filter (λ r, eligible r = true) resps ≫= response_blocks))
  else Raise (Exception TypeError).
Proof.
  revert parts. induction resps as [|resp resps IH]; intros parts.
  - simpl. by rewrite app_nil_r.
  - cbn [for_responses forallb]. destruct (eligible resp) eqn:He.
    + rewrite response_step_eligible by done. cbn [negb orb].
      destruct (bool_decide (is_Some (dict_get (aiFollowUps resp) []))); [|done].
      cbn [andb]. change (for_responses resps (parts ++ response_blocks resp)
                          = if forallb (λ resp, negb (eligible resp)
                                           || bool_decide (is_Some (dict_get (aiFollowUps resp) [])))
                                 resps
                            then Ok (parts ++ (filter (λ r, eligible r = true) (resp :: resps)
                                               ≫= response_blocks))
                            else Raise (Exception TypeError)).
      rewrite IH. rewrite filter_cons_True by done.
      destruct (forallb _ resps); [|done]. simpl. by rewrite <- app_assoc.
    + rewrite response_step_skip by done. cbn [negb orb andb].
      change (for_responses resps parts
              = if forallb (λ resp, negb (eligible resp)
                               || bool_decide (is_Some (dict_get (aiFollowUps resp) [])))
                     resps
                then Ok (parts ++ (filter (λ r, eligible r = true) (resp :: resps)
                                   ≫= response_blocks))
                else Raise (Exception TypeError)).
      rewrite IH. rewrite filter_cons_False; [done|]. by rewrite He.
Qed.

Lemma unwrap_answer_empty : unwrap_answer (PStr []) = PStr [].
Proof. reflexivity. Qed.

Lemma get_ai_conversation_text_blocks session :
  get_ai_conversation_text session =
  if iterable session
  then Ok (join [NL; NL]
             (filter (λ r, eligible r = true) (responses_of session) ≫= response_blocks))
  else Raise (Exception TypeError).
Proof.
  unfold get_ai_conversation_text, conversation_parts, iterable, responses_of.
  destruct (b_responses (data_of session)) as [| |resps];
    cbn [dict_get iterate value_or].
  - rewrite bool_decide_eq_true_2 by by eexists. done.
  - rewrite bool_decide_eq_false_2 by (by intros [? ?]). done.
  - rewrite bool_decide_eq_true_2 by by eexists. cbn [andb].
    change (for_responses resps [] ≫= (λ parts, Ok (join [NL; NL] parts))
            = if forallb (λ resp, negb (eligible resp)
                             || bool_decide (is_Some (dict_get (aiFollowUps resp) [])))
                   resps
              then Ok (join [NL; NL]
                         (filter (λ r, eligible r = true) resps ≫= response_blocks))
              else Raise (Exception TypeError)).
    rewrite for_responses_blocks. by destruct (forallb _ resps).
Qed.




(** C7: an answer that is a string starting and ending with a double
    quote is decoded by [json.loads] once, the decoded text standing in
    the transcript even when it is itself quoted; when the decoder fails
    the raw string is kept; any other string passes through.  Quoted plain
    text loses exactly its quotes, so the stored answer of the example
    appears as hello. *)
Theorem unwrap_answer_once (a : pystr) :
  (startswith a [DQUOTE] = true → endswith a [DQUOTE] = true →
     unwrap_answer (PStr a) = PStr (default a (json_loads a)))
  ∧ (startswith a [DQUOTE] && endswith a [DQUOTE] = false →
     unwrap_answer (PStr a) = PStr a)
  ∧ (Forall plain_char a → unwrap_answer (PStr (DQUOTE :: a ++ [DQUOTE])) = PStr a)
  ∧ get_ai_conversation_text
      (row_of (lit "s1") (lit "analyzed")
         [open_text (lit "q") (DQUOTE :: lit "hello" ++ [DQUOTE]) Absent])
    = Ok (lit "Q: q" ++ [NL] ++ lit "A: hello")
  ∧ unwrap_answer (PStr ([DQUOTE; BSLASH; DQUOTE] ++ lit "hi" ++ [BSLASH; DQUOTE; DQUOTE]))
    = PStr (DQUOTE :: lit "hi" ++ [DQUOTE]).
Proof.
  split; [|split; [|split; [|split]]].
  - intros Hs He. unfold unwrap_answer. rewrite Hs, He. simpl.
    by destruct (json_loads a).
  - intros H. unfold unwrap_answer. by rewrite H.
  - intros Ha. unfold unwrap_answer.
    rewrite startswith_cons, bool_decide_eq_true_2 by done.
    replace (endswith (DQUOTE :: a ++ [DQUOTE]) [DQUOTE]) with true.
    + by rewrite json_loads_plain.
    + symmetry. apply bool_decide_eq_true. by exists (DQUOTE :: a).
  - reflexivity.
  - reflexivity.
Qed.

Lemma unwrap_answer_once_witness :
  Forall plain_char (lit "hello")
  ∧ unwrap_answer (PStr (DQUOTE :: lit "hello" ++ [DQUOTE])) = PStr (lit "hello").
Proof.
  assert (Forall plain_char (lit "hello")) as H.
  { apply (bool_decide_unpack _). vm_compute. exact I. }
  split; [exact H|].
  exact (proj1 (proj2 (proj2 (unwrap_answer_once (lit "hello")))) H).
Defined.



(** ** The extractor *)

Ltac run_m :=
  cbv [mbind M_bind mret M_ret log raise try_except call_llm get_graph res_of_reply
       of_res].

Lemma transcript_raises session e :
  get_ai_conversation_text session = Raise e →
  e = Exception TypeError ∧ iterable session = false.
Proof.
  rewrite get_ai_conversation_text_blocks.
  destruct (iterable session); [done|]. by intros [= <-].
Qed.



(** What the fallback does, in every case. *)
Lemma fallback_trace env session w :
  ∃ r w' new,
    extract_with_gemini_direct env session w = (r, w')
    ∧ graph w' = graph w ∧ sent w' = sent w
    ∧ logs w' = logs w ++ new
    ∧ Forall (extraction_line (row_id session)) new
    ∧ llm_calls w' = llm_calls w ++ fallback_calls env session
    ∧ (fallback_calls env session = [] → ∀ x, r = Ok x → x = None)
    ∧ (∀ e, r = Raise e → row_error session e)
    ∧ (∀ x, r = Ok (Some x) → session_id x = row_id session).
Proof.
  unfold extract_with_gemini_direct, fallback_calls, requests_of, extraction_line,
    row_error.
  destruct (genai_installed env); simpl.
  2:{ eexists _, _, [_]. split; [done|]. rewrite app_nil_r.
      repeat split; try done; [|by intros _ ? [= <-]].
      apply Forall_singleton. set_solver. }
  destruct (truthy (GEMINI_API_KEY env)); simpl.
  2:{ eexists _, _, [_]. split; [done|]. rewrite app_nil_r.
      repeat split; try done; [|by intros _ ? [= <-]].
      apply Forall_singleton. set_solver. }
  run_m.
  destruct (get_ai_conversation_text session) as [text|e0] eqn:Ht.
  2:{ eexists _, _, []. split; [done|]. rewrite !app_nil_r.
      assert (from_option (λ rq : llm_call * llm_call, [rq.2]) []
                match participant_of session with
                | Some _ => None
                | None => None
                end = []) as -> by by destruct (participant_of session).
      rewrite app_nil_r. repeat split; try done.
      intros e [= <-]. left. by apply transcript_raises. }
  destruct (truthy (strip text)) eqn:Hb; simpl.
  2:{ eexists _, _, []. split; [done|]. rewrite !app_nil_r.
      assert (from_option (λ rq : llm_call * llm_call, [rq.2]) []
                match participant_of session with
                | Some _ => None
                | None => None
                end = []) as -> by by destruct (participant_of session).
      rewrite app_nil_r. repeat split; try done. by intros _ ? [= <-]. }
  destruct (participant_of session) as [p|] eqn:Hp; simpl.
  2:{ eexists _, _, []. split; [done|]. rewrite !app_nil_r.
      repeat split; try done. intros e [= <-]. by right. }
  destruct (generate_content env _ _ _) as [t|err].
  2:{ eexists _, _, [_]. split; [done|]. repeat split; try done.
      apply Forall_singleton. set_solver. }
  destruct (parse_entities env _) as [parsed|].
  2:{ eexists _, _, [_]. split; [done|]. repeat split; try done.
      apply Forall_singleton. set_solver. }
  destruct (validate_str env _) as [name|].
  2:{ eexists _, _, [_]. split; [done|]. repeat split; try done.
      apply Forall_singleton. set_solver. }
  destruct (validate_str env _) as [company|].
  2:{ eexists _, _, [_]. split; [done|]. repeat split; try done.
      apply Forall_singleton. set_solver. }
  eexists _, _, []. split; [done|]. simpl. rewrite app_nil_r.
  repeat split; try done. by intros x [= <-].
Qed.

Lemma requests_of_some session p text :
  participant_of session = Some p →
  get_ai_conversation_text session = Ok text →
  truthy (strip text) = true →
  requests_of session = Some (CallExtractor p text, CallGenerate p text).
Proof. intros Hp Ht Hb. unfold requests_of. by rewrite Hp, Ht, Hb. Qed.

Lemma requests_of_blank session text :
  get_ai_conversation_text session = Ok text →
  truthy (strip text) = false →
  requests_of session = None.
Proof.
  intros Ht Hb. unfold requests_of. rewrite Ht, Hb. by destruct (participant_of session).
Qed.

Lemma requests_of_raise session e :
  get_ai_conversation_text session = Raise e → requests_of session = None.
Proof.
  intros Ht. unfold requests_of. rewrite Ht. by destruct (participant_of session).
Qed.

Lemma requests_of_null session :
  participant_of session = None → requests_of session = None.
Proof. intros Hp. unfold requests_of. by rewrite Hp. Qed.

(** What the extractor does, in every case. *)
Lemma extract_trace env session w :
  ∃ r w' new calls,
    extract_intelligence env session w = (r, w')
    ∧ graph w' = graph w ∧ sent w' = sent w
    ∧ logs w' = logs w ++ new
    ∧ Forall (extraction_line (row_id session)) new
    ∧ llm_calls w' = llm_calls w ++ calls
    ∧ calls ∈ match requests_of session with
              | Some (primary, fallback) => [[]; [primary]; [fallback]; [primary; fallback]]
              | None => [[]]
              end
    ∧ (∀ p text, CallGenerate p text ∈ calls →
         langextract_installed env = false
         ∨ ∃ err, extractor_extract env (length (llm_calls w)) p text = Failure err)
    ∧ (∀ e, r = Raise e → row_error session e)
    ∧ (∀ x, r = Ok (Some x) → session_id x = row_id session).
Proof.
  unfold extract_intelligence.
  destruct (langextract_installed env) eqn:Hl; simpl.
  - run_m.
    destruct (get_ai_conversation_text session) as [text|e0] eqn:Ht.
    2:{ eexists _, _, [], []. split; [done|]. rewrite !app_nil_r.
        rewrite (requests_of_raise _ _ Ht). repeat split; try done.
        - set_solver.
        - intros p text Hin. by apply elem_of_nil in Hin.
        - intros e [= <-]. left. by apply transcript_raises. }
    destruct (truthy (strip text)) eqn:Hb; simpl.
    2:{ eexists _, _, [_], []. split; [done|]. simpl. rewrite !app_nil_r.
        rewrite (requests_of_blank _ _ Ht Hb). repeat split; try done.
        - apply Forall_singleton. unfold extraction_line. set_solver.
        - set_solver.
        - intros p text' Hin. by apply elem_of_nil in Hin. }
    destruct (participant_of session) as [p|] eqn:Hp; simpl.
    2:{ eexists _, _, [], []. split; [done|]. rewrite !app_nil_r.
        rewrite (requests_of_null _ Hp). repeat split; try done.
        - set_solver.
        - intros p text' Hin. by apply elem_of_nil in Hin.
        - intros e [= <-]. by right. }
    rewrite (requests_of_some _ _ _ Hp Ht Hb).
    destruct (extractor_extract env _ _ _) as [[result|]|err] eqn:He.
    + eexists _, _, [], [_]. split; [done|]. simpl. rewrite app_nil_r.
      repeat split; try done.
      * set_solver.
      * intros p' text' Hin. apply list_elem_of_singleton in Hin. discriminate.
      * by intros x [= <-].
    + eexists _, _, [], [_]. split; [done|]. simpl. rewrite app_nil_r.
      repeat split; try done.
      * set_solver.
      * intros p' text' Hin. apply list_elem_of_singleton in Hin. discriminate.
    + destruct (fallback_trace env session
                  (add_log (LogLangExtractFailed (row_id session))
                     (add_call (CallExtractor p text) w)))
        as (r & w' & new & Hr & Hg & Hs & Hlog & Hnew & Hc & _ & Hraise & Hid).
      exists r, w', (LogLangExtractFailed (row_id session) :: new),
        (CallExtractor p text :: fallback_calls env session).
      split; [exact Hr|]. simpl in *.
      rewrite Hg, Hs, Hlog, Hc, <- !app_assoc. repeat split; try done.
      * constructor; [|done]. unfold extraction_line. set_solver.
      * unfold fallback_calls. rewrite (requests_of_some _ _ _ Hp Ht Hb).
        destruct (genai_installed env && truthy (GEMINI_API_KEY env)); set_solver.
      * intros p' text' Hin. right. exists err.
        apply elem_of_cons in Hin as [Hin|Hin]; [discriminate|].
        unfold fallback_calls in Hin. rewrite (requests_of_some _ _ _ Hp Ht Hb) in Hin.
        destruct (genai_installed env && truthy (GEMINI_API_KEY env));
          [|by apply elem_of_nil in Hin].
        apply list_elem_of_singleton in Hin. by injection Hin as -> ->.
  - run_m.
    destruct (fallback_trace env session (add_log LogNoLangextract w))
      as (r & w' & new & Hr & Hg & Hs & Hlog & Hnew & Hc & _ & Hraise & Hid).
    exists r, w', (LogNoLangextract :: new), (fallback_calls env session).
    split; [exact Hr|]. simpl in *.
    rewrite Hg, Hs, Hlog, Hc, <- !app_assoc. repeat split; try done.
    + constructor; [|done]. unfold extraction_line. set_solver.
    + unfold fallback_calls.
      destruct (genai_installed env && truthy (GEMINI_API_KEY env)),
        (requests_of session) as [[a b]|]; set_solver.
    + intros ? ? _. by left.
Qed.








(** ** Sending statements *)

Lemma for_each_ext {A} (xs : list A) (b1 b2 : A → M unit) w :
  (∀ x w, b1 x w = b2 x w) → for_each xs b1 w = for_each xs b2 w.
Proof.
  intros Hb. revert w. induction xs as [|x xs IH]; intros w; [done|].
  simpl. run_m. rewrite Hb. destruct (b2 x w) as [[[]|e] w']; [apply IH|done].
Qed.

Lemma for_each_app {A} (xs ys : list A) (body : A → M unit) w :
  for_each (xs ++ ys) body w = (for_each xs body ;; for_each ys body) w.
Proof.
  revert w. induction xs as [|x xs IH]; intros w; [done|].
  simpl. run_m. destruct (body x w) as [[[]|e] w']; [|done].
  rewrite IH. by run_m.
Qed.

Lemma for_each_fmap {A B} (f : A → B) (xs : list A) (body : B → M unit) w :
  for_each (f <$> xs) body w = for_each xs (λ x, body (f x)) w.
Proof.
  revert w. induction xs as [|x xs IH]; intros w; [done|].
  simpl. run_m. destruct (body (f x) w) as [[[]|e] w']; [apply IH|done].
Qed.

Lemma for_each_send_all {A} env (f : A → list Query) (xs : list A) w :
  for_each xs (λ x, send_all env (f x)) w = send_all env (xs ≫= f) w.
Proof.
  revert w. induction xs as [|x xs IH]; intros w; [done|].
  rewrite bind_cons. cbn [for_each]. unfold send_all in *.
  rewrite for_each_app. run_m.
  destruct (for_each (f x) (session_run env) w) as [[[]|e] w']; [apply IH|done].
Qed.

Lemma send_all_app env qs1 qs2 w :
  send_all env (qs1 ++ qs2) w =
  match send_all env qs1 w with
  | (Ok _, w') => send_all env qs2 w'
  | (Raise e, w') => (Raise e, w')
  end.
Proof. unfold send_all. rewrite for_each_app. by run_m. Qed.

Lemma theme_loop_send_all env sid ths w :
  for_each ths (λ theme,
    session_run env (QTheme (theme_name theme) (category_value (category theme))
                       sid (sentiment_value (sentiment theme))
                       (confidence theme) (evidence theme)) ;;
    for_each (related_dimensions theme) (λ dim,
      session_run env (QDimension (theme_name theme) dim))) w
  = send_all env (ths ≫= theme_queries sid) w.
Proof.
  rewrite <- for_each_send_all. apply for_each_ext. intros th w0.
  unfold send_all, theme_queries. cbn [for_each]. run_m.
  destruct (session_run env _ w0) as [[[]|?] w1]; [|done].
  by rewrite for_each_fmap.
Qed.

Lemma M_seq {B} (m : M unit) (k : M B) w :
  (m ;; k) w =
  match m w with
  | (Ok _, w') => k w'
  | (Raise e, w') => (Raise e, w')
  end.
Proof. reflexivity. Qed.

Lemma sync_send_all env e w :
  sync_extraction_to_graph env e w =
  (send_all env (sync_queries e) ;; log (synced_line e)) w.
Proof.
  unfold sync_extraction_to_graph, sync_queries.
  unfold tool_statement, pain_point_statement, goal_statement, quote_statement,
    synced_line.
  rewrite !M_seq, send_all_app, theme_loop_send_all.
  destruct (send_all env _ w) as [[[]|?] w1]; [|done].
  rewrite M_seq, send_all_app. unfold send_all at 1. rewrite for_each_fmap.
  destruct (for_each (tools e) _ w1) as [[[]|?] w2]; [|done].
  rewrite M_seq, send_all_app. unfold send_all at 1. rewrite for_each_fmap.
  destruct (for_each (pain_points e) _ w2) as [[[]|?] w3]; [|done].
  rewrite M_seq, send_all_app. unfold send_all at 1. rewrite for_each_fmap.
  destruct (for_each (goals e) _ w3) as [[[]|?] w4]; [|done].
  rewrite M_seq. unfold send_all. rewrite for_each_fmap.
  by destruct (for_each (quotes e) _ w4) as [[[]|?] w5].
Qed.

(** What is left of the world by a run of statements that all reach the
    store. *)
Lemma send_all_inv env qs w w' :
  send_all env qs w = (Ok tt, w') →
  graph w' = run_queries env (length (sent w)) qs (graph w)
  ∧ sent w' = sent w ++ qs
  ∧ llm_calls w' = llm_calls w
  ∧ logs w' = logs w.
Proof.
  revert w. induction qs as [|q qs IH]; intros w.
  - intros [= <-]. by rewrite app_nil_r.
  - unfold send_all. simpl. run_m. unfold session_run.
    destruct (neo4j_up env (length (sent w))); [|done].
    intros H. apply IH in H as (Hg & Hs & Hl & Hlog). simpl in *.
    rewrite length_app in Hg. simpl in Hg. rewrite Nat.add_1_r in Hg.
    by rewrite Hg, Hs, <- app_assoc.
Qed.

Lemma send_all_ok env qs w :
  reachable_from env (length (sent w)) →
  ∃ w', send_all env qs w = (Ok tt, w').
Proof.
  revert w. induction qs as [|q qs IH]; intros w Hup; [by eexists|].
  unfold send_all. simpl. run_m. unfold session_run.
  rewrite Hup by done. apply IH. simpl. intros k Hk. apply Hup.
  rewrite length_app in Hk. lia.
Qed.


Lemma sync_inv env e w w' :
  sync_extraction_to_graph env e w = (Ok tt, w') →
  graph w' = run_queries env (length (sent w)) (sync_queries e) (graph w)
  ∧ sent w' = sent w ++ sync_queries e
  ∧ llm_calls w' = llm_calls w.
Proof.
  rewrite sync_send_all. run_m.
  destruct (send_all env (sync_queries e) w) as [[[]|?] w1] eqn:Hs; [|done].
  intros [= <-]. apply send_all_inv in Hs as (? & ? & ? & ?). done.
Qed.

Lemma sync_ok env e w :
  reachable_from env (length (sent w)) →
  ∃ w', sync_extraction_to_graph env e w = (Ok tt, w').
Proof.
  intros Hup. rewrite sync_send_all. run_m.
  destruct (send_all_ok env (sync_queries e) w Hup) as [w1 ->]. by eexists.
Qed.


(** ** Field defaults *)


Lemma or_default_None d : or_default None d = d.
Proof. reflexivity. Qed.


Lemma or_default_empty d : or_default (Some []) d = d.
Proof. reflexivity. Qed.



(** ** The batch driver *)



Lemma fetch_analyzed env w :
  supabase_up env = true →
  fetch_analyzed_sessions env None w =
  (Ok (filter (λ row, row_status row = lit "analyzed") (table env)),
   add_log (LogFetched (length (filter (λ row, row_status row = lit "analyzed")
                                  (table env)))) w).
Proof. intros Hup. unfold fetch_analyzed_sessions. by rewrite Hup. Qed.

Lemma M_bind_app {A B} (m : M A) (k : A → M B) w :
  (m ≫= k) w =
  match m w with
  | (Ok a, w') => k a w'
  | (Raise e, w') => (Raise e, w')
  end.
Proof. reflexivity. Qed.

(** The start of [main] when the store answers the connectivity check. *)
Lemma startup_ok env w :
  neo4j_up env (length (sent w)) = true →
  try_except (session_run env QPing ;; log LogVerified)
             (log LogCannotConnect ;; raise (SystemExit 1)) w
  = (Ok tt, add_log LogVerified (add_sent QPing (graph w) w)).
Proof.
  intros Hup. unfold try_except. rewrite M_seq. unfold session_run.
  by rewrite Hup.
Qed.

Lemma startup_down env w :
  neo4j_up env (length (sent w)) = false →
  try_except (session_run env QPing ;; log LogVerified)
             (log LogCannotConnect ;; raise (SystemExit 1)) w
  = (Raise (SystemExit 1), add_log LogCannotConnect (add_sent QPing (graph w) w)).
Proof.
  intros Hup. unfold try_except. rewrite M_seq. unfold session_run.
  by rewrite Hup.
Qed.






(** ** Conditional assignments on a table *)

Section TableFacts.
Context {A : Type} (get : A → gmap string Value) (put : gmap string Value → A → A).
Context (get_put : ∀ m a, get (put m a) = m).
Context (put_put : ∀ m m' a, put m (put m' a) = put m a).
Context (put_get : ∀ a, put (get a) a = a).
(** The writes considered never change what their conditions read. *)
Context (ok : write A → Prop).
Context (ok_stable : ∀ w w' a,
           ok w → ok w' → w_cond w (assign get put (w_sets w') a) = w_cond w a).

Local Abbreviation ap := (apply_write get put).
Local Abbreviation ap_all := (apply_all get put).

Lemma cond_apply w x a : ok w → ok x → w_cond w (ap x a) = w_cond w a.
Proof.
  intros Hw Hx. unfold apply_write. destruct (w_cond x a); [|done].
  by apply ok_stable.
Qed.

Lemma cond_apply_all w ws a :
  ok w → Forall ok ws → w_cond w (ap_all ws a) = w_cond w a.
Proof.
  intros Hw Hws. revert a. induction Hws as [|x ws Hx _ IH]; intros a; [done|].
  simpl. rewrite IH. by apply cond_apply.
Qed.

Lemma apply_all_app ws1 ws2 a :
  ap_all (ws1 ++ ws2) a = ap_all ws2 (ap_all ws1 a).
Proof. unfold apply_all. by rewrite foldl_app. Qed.

Lemma apply_all_snoc ws x a : ap_all (ws ++ [x]) a = ap x (ap_all ws a).
Proof. by rewrite apply_all_app. Qed.

Lemma assigned_snoc (ws : list (write A)) (x : write A) (a : A) :
  assigned (ws ++ [x]) a =
  if w_cond x a then w_sets x ∪ assigned ws a else assigned ws a.
Proof. unfold assigned. by rewrite foldl_app. Qed.

(** All the writes together are one assignment. *)
Lemma apply_all_assigned ws a :
  Forall ok ws → ap_all ws a = put (assigned ws a ∪ get a) a.
Proof.
  induction ws as [|x ws IH] using rev_ind; intros Hws.
  - simpl. unfold assigned. simpl. by rewrite (left_id (R:=eq) ∅ (∪)), put_get.
  - apply Forall_app in Hws as [Hws Hx]. apply Forall_cons in Hx as [Hx _].
    rewrite apply_all_snoc, assigned_snoc. unfold apply_write.
    rewrite cond_apply_all by done. destruct (w_cond x a); [|by apply IH].
    rewrite IH by done. unfold assign.
    by rewrite get_put, put_put, (assoc (R:=eq) (∪)).
Qed.

Lemma assigned_assign (ws : list (write A)) s (a : A) :
  Forall ok ws → (∀ w, ok w → w_cond w (assign get put s a) = w_cond w a) →
  assigned ws (assign get put s a) = assigned ws a.
Proof.
  intros Hws Hs. induction ws as [|x ws IH] using rev_ind; [done|].
  apply Forall_app in Hws as [Hws Hx]. apply Forall_cons in Hx as [Hx _].
  rewrite !assigned_snoc, IH, Hs by done. done.
Qed.

(** Writing [x] before and after other writes is writing it after. *)
Lemma apply_band x ws a :
  ok x → Forall ok ws → ap x (ap_all ws (ap x a)) = ap x (ap_all ws a).
Proof.
  intros Hx Hws. unfold apply_write at 1 3.
  rewrite !cond_apply_all, cond_apply by done.
  destruct (w_cond x a) eqn:Hc; [|unfold apply_write; by rewrite Hc].
  unfold apply_write. rewrite Hc.
  rewrite !apply_all_assigned by done.
  rewrite assigned_assign by (done || by intros; apply ok_stable).
  unfold assign. rewrite !get_put, !put_put. f_equal.
  apply map_eq. intros p. rewrite !lookup_union.
  destruct (w_sets x !! p), (@assigned A ws a !! p), (get a !! p); done.
Qed.

Lemma apply_all_nomatch ws a :
  Forall (λ w, w_cond w a = false) ws → ap_all ws a = a.
Proof.
  induction 1 as [|x ws Hx _ IH]; [done|].
  change (ap_all (x :: ws) a) with (ap_all ws (ap x a)).
  assert (ap x a = a) as -> by (unfold apply_write; by rewrite Hx). done.
Qed.

(** An element the earlier writes leave as it is, is left as it is by
    all the writes once [x] has been applied to it. *)
Lemma absorb_snoc ws x a :
  ok x → Forall ok ws → ap_all ws a = a →
  ap_all (ws ++ [x]) (ap x a) = ap x a.
Proof.
  intros Hx Hws Ha. by rewrite apply_all_snoc, apply_band, Ha.
Qed.

Lemma apply_all_ext ws ws' a :
  Forall2 (λ w w', (∀ b, w_cond w b = w_cond w' b) ∧ w_sets w = w_sets w') ws ws' →
  ap_all ws a = ap_all ws' a.
Proof.
  intros H. revert a. induction H as [|w w' ws ws' [Hc Hs] _ IH]; intros a; [done|].
  simpl. rewrite IH. unfold apply_write. by rewrite Hc, Hs.
Qed.

(** The value a property has after all the writes is the one of the
    last write that applies and sets it. *)
Lemma apply_all_last ws1 x ws2 a p v :
  Forall ok (ws1 ++ x :: ws2) →
  w_cond x a = true → w_sets x !! p = Some v →
  Forall (λ w, w_cond w a = false ∨ w_sets w !! p = None) ws2 →
  get (ap_all (ws1 ++ x :: ws2) a) !! p = Some v.
Proof.
  intros Hok Hx Hp Hlater.
  apply Forall_app in Hok as [Hok1 Hok2]. apply Forall_cons in Hok2 as [Hokx Hok2].
  rewrite apply_all_app. simpl.
  set (b := ap x (ap_all ws1 a)).
  assert (get b !! p = Some v) as Hb.
  { unfold b, apply_write. rewrite cond_apply_all, Hx by done. unfold assign.
    rewrite get_put, lookup_union, Hp. by destruct (get _ !! p). }
  assert (∀ w, ok w → w_cond w b = w_cond w a) as Hcb.
  { intros w Hw. unfold b. by rewrite cond_apply, cond_apply_all. }
  clearbody b. revert b Hb Hcb.
  induction Hlater as [|w ws2' Hw _ IH]; intros b Hb Hcb; [done|].
  apply Forall_cons in Hok2 as [Hokw Hok2]. simpl. apply IH; [done| |].
  - unfold apply_write. destruct (w_cond w b) eqn:Hc; [|done].
    unfold assign. rewrite get_put, lookup_union.
    destruct Hw as [Hw|Hw]; [by rewrite Hcb, Hw in Hc|].
    by rewrite Hw, Hb.
  - intros w' Hw'. by rewrite cond_apply, Hcb.
Qed.
End TableFacts.

(** ** Node patterns on a table *)

Lemma elem_of_match_ids p ns i : i ∈ match_ids p ns ↔ matches p ns i.
Proof.
  unfold match_ids, matches. rewrite list_elem_of_fmap. split.
  - intros ([j n] & -> & Hin). apply elem_of_map_to_list in Hin.
    apply map_lookup_filter_Some in Hin as [Hn Hp]. by exists n.
  - intros (n & Hn & Hp). exists (i, n). split; [done|].
    apply elem_of_map_to_list. by apply map_lookup_filter_Some.
Qed.

Lemma match_ids_nil p ns : match_ids p ns = [] ↔ ¬ present p ns.
Proof.
  split.
  - intros Hnil [i Hi]. apply elem_of_match_ids in Hi. rewrite Hnil in Hi.
    by apply elem_of_nil in Hi.
  - intros Hno. destruct (match_ids p ns) as [|i l] eqn:Hm; [done|].
    exfalso. apply Hno. exists i. apply elem_of_match_ids. rewrite Hm. left.
Qed.

Lemma MATCH_node_ids l k v g :
  MATCH_node l k v g = match_ids {| pat_label := l; pat_key := k; pat_val := v |} (nodes g).
Proof. reflexivity. Qed.

Lemma node_has_new q p : node_has q (new_node p) ↔ q = p.
Proof.
  destruct q as [lq kq vq], p as [lp kp vp]. unfold node_has, node_is, new_node. simpl.
  split.
  - intros [-> Hl]. apply lookup_singleton_Some in Hl as [-> ->]. done.
  - intros [= -> -> ->]. split; [done|]. apply lookup_singleton_eq.
Qed.

Lemma matches_mono q ns ns' i : ns ⊆ ns' → matches q ns i → matches q ns' i.
Proof.
  intros Hsub (n & Hn & Hq). exists n. split; [|done].
  by eapply lookup_weaken.
Qed.

Lemma merge_node_nocreate p ns : present p ns → merge_node p ns = ns.
Proof.
  intros Hp. unfold merge_node. destruct (match_ids p ns) eqn:Hm; [|done].
  by apply match_ids_nil in Hm.
Qed.

Lemma merge_node_create p ns :
  ¬ present p ns → merge_node p ns = <[fresh (dom ns) := new_node p]> ns.
Proof.
  intros Hp. unfold merge_node. apply match_ids_nil in Hp. by rewrite Hp.
Qed.

Lemma fresh_lookup {B} (m : gmap nat B) : m !! fresh (dom m) = None.
Proof. apply not_elem_of_dom, is_fresh. Qed.

Lemma merge_node_subseteq p ns : ns ⊆ merge_node p ns.
Proof.
  destruct (decide (present p ns)) as [Hp|Hp].
  - by rewrite merge_node_nocreate.
  - rewrite merge_node_create by done. apply insert_subseteq, fresh_lookup.
Qed.

Lemma merge_node_present p ns : present p (merge_node p ns).
Proof.
  destruct (decide (present p ns)) as [Hp|Hp].
  - by rewrite merge_node_nocreate.
  - rewrite merge_node_create by done. exists (fresh (dom ns)), (new_node p).
    split; [apply lookup_insert_eq|]. by apply node_has_new.
Qed.

(** What matches after a [MERGE]: what matched before, and the node
    created when the pattern is the merged one. *)
Lemma matches_merge_node q p ns i :
  matches q (merge_node p ns) i ↔
  matches q ns i ∨ (¬ present p ns ∧ q = p ∧ i = fresh (dom ns)).
Proof.
  destruct (decide (present p ns)) as [Hp|Hp].
  - rewrite merge_node_nocreate by done. split; [by left|]. by intros [?|(? & _)].
  - rewrite merge_node_create by done. unfold matches. split.
    + intros (n & Hn & Hq). apply lookup_insert_Some in Hn as [[<- <-]|[Hne Hn]].
      * right. by apply node_has_new in Hq.
      * left. by exists n.
    + intros [(n & Hn & Hq)|(_ & -> & ->)].
      * exists n. split; [|done]. rewrite lookup_insert_ne; [done|].
        intros <-. by rewrite fresh_lookup in Hn.
      * exists (new_node p). split; [apply lookup_insert_eq|]. by apply node_has_new.
Qed.

Lemma node_has_set q sets n :
  keyed q → safe_sets sets → node_has q (put_node (sets ∪ nprops n) n) ↔ node_has q n.
Proof.
  intros Hk (Hn & Hd & Hi). unfold node_has, node_is. simpl.
  rewrite lookup_union_r; [done|]. by destruct Hk as [->|[->| ->]].
Qed.

Lemma node_has_apply q p sets n :
  keyed q → safe_sets sets →
  node_has q (apply_write nprops put_node (node_write p sets) n) ↔ node_has q n.
Proof.
  intros Hk Hs. unfold apply_write. destruct (w_cond _ n); [|done].
  by apply node_has_set.
Qed.

Lemma upsert_node_lookup p sets ns i :
  upsert_node p sets ns !! i =
  apply_write nprops put_node (node_write p sets) <$> merge_node p ns !! i.
Proof. unfold upsert_node. by rewrite lookup_fmap. Qed.

Lemma matches_upsert_node q p sets ns i :
  keyed q → safe_sets sets →
  matches q (upsert_node p sets ns) i ↔ matches q (merge_node p ns) i.
Proof.
  intros Hk Hs. unfold matches. rewrite upsert_node_lookup. split.
  - intros (n & Hn & Hq). apply fmap_Some in Hn as (n0 & Hn0 & ->).
    exists n0. split; [done|]. by apply node_has_apply in Hq.
  - intros (n & Hn & Hq). eexists. rewrite Hn. split; [done|].
    by apply node_has_apply.
Qed.

Lemma present_upsert_node p sets ns :
  keyed p → safe_sets sets → present p (upsert_node p sets ns).
Proof.
  intros Hk Hs. destruct (merge_node_present p ns) as [i Hi].
  exists i. by apply matches_upsert_node.
Qed.

(** A pattern that is present, or that is never merged on, matches the
    same nodes after an upsert. *)
Lemma matches_upsert_stable q p sets ns i :
  keyed q → safe_sets sets → present q ns ∨ q ≠ p →
  matches q (upsert_node p sets ns) i ↔ matches q ns i.
Proof.
  intros Hk Hs Hq. rewrite matches_upsert_node, matches_merge_node by done.
  split; [|by left]. intros [?|(Hno & -> & _)]; [done|].
  by destruct Hq.
Qed.

Lemma present_upsert_mono q p sets ns :
  keyed q → safe_sets sets → present q ns → present q (upsert_node p sets ns).
Proof.
  intros Hk Hs [i Hi]. exists i. apply matches_upsert_node; [done..|].
  apply matches_merge_node. by left.
Qed.

Lemma upsert_node_nocreate p sets ns :
  present p ns →
  upsert_node p sets ns = apply_write nprops put_node (node_write p sets) <$> ns.
Proof. intros Hp. unfold upsert_node. by rewrite merge_node_nocreate. Qed.

Lemma put_node_get n : put_node (nprops n) n = n.
Proof. by destruct n. Qed.

Lemma put_rel_get r : put_rel (rprops r) r = r.
Proof. by destruct r. Qed.

Lemma apply_empty_node p n : apply_write nprops put_node (node_write p ∅) n = n.
Proof.
  unfold apply_write, assign. destruct (w_cond _ n); [|done]. simpl.
  by rewrite (left_id (R:=eq) ∅ (∪)), put_node_get.
Qed.

Lemma upsert_node_empty p ns : upsert_node p ∅ ns = merge_node p ns.
Proof.
  unfold upsert_node. rewrite <- (map_fmap_id (merge_node p ns)) at 2.
  apply map_fmap_ext. intros i n _. apply apply_empty_node.
Qed.

(** The [MERGE] and [SET] clauses on a graph are the upsert on its table
    of nodes. *)
Lemma MERGE_node_spec l k v g :
  let p := {| pat_label := l; pat_key := k; pat_val := v |} in
  nodes (MERGE_node l k v g).1 = merge_node p (nodes g)
  ∧ rels (MERGE_node l k v g).1 = rels g
  ∧ ∀ i, i ∈ (MERGE_node l k v g).2 ↔ matches p (merge_node p (nodes g)) i.
Proof.
  intros p. unfold MERGE_node, merge_node. rewrite MATCH_node_ids. fold p.
  destruct (match_ids p (nodes g)) as [|j l'] eqn:Hm; simpl.
  - split; [done|]. split; [done|]. intros i.
    rewrite list_elem_of_singleton.
    assert (¬ present p (nodes g)) as Hno by by apply match_ids_nil.
    pose proof (matches_merge_node p p (nodes g) i) as Hmm.
    rewrite merge_node_create in Hmm by done. rewrite Hmm. split.
    + intros ->. by right.
    + intros [Hi|(_ & _ & ->)]; [|done]. exfalso. apply Hno. by exists i.
  - split; [done|]. split; [done|]. intros i. rewrite <- Hm.
    apply elem_of_match_ids.
Qed.

Lemma SET_nodes_spec xs sets p g :
  (∀ i, i ∈ xs ↔ matches p (nodes g) i) →
  nodes (SET_nodes xs sets g) =
    apply_write nprops put_node (node_write p sets) <$> nodes g
  ∧ rels (SET_nodes xs sets g) = rels g.
Proof.
  intros Hxs. split; [|done]. unfold SET_nodes. simpl. apply map_eq. intros i.
  rewrite map_lookup_imap, lookup_fmap.
  destruct (nodes g !! i) as [n|] eqn:Hn; [|done]. simpl. f_equal.
  unfold apply_write, assign. simpl.
  destruct (decide (node_has p n)) as [Hp|Hp].
  - rewrite bool_decide_eq_true_2 by (apply Hxs; by exists n).
    by rewrite bool_decide_eq_true_2.
  - rewrite (bool_decide_eq_false_2 (i ∈ xs)).
    + by rewrite bool_decide_eq_false_2.
    + intros Hi. apply Hxs in Hi as (n' & Hn' & Hp'). congruence.
Qed.

Lemma MERGE_SET_spec l k v sets g :
  let p := {| pat_label := l; pat_key := k; pat_val := v |} in
  let gt := MERGE_node l k v g in
  nodes (SET_nodes gt.2 sets gt.1) = upsert_node p sets (nodes g)
  ∧ rels (SET_nodes gt.2 sets gt.1) = rels g
  ∧ ∀ i, i ∈ gt.2 ↔ matches p (merge_node p (nodes g)) i.
Proof.
  intros p gt. destruct (MERGE_node_spec l k v g) as (Hn & Hr & Ht). fold p gt in Hn, Hr, Ht.
  destruct (SET_nodes_spec gt.2 sets p gt.1) as [Hn' Hr'].
  { intros i. by rewrite Hn. }
  split; [by rewrite Hn', Hn|]. split; [by rewrite Hr'|done].
Qed.

(** ** Relationship rows on a table *)

Lemma filter_rel_empty ty row (rs : gmap nat Rel) :
  filter (λ ir, rel_is ty row.1 row.2 ir.2) rs = ∅ ↔ ¬ covered ty rs row.
Proof.
  rewrite map_empty. split.
  - intros Hnone (j & r & Hr & His).
    specialize (Hnone j). apply eq_None_not_Some in Hnone. apply Hnone.
    exists r. by apply map_lookup_filter_Some.
  - intros Hno j. apply eq_None_not_Some. intros [r Hr].
    apply map_lookup_filter_Some in Hr as [Hr His]. apply Hno. by exists j, r.
Qed.

Lemma covered_mono ty rs rs' row : rs ⊆ rs' → covered ty rs row → covered ty rs' row.
Proof.
  intros Hsub (j & r & Hr & His). exists j, r. split; [|done].
  by eapply lookup_weaken.
Qed.

Lemma merge_row_covered_id ty rs row : covered ty rs row → merge_row ty rs row = rs.
Proof.
  intros Hc. unfold merge_row. destruct (decide _) as [He|]; [|done].
  by apply filter_rel_empty in He.
Qed.

Lemma merge_row_new ty rs row :
  ¬ covered ty rs row → merge_row ty rs row = <[fresh (dom rs) := new_rel ty row]> rs.
Proof.
  intros Hc. unfold merge_row. destruct (decide _) as [He|He]; [done|].
  by apply filter_rel_empty in Hc.
Qed.

Lemma merge_row_subseteq ty rs row : rs ⊆ merge_row ty rs row.
Proof.
  destruct (decide (covered ty rs row)) as [Hc|Hc].
  - by rewrite merge_row_covered_id.
  - rewrite merge_row_new by done. apply insert_subseteq, fresh_lookup.
Qed.

Lemma merge_row_covers ty rs row : covered ty (merge_row ty rs row) row.
Proof.
  destruct (decide (covered ty rs row)) as [Hc|Hc].
  - by rewrite merge_row_covered_id.
  - rewrite merge_row_new by done. exists (fresh (dom rs)), (new_rel ty row).
    split; [apply lookup_insert_eq|]. by destruct row.
Qed.

Lemma merge_rows_subseteq ty rows rs : rs ⊆ foldl (merge_row ty) rs rows.
Proof.
  revert rs. induction rows as [|row rows IH]; intros rs; [done|].
  simpl. etrans; [apply (merge_row_subseteq ty rs row)|apply IH].
Qed.

Lemma merge_rows_covers ty rows rs row :
  row ∈ rows → covered ty (foldl (merge_row ty) rs rows) row.
Proof.
  revert rs. induction rows as [|row' rows IH]; intros rs Hin.
  - by apply elem_of_nil in Hin.
  - simpl. apply elem_of_cons in Hin as [->|Hin]; [|by apply IH].
    eapply covered_mono; [apply merge_rows_subseteq|apply merge_row_covers].
Qed.

Lemma merge_rows_covered_id ty rows rs :
  (∀ row, row ∈ rows → covered ty rs row) → foldl (merge_row ty) rs rows = rs.
Proof.
  revert rs. induction rows as [|row rows IH]; intros rs Hc; [done|].
  simpl. rewrite merge_row_covered_id by (apply Hc; left).
  apply IH. intros row' Hin. apply Hc. by right.
Qed.

(** A relationship the [MERGE] leaves is an old one, or a new one along
    a row that had none. *)
Lemma merge_rows_lookup ty rows rs j r :
  foldl (merge_row ty) rs rows !! j = Some r →
  rs !! j = Some r
  ∨ (rs !! j = None ∧ ∃ row, row ∈ rows ∧ r = new_rel ty row ∧ ¬ covered ty rs row).
Proof.
  revert rs. induction rows as [|row rows IH]; intros rs Hj; [by left|].
  simpl in Hj. apply IH in Hj as [Hj|(Hj & row' & Hin & -> & Hno)].
  - destruct (decide (covered ty rs row)) as [Hc|Hc].
    + rewrite merge_row_covered_id in Hj by done. by left.
    + rewrite merge_row_new in Hj by done.
      apply lookup_insert_Some in Hj as [[<- <-]|[Hne Hj]]; [|by left].
      right. split; [apply fresh_lookup|]. exists row. split; [left|done].
  - right. split.
    + destruct (rs !! j) eqn:Hr; [|done].
      eapply lookup_weaken in Hr; [|apply (merge_row_subseteq ty rs row)]. congruence.
    + exists row'. split; [by right|]. split; [done|].
      intros Hc. apply Hno. eapply covered_mono; [apply merge_row_subseteq|done].
Qed.

Lemma MERGE_rels_spec ty rows g :
  nodes (MERGE_rels ty rows g) = nodes g
  ∧ rels (MERGE_rels ty rows g) = foldl (merge_row ty) (rels g) rows.
Proof.
  unfold MERGE_rels. revert g. induction rows as [|row rows IH]; intros g; [done|].
  simpl. destruct (IH (MERGE_rel ty g row)) as [-> ->].
  unfold MERGE_rel, merge_row. by destruct (decide _).
Qed.

Lemma apply_empty_rel ty rows r : apply_write rprops put_rel (rel_write ty rows ∅) r = r.
Proof.
  unfold apply_write, assign. destruct (w_cond _ r); [|done]. simpl.
  by rewrite (left_id (R:=eq) ∅ (∪)), put_rel_get.
Qed.

Lemma upsert_rels_empty ty rows rs :
  upsert_rels ty rows ∅ rs = foldl (merge_row ty) rs rows.
Proof.
  unfold upsert_rels. rewrite <- (map_fmap_id (foldl _ _ _)) at 2.
  apply map_fmap_ext. intros i r _. apply apply_empty_rel.
Qed.

Lemma MERGE_SET_rels_spec ty rows sets g :
  nodes (SET_rels ty rows sets (MERGE_rels ty rows g)) = nodes g
  ∧ rels (SET_rels ty rows sets (MERGE_rels ty rows g)) = upsert_rels ty rows sets (rels g).
Proof.
  destruct (MERGE_rels_spec ty rows g) as [Hn Hr].
  unfold SET_rels. simpl. rewrite Hn, Hr. done.
Qed.

Lemma upsert_rels_nil ty sets rs : upsert_rels ty [] sets rs = rs.
Proof.
  unfold upsert_rels. simpl. rewrite <- (map_fmap_id rs) at 2.
  apply map_fmap_ext. intros i r _. unfold apply_write. simpl.
  rewrite bool_decide_eq_false_2; [done|]. intros [_ Hin]. by apply elem_of_nil in Hin.
Qed.

Lemma elem_of_rows_of ss ts a b : (a, b) ∈ rows_of ss ts ↔ a ∈ ss ∧ b ∈ ts.
Proof.
  unfold rows_of. rewrite list_elem_of_bind. split.
  - intros (s & Hin & Hs). apply list_elem_of_bind in Hin as (t & Hin & Ht).
    apply list_elem_of_singleton in Hin as [= -> ->]. done.
  - intros [Ha Hb]. exists a. split; [|done].
    apply list_elem_of_bind. exists b. split; [|done]. left.
Qed.

Lemma rows_of_nil ts : rows_of [] ts = [].
Proof. reflexivity. Qed.

(** ** The shape of the statements *)

Lemma merge_pattern_keyed p : merge_pattern p → keyed p.
Proof. intros ([?|?] & _); unfold keyed; auto. Qed.

Lemma shape_wf now q u : shape now q = Some u → wf_upsert u.
Proof.
  destruct q; intros [= <-]; unfold wf_upsert, merge_pattern, safe_sets; simpl.
  - split; [|split; [set_solver|split; [by right|done]]].
    repeat constructor; auto; done.
  - split; [|split; [set_solver|split; [left; set_solver|done]]].
    repeat constructor; auto; done.
  - split; [|split; [set_solver|split; [by right|done]]].
    repeat constructor; auto; done.
  - split; [|split; [set_solver|split; [by right|done]]].
    repeat constructor; auto; done.
  - split; [|split; [set_solver|split; [by right|done]]].
    repeat constructor; auto; done.
Qed.

Lemma wf_src_keyed u : wf_upsert u → keyed (u_src u).
Proof.
  intros (Hm & _ & [Hin|[_ Hk]] & _).
  - apply list_elem_of_fmap in Hin as (m & -> & Hin).
    rewrite Forall_forall in Hm. apply merge_pattern_keyed, (Hm m Hin).
  - unfold keyed. auto.
Qed.

Lemma wf_dst_merge u : wf_upsert u → merge_pattern (u_dst u).
Proof.
  intros (Hm & Hin & _). apply list_elem_of_fmap in Hin as (m & -> & Hin).
  rewrite Forall_forall in Hm. apply (Hm m Hin).
Qed.

Lemma wf_src_not_quote u : wf_upsert u → pat_label (u_src u) ≠ Quote.
Proof.
  intros (Hm & _ & [Hin|[Hl _]] & _).
  - apply list_elem_of_fmap in Hin as (m & -> & Hin).
    rewrite Forall_forall in Hm. apply (Hm m Hin).
  - by rewrite Hl.
Qed.

(** A pattern that is present, or that is a Session pattern, matches the
    same nodes after the merges of any statement. *)
Lemma matches_nodes_step q u ns i :
  wf_upsert u → keyed q → present q ns ∨ pat_label q = Session →
  matches q (nodes_step u ns) i ↔ matches q ns i.
Proof.
  intros (Hm & _) Hk. unfold nodes_step. revert ns.
  induction Hm as [|m ms [Hp Hs] _ IH]; intros ns Hq; [done|].
  simpl. rewrite IH.
  - apply matches_upsert_stable; [done..|].
    destruct Hq as [?|Hq]; [by left|]. right. intros ->.
    destruct Hp as (_ & Hne & _). done.
  - destruct Hq as [Hq|Hq]; [|by right]. left. by apply present_upsert_mono.
Qed.

Lemma present_nodes_step_mono q u ns :
  wf_upsert u → keyed q → present q ns → present q (nodes_step u ns).
Proof.
  intros Hu Hk [i Hi]. exists i. apply matches_nodes_step; [done..|by left; exists i|done].
Qed.

(** The patterns a statement merges on are present after it. *)
Lemma present_after_step u ns m :
  wf_upsert u → m ∈ u_merges u → present m.1 (nodes_step u ns).
Proof.
  intros (Hm & _). unfold nodes_step. revert ns.
  induction Hm as [|m0 ms [Hp Hs] Hms IH]; intros ns Hin.
  - by apply elem_of_nil in Hin.
  - simpl. apply elem_of_cons in Hin as [->|Hin]; [|by apply IH].
    assert (present m0.1 (upsert_node m0.1 m0.2 ns)) as Hpres
      by (apply present_upsert_node; [by apply merge_pattern_keyed|done]).
    clear IH. revert Hpres. generalize (upsert_node m0.1 m0.2 ns).
    induction Hms as [|m1 ms [Hp1 Hs1] _ IH]; intros ns' Hpres; [done|].
    simpl. apply IH. apply present_upsert_mono; [by apply merge_pattern_keyed|done..].
Qed.

(** The first three clauses of the statements that start from a Session:
    merge on [p], assign [sets], match the Session nodes. *)
Lemma merge_set_match_spec l k v sets sid g :
  let p := {| pat_label := l; pat_key := k; pat_val := v |} in
  let gt := MERGE_node l k v g in
  let g2 := SET_nodes gt.2 sets gt.1 in
  keyed p → safe_sets sets →
  nodes g2 = upsert_node p sets (nodes g)
  ∧ rels g2 = rels g
  ∧ ∀ a b, (a, b) ∈ rows_of (MATCH_node Session "id" sid g2) gt.2 ↔
           matches (Pat Session "id" sid) (nodes g2) a ∧ matches p (nodes g2) b.
Proof.
  intros p gt g2 Hk Hs.
  destruct (MERGE_SET_spec l k v sets g) as (Hn & Hr & Ht).
  fold p gt g2 in Hn, Hr, Ht.
  split; [done|]. split; [done|]. intros a b.
  rewrite elem_of_rows_of, MATCH_node_ids, elem_of_match_ids, Ht, Hn.
  by rewrite (matches_upsert_node p p sets).
Qed.

(** Every statement that merges does what its shape says. *)
Lemma exec_shape now q u g :
  shape now q = Some u →
  ∃ rows,
    nodes (exec now q g) = nodes_step u (nodes g)
    ∧ rels (exec now q g) = upsert_rels (u_type u) rows (u_rsets u) (rels g)
    ∧ rows_ok u (nodes_step u (nodes g)) rows.
Proof.
  destruct q; intros [= <-]; unfold exec.
  - unfold theme_query.
    match goal with
    | |- context [SET_nodes _ ?sets _] =>
        destruct (merge_set_match_spec Theme "name" (VStr name) sets (VStr sessionId) g)
          as (Hn & Hr & Hrows); [unfold keyed; auto|done|]
    end.
    destruct (MERGE_node Theme "name" (VStr name) g) as [g1 t].
    cbn [fst snd] in *.
    match goal with
    | |- context [SET_rels ?ty ?rows ?sets (MERGE_rels _ _ ?g2)] =>
        destruct (MERGE_SET_rels_spec ty rows sets g2) as [Hn2 Hr2]; exists rows
    end.
    split; [rewrite Hn2; exact Hn|]. split; [rewrite Hr2, Hr; reflexivity|].
    intros a b. rewrite Hrows, Hn. reflexivity.
  - unfold dimension_query.
    destruct (MERGE_node_spec Theme "name" (VStr theme) g) as (Hn1 & Hr1 & Ht).
    destruct (MERGE_node Theme "name" (VStr theme) g) as [g1 t].
    cbn [fst snd] in *.
    destruct (MERGE_node_spec ScoringDimension "name" (VStr dim) g1) as (Hn2 & Hr2 & Hd).
    destruct (MERGE_node ScoringDimension "name" (VStr dim) g1) as [g2 d].
    cbn [fst snd] in *.
    exists (rows_of t d).
    destruct (MERGE_rels_spec RELATES_TO (rows_of t d) g2) as [Hn3 Hr3].
    assert (nodes g2 = nodes_step
              {| u_merges := [(Pat Theme "name" (VStr theme), ∅);
                              (Pat ScoringDimension "name" (VStr dim), ∅)];
                 u_type := RELATES_TO;
                 u_src := Pat Theme "name" (VStr theme);
                 u_dst := Pat ScoringDimension "name" (VStr dim);
                 u_rsets := ∅ |} (nodes g)) as Hstep.
    { unfold nodes_step. cbn [foldl u_merges fst snd].
      by rewrite !upsert_node_empty, Hn2, Hn1. }
    split; [by rewrite Hn3|]. split.
    { cbn [u_type u_rsets]. by rewrite Hr3, upsert_rels_empty, Hr2, Hr1. }
    intros a b. rewrite <- Hstep, elem_of_rows_of, Ht, Hd, Hn2, Hn1.
    cbn [u_src u_dst]. unfold Pat.
    rewrite (matches_merge_node {| pat_label := Theme |}
               {| pat_label := ScoringDimension |}).
    split; [|by intros [[?|(_ & ? & _)] ?]].
    intros [? ?]. split; [by left|done].
  - unfold tool_query.
    match goal with
    | |- context [SET_nodes _ ?sets _] =>
        destruct (merge_set_match_spec Tool "name" (VStr name) sets (VStr sessionId) g)
          as (Hn & Hr & Hrows); [unfold keyed; auto|done|]
    end.
    destruct (MERGE_node Tool "name" (VStr name) g) as [g1 t].
    cbn [fst snd] in *.
    match goal with
    | |- context [SET_rels ?ty ?rows ?sets (MERGE_rels _ _ ?g2)] =>
        destruct (MERGE_SET_rels_spec ty rows sets g2) as [Hn2 Hr2]; exists rows
    end.
    split; [rewrite Hn2; exact Hn|]. split; [rewrite Hr2, Hr; reflexivity|].
    intros a b. rewrite Hrows, Hn. reflexivity.
  - unfold pain_point_query.
    match goal with
    | |- context [SET_nodes _ ?sets _] =>
        destruct (merge_set_match_spec PainPoint "description" (VStr desc) sets
                    (VStr sessionId) g)
          as (Hn & Hr & Hrows); [unfold keyed; auto|done|]
    end.
    destruct (MERGE_node PainPoint "description" (VStr desc) g) as [g1 t].
    cbn [fst snd] in *.
    match goal with
    | |- context [SET_rels ?ty ?rows ?sets (MERGE_rels _ _ ?g2)] =>
        destruct (MERGE_SET_rels_spec ty rows sets g2) as [Hn2 Hr2]; exists rows
    end.
    split; [rewrite Hn2; exact Hn|]. split; [rewrite Hr2, Hr; reflexivity|].
    intros a b. rewrite Hrows, Hn. reflexivity.
  - unfold goal_query.
    match goal with
    | |- context [SET_nodes _ ?sets _] =>
        destruct (merge_set_match_spec Goal "description" (VStr desc) sets
                    (VStr sessionId) g)
          as (Hn & Hr & Hrows); [unfold keyed; auto|done|]
    end.
    destruct (MERGE_node Goal "description" (VStr desc) g) as [g1 t].
    cbn [fst snd] in *.
    match goal with
    | |- context [MERGE_rels ?ty ?rows ?g2] =>
        destruct (MERGE_rels_spec ty rows g2) as [Hn2 Hr2]; exists rows
    end.
    split; [rewrite Hn2; exact Hn|].
    split; [cbn [u_type u_rsets]; by rewrite Hr2, upsert_rels_empty, Hr|].
    intros a b. rewrite Hrows, Hn. reflexivity.
Qed.

(** ** Writes of the pipeline on nodes and relationships *)

Lemma node_get_put m n : nprops (put_node m n) = m.
Proof. reflexivity. Qed.

Lemma node_put_put m m' n : put_node m (put_node m' n) = put_node m n.
Proof. reflexivity. Qed.

Lemma rel_get_put m r : rprops (put_rel m r) = m.
Proof. reflexivity. Qed.

Lemma rel_put_put m m' r : put_rel m (put_rel m' r) = put_rel m r.
Proof. reflexivity. Qed.

Lemma ok_node_stable w w' n :
  ok_node w → ok_node w' →
  w_cond w (assign nprops put_node (w_sets w') n) = w_cond w n.
Proof.
  intros (p & s & -> & Hk & _) (p' & s' & -> & _ & Hs'). simpl.
  apply bool_decide_ext. by apply node_has_set.
Qed.

Lemma ok_rel_stable w w' r :
  ok_rel w → ok_rel w' →
  w_cond w (assign rprops put_rel (w_sets w') r) = w_cond w r.
Proof. intros Hw _. apply Hw. Qed.

Lemma ok_merge_write m : merge_pattern m.1 → safe_sets m.2 → ok_node (merge_write m).
Proof.
  intros Hp Hs. exists m.1, m.2. split; [done|]. split; [|done].
  by apply merge_pattern_keyed.
Qed.

Lemma ok_rel_write ty rows sets : ok_rel (rel_write ty rows sets).
Proof. intros m r. reflexivity. Qed.

Lemma ok_shape_rel_write ns u : ok_rel (shape_rel_write ns u).
Proof. intros m r. reflexivity. Qed.

Lemma matchesb_spec p ns i : matchesb p ns i = true ↔ matches p ns i.
Proof.
  unfold matchesb, matches. destruct (ns !! i) as [n|]; simpl.
  - rewrite bool_decide_eq_true. split; [by exists n|]. by intros (? & [= <-] & ?).
  - split; [done|]. by intros (? & ? & _).
Qed.

Lemma matchesb_ext p ns ns' i :
  (matches p ns i ↔ matches p ns' i) → matchesb p ns i = matchesb p ns' i.
Proof.
  intros H. destruct (matchesb p ns i) eqn:H1, (matchesb p ns' i) eqn:H2; try done.
  - apply matchesb_spec, H, matchesb_spec in H1. congruence.
  - apply matchesb_spec, H, matchesb_spec in H2. congruence.
Qed.

(** The assignment of a statement applies to the relationships along
    its rows. *)
Lemma rel_write_shape u ns rows r :
  rows_ok u ns rows →
  w_cond (rel_write (u_type u) rows (u_rsets u)) r = w_cond (shape_rel_write ns u) r.
Proof.
  intros Hrows. simpl. destruct (decide (rtype r = u_type u)) as [Ht|Ht].
  - rewrite (bool_decide_eq_true_2 (rtype r = u_type u)) by done. simpl.
    destruct (matchesb (u_src u) ns (rsrc r)) eqn:Hs,
             (matchesb (u_dst u) ns (rdst r)) eqn:Hd; simpl.
    + apply bool_decide_eq_true. split; [done|]. apply Hrows.
      by split; apply matchesb_spec.
    + apply bool_decide_eq_false. intros [_ Hin]. apply Hrows in Hin as [_ Hin].
      apply matchesb_spec in Hin. congruence.
    + apply bool_decide_eq_false. intros [_ Hin]. apply Hrows in Hin as [Hin _].
      apply matchesb_spec in Hin. congruence.
    + apply bool_decide_eq_false. intros [_ Hin]. apply Hrows in Hin as [Hin _].
      apply matchesb_spec in Hin. congruence.
  - rewrite (bool_decide_eq_false_2 (rtype r = u_type u)) by done. simpl.
    apply bool_decide_eq_false. by intros [? _].
Qed.

Lemma merges_of_snoc H u : merges_of (H ++ [u]) = merges_of H ++ u_merges u.
Proof. unfold merges_of. rewrite bind_app. simpl. by rewrite app_nil_r. Qed.

Lemma merges_of_wf H :
  Forall wf_upsert H → Forall (λ m, merge_pattern m.1 ∧ safe_sets m.2) (merges_of H).
Proof.
  induction 1 as [|u H (Hm & _) _ IH]; [constructor|].
  unfold merges_of. rewrite bind_cons. by apply Forall_app.
Qed.

Lemma merges_ok ms :
  Forall (λ m, merge_pattern m.1 ∧ safe_sets m.2) ms → Forall ok_node (merge_write <$> ms).
Proof.
  intros H. apply Forall_fmap. eapply Forall_impl; [exact H|].
  intros m [? ?]. by apply ok_merge_write.
Qed.

Lemma shape_writes_ok ns H : Forall ok_rel (shape_rel_write ns <$> H).
Proof. apply Forall_fmap, Forall_forall. intros u _. apply ok_shape_rel_write. Qed.

(** ** One merge on the table of nodes *)

(** After a merge on [p], every pattern merged on so far has a node and
    every node is settled. *)
Lemma upsert_node_inv ms p sets ns :
  Forall (λ m, merge_pattern m.1 ∧ safe_sets m.2) ms →
  merge_pattern p → safe_sets sets →
  (∀ m, m ∈ ms → present m.1 ns) →
  (∀ i n, ns !! i = Some n → apply_all nprops put_node (merge_write <$> ms) n = n) →
  (∀ m, m ∈ ms ++ [(p, sets)] → present m.1 (upsert_node p sets ns))
  ∧ (∀ i n, upsert_node p sets ns !! i = Some n →
       apply_all nprops put_node (merge_write <$> (ms ++ [(p, sets)])) n = n).
Proof.
  intros Hms Hp Hs Hcov Habs. split.
  - intros m Hin. apply elem_of_app in Hin as [Hin|Hin].
    + apply present_upsert_mono; [|done|by apply Hcov].
      rewrite Forall_forall in Hms. apply merge_pattern_keyed, (Hms m Hin).
    + apply list_elem_of_singleton in Hin as ->.
      apply present_upsert_node; [by apply merge_pattern_keyed|done].
  - intros i n Hn. rewrite upsert_node_lookup in Hn.
    apply fmap_Some in Hn as (n0 & Hn0 & ->).
    rewrite fmap_app. simpl.
    apply (absorb_snoc nprops put_node node_get_put node_put_put put_node_get ok_node
             ok_node_stable).
    + by apply (ok_merge_write (p, sets)).
    + by apply merges_ok.
    + destruct (decide (present p ns)) as [Hpres|Hpres].
      * rewrite merge_node_nocreate in Hn0 by done. by eapply Habs.
      * rewrite merge_node_create in Hn0 by done.
        apply lookup_insert_Some in Hn0 as [[_ <-]|[_ Hn0]]; [|by eapply Habs].
        apply apply_all_nomatch. apply Forall_fmap, Forall_forall. intros m Hin.
        simpl. apply bool_decide_eq_false. intros Hhas.
        apply node_has_new in Hhas. apply Hpres. rewrite <- Hhas. by apply Hcov.
Qed.

Lemma nodes_step_inv ms u ns :
  Forall (λ m, merge_pattern m.1 ∧ safe_sets m.2) ms →
  wf_upsert u →
  (∀ m, m ∈ ms → present m.1 ns) →
  (∀ i n, ns !! i = Some n → apply_all nprops put_node (merge_write <$> ms) n = n) →
  (∀ m, m ∈ ms ++ u_merges u → present m.1 (nodes_step u ns))
  ∧ (∀ i n, nodes_step u ns !! i = Some n →
       apply_all nprops put_node (merge_write <$> (ms ++ u_merges u)) n = n).
Proof.
  intros Hms (Hu & _). unfold nodes_step. revert ms ns Hms.
  induction Hu as [|[p sets] us [Hp Hs] _ IH]; intros ms ns Hms Hcov Habs.
  - simpl. by rewrite app_nil_r.
  - simpl. destruct (upsert_node_inv ms p sets ns Hms Hp Hs Hcov Habs) as [Hcov' Habs'].
    replace (ms ++ (p, sets) :: us) with ((ms ++ [(p, sets)]) ++ us)
      by by rewrite <- app_assoc.
    apply IH; [|done..]. apply Forall_app. split; [done|]. by constructor.
Qed.

(** ** One statement on the table of relationships *)

Lemma rel_is_apply ty a b w r :
  rel_is ty a b (apply_write rprops put_rel w r) ↔ rel_is ty a b r.
Proof. unfold apply_write. by destruct (w_cond w r). Qed.

Lemma covered_fmap_apply ty w rs row :
  covered ty (apply_write rprops put_rel w <$> rs) row ↔ covered ty rs row.
Proof.
  unfold covered. split.
  - intros (j & r & Hr & His). rewrite lookup_fmap in Hr.
    apply fmap_Some in Hr as (r0 & Hr0 & ->). exists j, r0.
    split; [done|]. by apply rel_is_apply in His.
  - intros (j & r & Hr & His). exists j, (apply_write rprops put_rel w r).
    split; [by rewrite lookup_fmap, Hr|]. by apply rel_is_apply.
Qed.

Lemma covered_upsert_rels ty0 ty rows sets rs row :
  covered ty0 rs row → covered ty0 (upsert_rels ty rows sets rs) row.
Proof.
  intros Hc. unfold upsert_rels. apply covered_fmap_apply.
  eapply covered_mono; [apply merge_rows_subseteq|done].
Qed.

Lemma upsert_rels_covers ty rows sets rs row :
  row ∈ rows → covered ty (upsert_rels ty rows sets rs) row.
Proof.
  intros Hin. unfold upsert_rels. apply covered_fmap_apply.
  by apply merge_rows_covers.
Qed.

Lemma upsert_rels_lookup ty rows sets rs j r :
  upsert_rels ty rows sets rs !! j = Some r →
  ∃ r0, r = apply_write rprops put_rel (rel_write ty rows sets) r0
        ∧ (rs !! j = Some r0
           ∨ (rs !! j = None
              ∧ ∃ row, row ∈ rows ∧ r0 = new_rel ty row ∧ ¬ covered ty rs row)).
Proof.
  unfold upsert_rels. rewrite lookup_fmap. intros Hr.
  apply fmap_Some in Hr as (r0 & Hr0 & ->). exists r0. split; [done|].
  by apply merge_rows_lookup.
Qed.

Lemma upsert_rels_covered_id ty rows sets rs :
  (∀ row, row ∈ rows → covered ty rs row) →
  upsert_rels ty rows sets rs =
  apply_write rprops put_rel (rel_write ty rows sets) <$> rs.
Proof. intros Hc. unfold upsert_rels. by rewrite merge_rows_covered_id. Qed.

(** ** One statement on the graph *)

(** The patterns of a statement whose merges all have a node are
    matched by the same nodes after any other statement. *)
Lemma src_stable u0 u ns a :
  wf_upsert u0 → wf_upsert u →
  (∀ m, m ∈ u_merges u0 → present m.1 ns) →
  matches (u_src u0) (nodes_step u ns) a ↔ matches (u_src u0) ns a.
Proof.
  intros Hu0 Hu Hcov. apply matches_nodes_step; [done|by apply wf_src_keyed|].
  destruct Hu0 as (_ & _ & [Hin|[Hl _]] & _); [|by right].
  left. apply list_elem_of_fmap in Hin as (m & -> & Hin). by apply Hcov.
Qed.

Lemma dst_stable u0 u ns b :
  wf_upsert u0 → wf_upsert u →
  (∀ m, m ∈ u_merges u0 → present m.1 ns) →
  matches (u_dst u0) (nodes_step u ns) b ↔ matches (u_dst u0) ns b.
Proof.
  intros Hu0 Hu Hcov.
  apply matches_nodes_step; [done|by apply merge_pattern_keyed, wf_dst_merge|].
  destruct Hu0 as (_ & Hin & _).
  left. apply list_elem_of_fmap in Hin as (m & -> & Hin). by apply Hcov.
Qed.

Lemma merges_of_elem H u m : u ∈ H → m ∈ u_merges u → m ∈ merges_of H.
Proof. intros Hu Hm. unfold merges_of. apply list_elem_of_bind. by exists u. Qed.

(** The assignments made so far apply to the same relationships,
    whether read against the nodes before or after a statement. *)
Lemma shape_rel_write_stable H u ns r :
  Forall wf_upsert H → wf_upsert u →
  (∀ m, m ∈ merges_of H → present m.1 ns) →
  apply_all rprops put_rel (shape_rel_write (nodes_step u ns) <$> H) r =
  apply_all rprops put_rel (shape_rel_write ns <$> H) r.
Proof.
  intros HH Hu Hcov. apply apply_all_ext. apply Forall2_fmap, Forall2_same_length_lookup.
  split; [done|]. intros i u0 u0' Hl Hl'. assert (u0' = u0) as -> by congruence.
  assert (u0 ∈ H) as Hin by by eapply list_elem_of_lookup_2.
  rewrite Forall_forall in HH. split; [|done]. intros b. simpl.
  rewrite (matchesb_ext (u_src u0) (nodes_step u ns) ns),
          (matchesb_ext (u_dst u0) (nodes_step u ns) ns); [done| |].
  - apply dst_stable; [by apply HH|done|]. intros m Hm. apply Hcov.
    by eapply merges_of_elem.
  - apply src_stable; [by apply HH|done|]. intros m Hm. apply Hcov.
    by eapply merges_of_elem.
Qed.

(** What a run has established still holds after one more statement
    that merges. *)
Lemma run_inv_step H u g g' rows :
  run_inv H g → wf_upsert u →
  nodes g' = nodes_step u (nodes g) →
  rels g' = upsert_rels (u_type u) rows (u_rsets u) (rels g) →
  rows_ok u (nodes g') rows →
  run_inv (H ++ [u]) g'.
Proof.
  intros (HH & [Hncov Hrcov] & [Hnabs Hrabs]) Hu Hn Hr Hrows.
  destruct (nodes_step_inv (merges_of H) u (nodes g)
              (merges_of_wf H HH) Hu Hncov Hnabs) as [Hncov' Hnabs'].
  rewrite <- merges_of_snoc, <- Hn in Hncov', Hnabs'.
  assert (Forall wf_upsert (H ++ [u])) as HH'
    by (apply Forall_app; split; [done|by constructor]).
  split; [done|]. split; [split; [done|]|split; [done|]].
  - intros u0 a b Hin Ha Hb. rewrite Hr.
    apply elem_of_app in Hin as [Hin|Hin].
    + apply covered_upsert_rels. apply Hrcov; [done| |].
      * rewrite Hn in Ha. eapply src_stable; [| | |exact Ha]; [|done|].
        -- rewrite Forall_forall in HH. by apply HH.
        -- intros m Hm. apply Hncov. by eapply merges_of_elem.
      * rewrite Hn in Hb. eapply dst_stable; [| | |exact Hb]; [|done|].
        -- rewrite Forall_forall in HH. by apply HH.
        -- intros m Hm. apply Hncov. by eapply merges_of_elem.
    + apply list_elem_of_singleton in Hin as ->.
      apply upsert_rels_covers. by apply Hrows.
  - intros j r Hj. rewrite Hr in Hj.
    apply upsert_rels_lookup in Hj as (r0 & -> & Hr0).
    rewrite fmap_app. simpl.
    assert (apply_write rprops put_rel (rel_write (u_type u) rows (u_rsets u)) r0 =
            apply_write rprops put_rel (shape_rel_write (nodes g') u) r0) as ->.
    { unfold apply_write. by rewrite (rel_write_shape u (nodes g') rows). }
    apply (absorb_snoc rprops put_rel rel_get_put rel_put_put put_rel_get ok_rel
             ok_rel_stable).
    + apply ok_shape_rel_write.
    + apply shape_writes_ok.
    + rewrite Hn, shape_rel_write_stable by done.
      destruct Hr0 as [Hr0|(_ & row & Hin & -> & Hno)]; [by eapply Hrabs|].
      apply apply_all_nomatch. apply Forall_fmap, Forall_forall. intros u0 Hu0.
      simpl. apply not_true_is_false. intros Hc.
      apply andb_prop in Hc as [Hc Hd]. apply andb_prop in Hc as [Ht Hs].
      apply bool_decide_eq_true in Ht. apply matchesb_spec in Hs, Hd.
      apply Hno. rewrite Ht. destruct row as [a b]. by apply Hrcov.
Qed.

(** ** The statement that creates quotes *)

Lemma quote_ext_refl g : quote_ext g g.
Proof. unfold quote_ext. repeat split; auto. Qed.

Lemma quote_ext_trans g1 g2 g3 : quote_ext g1 g2 → quote_ext g2 g3 → quote_ext g1 g3.
Proof.
  intros (Hn1 & Hr1 & Hq1 & Ht1) (Hn2 & Hr2 & Hq2 & Ht2). repeat split.
  - by etrans.
  - by etrans.
  - intros i n Hn. apply Hq2 in Hn as [Hn|?]; [by apply Hq1|by right].
  - intros j r Hr. apply Ht2 in Hr as [Hr|?]; [by apply Ht1|by right].
Qed.

Lemma count_label_insert l props g i :
  nodes g !! i = None →
  count_label l {| nodes := <[i := {| nlabel := l; nprops := props |}]> (nodes g);
                   rels := rels g |} = S (count_label l g).
Proof.
  intros Hi. unfold count_label. simpl.
  rewrite map_filter_insert_True by done.
  rewrite map_size_insert_None; [done|].
  by rewrite map_lookup_filter, Hi.
Qed.

Lemma count_rels_insert ty g j s t props :
  rels g !! j = None →
  count_rels ty {| nodes := nodes g;
                   rels := <[j := {| rtype := ty; rsrc := s; rdst := t;
                                     rprops := props |}]> (rels g) |}
  = S (count_rels ty g).
Proof.
  intros Hj. unfold count_rels. simpl.
  rewrite map_filter_insert_True by done.
  rewrite map_size_insert_None; [done|].
  by rewrite map_lookup_filter, Hj.
Qed.

Lemma create_quote_spec props g s :
  quote_ext g (create_quote props g s)
  ∧ count_label Quote (create_quote props g s) = S (count_label Quote g)
  ∧ count_rels QUOTED (create_quote props g s) = S (count_rels QUOTED g).
Proof.
  unfold create_quote, CREATE_node, CREATE_rel. simpl.
  split; [|split].
  - repeat split; simpl.
    + apply insert_subseteq, fresh_lookup.
    + apply insert_subseteq, fresh_lookup.
    + intros i n Hn. apply lookup_insert_Some in Hn as [[_ <-]|[_ Hn]]; [by right|by left].
    + intros j r Hr. apply lookup_insert_Some in Hr as [[_ <-]|[_ Hr]]; [by right|by left].
  - rewrite <- (count_label_insert Quote props g (fresh (dom (nodes g))))
      by apply fresh_lookup. done.
  - rewrite <- (count_rels_insert QUOTED g (fresh (dom (rels g)))
                  s (fresh (dom (nodes g))) ∅) by apply fresh_lookup. done.
Qed.

Lemma create_quotes_spec props ss g :
  quote_ext g (foldl (create_quote props) g ss)
  ∧ count_label Quote (foldl (create_quote props) g ss)
    = count_label Quote g + length ss
  ∧ count_rels QUOTED (foldl (create_quote props) g ss)
    = count_rels QUOTED g + length ss.
Proof.
  revert g. induction ss as [|s ss IH]; intros g; simpl.
  - split; [apply quote_ext_refl|]. by rewrite !Nat.add_0_r.
  - destruct (create_quote_spec props g s) as (He & Hc & Hr).
    destruct (IH (create_quote props g s)) as (He' & Hc' & Hr').
    split; [by eapply quote_ext_trans|]. rewrite Hc', Hr', Hc, Hr. lia.
Qed.

Lemma quote_query_fold now sessionId text context sentiment testimonial g :
  quote_query now sessionId text context sentiment testimonial g =
  foldl (create_quote (quote_props now text context sentiment testimonial)) g
        (match_ids (Pat Session "id" (VStr sessionId)) (nodes g)).
Proof. reflexivity. Qed.

(** A pattern that is not a Quote pattern is matched by the same nodes
    once quotes are added. *)
Lemma matches_quote_ext q g g' i :
  quote_ext g g' → pat_label q ≠ Quote →
  matches q (nodes g') i ↔ matches q (nodes g) i.
Proof.
  intros (Hn & _ & Hq & _) Hl. split.
  - intros (n & Hi & Hhas). apply Hq in Hi as [Hi|Hi]; [by exists n|].
    destruct Hhas as [Hlab _]. congruence.
  - by apply matches_mono.
Qed.

Lemma covered_quote_ext ty g g' row :
  quote_ext g g' → covered ty (rels g) row → covered ty (rels g') row.
Proof. intros (_ & Hr & _). by apply covered_mono. Qed.

Lemma wf_merge_not_quote u m : wf_upsert u → m ∈ u_merges u → pat_label m.1 ≠ Quote.
Proof.
  intros (Hm & _) Hin. rewrite Forall_forall in Hm. by apply (Hm m Hin).
Qed.

(** What a run has established still holds once quotes are added. *)
Lemma run_inv_quote_ext H g g' :
  run_inv H g → quote_ext g g' → run_inv H g'.
Proof.
  intros (HH & [Hncov Hrcov] & [Hnabs Hrabs]) Hext.
  pose proof Hext as (Hn & Hr & Hq & Ht).
  rewrite Forall_forall in HH.
  assert (∀ u, u ∈ H → ∀ i,
            (matches (u_src u) (nodes g') i ↔ matches (u_src u) (nodes g) i)
            ∧ (matches (u_dst u) (nodes g') i ↔ matches (u_dst u) (nodes g) i)) as Hst.
  { intros u Hu i. split; apply (matches_quote_ext _ g g'); try done.
    - by apply wf_src_not_quote, HH.
    - by apply (wf_dst_merge u (HH u Hu)). }
  split; [by apply Forall_forall|]. split; split.
  - intros m Hm. destruct (Hncov m Hm) as [i Hi]. exists i.
    by eapply matches_mono.
  - intros u a b Hu Ha Hb. eapply covered_quote_ext; [done|].
    apply Hrcov; [done|by apply Hst|by apply Hst].
  - intros i n Hi. apply Hq in Hi as [Hi|Hi]; [by eapply Hnabs|].
    apply apply_all_nomatch. apply Forall_fmap, Forall_forall. intros m Hm. simpl.
    apply bool_decide_eq_false. intros [Hlab _].
    unfold merges_of in Hm. apply list_elem_of_bind in Hm as (u & Hm & Hu).
    eapply wf_merge_not_quote; [by apply HH| |]; [done|congruence].
  - intros j r Hj.
    assert (apply_all rprops put_rel (shape_rel_write (nodes g') <$> H) r =
            apply_all rprops put_rel (shape_rel_write (nodes g) <$> H) r) as ->.
    { apply apply_all_ext, Forall2_fmap, Forall2_same_length_lookup.
      split; [done|]. intros i u u' Hl Hl'. assert (u' = u) as -> by congruence.
      assert (u ∈ H) as Hu by by eapply list_elem_of_lookup_2.
      split; [|done]. intros b. simpl.
      rewrite (matchesb_ext (u_src u) (nodes g') (nodes g)),
              (matchesb_ext (u_dst u) (nodes g') (nodes g)); [done| |];
        by apply Hst. }
    apply Ht in Hj as [Hj|Hj]; [by eapply Hrabs|].
    apply apply_all_nomatch. apply Forall_fmap, Forall_forall. intros u Hu. simpl.
    rewrite bool_decide_eq_false_2; [done|].
    destruct (HH u Hu) as (_ & _ & _ & Hty). congruence.
Qed.

(** ** Runs of statements *)

Lemma run_queries_app env n qs1 qs2 g :
  run_queries env n (qs1 ++ qs2) g =
  run_queries env (n + length qs1) qs2 (run_queries env n qs1 g).
Proof.
  revert n g. induction qs1 as [|q qs1 IH]; intros n g; simpl.
  - by rewrite Nat.add_0_r.
  - rewrite IH. f_equal. lia.
Qed.

Lemma shapes_app env n qs1 qs2 :
  shapes env n (qs1 ++ qs2) = shapes env n qs1 ++ shapes env (n + length qs1) qs2.
Proof.
  revert n. induction qs1 as [|q qs1 IH]; intros n; simpl.
  - by rewrite Nat.add_0_r.
  - rewrite IH, <- app_assoc. do 3 f_equal. lia.
Qed.

Lemma shape_merging now q : merging q → ∃ u, shape now q = Some u.
Proof. destruct q; intros [u Hu]; try discriminate; by eexists. Qed.

Lemma shapes_cons env n q qs u :
  shape (neo4j_clock env n) q = Some u →
  shapes env n (q :: qs) = u :: shapes env (S n) qs.
Proof. intros Hu. simpl. by rewrite Hu. Qed.

Lemma shapes_wf env n qs : Forall wf_upsert (shapes env n qs).
Proof.
  revert n. induction qs as [|q qs IH]; intros n; simpl; [constructor|].
  apply Forall_app. split; [|apply IH].
  destruct (shape (neo4j_clock env n) q) as [u|] eqn:Hu; simpl; [|constructor].
  apply Forall_singleton. by eapply shape_wf.
Qed.

Lemma run_inv_nil g : run_inv [] g.
Proof.
  split; [constructor|]. split; split.
  - intros m Hm. by apply elem_of_nil in Hm.
  - intros u a b Hu. by apply elem_of_nil in Hu.
  - done.
  - done.
Qed.

(** A run of merging statements establishes what its shapes say. *)
Lemma run_inv_merging env H qs n g :
  run_inv H g → Forall merging qs →
  run_inv (H ++ shapes env n qs) (run_queries env n qs g).
Proof.
  revert H n g. induction qs as [|q qs IH]; intros H n g Hinv Hqs.
  - simpl. by rewrite app_nil_r.
  - apply Forall_cons in Hqs as [Hq Hqs].
    destruct (shape_merging (neo4j_clock env n) q Hq) as [u Hu].
    rewrite (shapes_cons _ _ _ _ _ Hu). simpl.
    rewrite (cons_middle u), app_assoc. apply IH; [|done].
    destruct (exec_shape _ _ _ g Hu) as (rows & Hn & Hr & Hrows).
    eapply run_inv_step; [done|by eapply shape_wf|done|done|].
    by rewrite Hn.
Qed.

Lemma exec_quote_of now sid q g :
  quote_of sid q →
  ∃ props, exec now q g =
    foldl (create_quote props) g (match_ids (Pat Session "id" (VStr sid)) (nodes g)).
Proof.
  destruct q; try done. simpl. intros ->. eexists. apply quote_query_fold.
Qed.

(** Patterns with the same matches have as many of them. *)
Lemma count_matches_ext p g g' :
  (∀ i, matches p (nodes g) i ↔ matches p (nodes g') i) →
  count_matches p g = count_matches p g'.
Proof.
  intros Hm. unfold count_matches. apply Permutation_length, NoDup_Permutation.
  - apply NoDup_fst_map_to_list.
  - apply NoDup_fst_map_to_list.
  - intros i. by rewrite !elem_of_match_ids.
Qed.

(** A run of statements that create quotes for one session. *)
Lemma run_quotes env sid qs n g :
  Forall (quote_of sid) qs →
  quote_ext g (run_queries env n qs g)
  ∧ count_label Quote (run_queries env n qs g)
    = count_label Quote g + count_matches (Pat Session "id" (VStr sid)) g * length qs
  ∧ count_rels QUOTED (run_queries env n qs g)
    = count_rels QUOTED g + count_matches (Pat Session "id" (VStr sid)) g * length qs.
Proof.
  revert n g. induction qs as [|q qs IH]; intros n g Hqs.
  - simpl. split; [apply quote_ext_refl|]. lia.
  - apply Forall_cons in Hqs as [Hq Hqs]. simpl.
    destruct (exec_quote_of (neo4j_clock env n) sid q g Hq) as [props ->].
    destruct (create_quotes_spec props
                (match_ids (Pat Session "id" (VStr sid)) (nodes g)) g)
      as (Hext & Hc & Hr).
    set (g1 := foldl (create_quote props) g
                 (match_ids (Pat Session "id" (VStr sid)) (nodes g))) in *.
    destruct (IH (S n) g1 Hqs) as (Hext' & Hc' & Hr').
    split; [by eapply quote_ext_trans|].
    rewrite Hc', Hr', Hc, Hr.
    rewrite <- (count_matches_ext (Pat Session "id" (VStr sid)) g g1).
    + unfold count_matches. lia.
    + intros i. symmetry. by apply matches_quote_ext.
Qed.

Lemma quote_queries_of e : Forall (quote_of (session_id e)) (quote_queries e).
Proof. unfold quote_queries. apply Forall_fmap, Forall_forall. by intros q _. Qed.

Lemma merge_queries_merging e : Forall merging (merge_queries e).
Proof.
  unfold merge_queries. rewrite !Forall_app. repeat split.
  - apply Forall_bind, Forall_forall. intros t _. unfold theme_queries.
    apply Forall_cons. split; [by eexists|].
    apply Forall_fmap, Forall_forall. intros d _. by eexists.
  - apply Forall_fmap, Forall_forall. intros t _. by eexists.
  - apply Forall_fmap, Forall_forall. intros t _. by eexists.
  - apply Forall_fmap, Forall_forall. intros t _. by eexists.
Qed.

Lemma sync_queries_split e : sync_queries e = merge_queries e ++ quote_queries e.
Proof. unfold sync_queries, merge_queries, quote_queries. by rewrite <- !app_assoc. Qed.

(** ** Running the same statements again *)

Lemma node_has_apply_all q ms n :
  keyed q → Forall (λ m : pattern * gmap string Value, safe_sets m.2) ms →
  node_has q (apply_all nprops put_node (merge_write <$> ms) n) ↔ node_has q n.
Proof.
  intros Hq Hms. revert n. induction Hms as [|m ms Hm _ IH]; intros n; [done|].
  simpl. rewrite IH. by apply node_has_apply.
Qed.

Lemma matches_fmap_writes q ms ns i :
  keyed q → Forall (λ m : pattern * gmap string Value, safe_sets m.2) ms →
  matches q (apply_all nprops put_node (merge_write <$> ms) <$> ns) i ↔ matches q ns i.
Proof.
  intros Hq Hms. unfold matches. rewrite lookup_fmap. split.
  - intros (n & Hn & Hhas). destruct (ns !! i) as [n0|]; [|done].
    injection Hn as <-. exists n0. split; [done|]. by eapply node_has_apply_all.
  - intros (n & -> & Hhas). eexists. split; [done|]. by apply node_has_apply_all.
Qed.

(** Merges on patterns that all have a node create nothing. *)
Lemma merges_nocreate ms ns :
  Forall (λ m, merge_pattern m.1 ∧ safe_sets m.2) ms →
  (∀ m, m ∈ ms → present m.1 ns) →
  foldl (λ ns m, upsert_node m.1 m.2 ns) ns ms =
  apply_all nprops put_node (merge_write <$> ms) <$> ns.
Proof.
  intros Hms. revert ns. induction Hms as [|m ms [Hm Hs] Hms IH]; intros ns Hp.
  - simpl. by rewrite map_fmap_id.
  - simpl. rewrite upsert_node_nocreate by (apply Hp; left).
    rewrite IH.
    + by rewrite <- map_fmap_compose.
    + intros m' Hm'. rewrite <- upsert_node_nocreate by (apply Hp; left).
      rewrite Forall_forall in Hms. apply present_upsert_mono; [|done|].
      * apply merge_pattern_keyed. by apply (Hms m').
      * apply Hp. by right.
Qed.

Lemma nodes_step_nocreate u ns :
  wf_upsert u → (∀ m, m ∈ u_merges u → present m.1 ns) →
  nodes_step u ns = apply_all nprops put_node (merge_write <$> u_merges u) <$> ns.
Proof. intros (Hm & _). by apply merges_nocreate. Qed.

Lemma wf_safe u :
  wf_upsert u → Forall (λ m : pattern * gmap string Value, safe_sets m.2) (u_merges u).
Proof. intros (Hm & _). eapply Forall_impl; [done|]. by intros m [_ ?]. Qed.

Lemma twin_presents H g u0 u :
  covers H g → u0 ∈ H → twin u0 u → ∀ m, m ∈ u_merges u → present m.1 (nodes g).
Proof.
  intros [Hcov _] Hu0 (Hms & _) m Hm.
  apply list_elem_of_lookup_1 in Hm as [k Hk].
  destruct (Forall2_lookup_r _ _ _ _ _ Hms Hk) as (m0 & Hk0 & Heq & _).
  rewrite <- Heq. apply Hcov. eapply merges_of_elem; [done|].
  by eapply list_elem_of_lookup_2.
Qed.

(** A statement that ran before, sent again: nothing is created. *)
Lemma rerun_step H u0 u g g' rows :
  Forall wf_upsert H → covers H g → u0 ∈ H → twin u0 u → wf_upsert u →
  nodes g' = nodes_step u (nodes g) →
  rels g' = upsert_rels (u_type u) rows (u_rsets u) (rels g) →
  rows_ok u (nodes g') rows →
  nodes g' = apply_all nprops put_node (merge_write <$> u_merges u) <$> nodes g
  ∧ rels g' = apply_write rprops put_rel (shape_rel_write (nodes g) u) <$> rels g
  ∧ covers H g'
  ∧ (∀ q i, keyed q → matches q (nodes g') i ↔ matches q (nodes g) i).
Proof.
  intros HH Hcov Hu0 Htw Hu Hn Hr Hrows.
  assert (nodes g' = apply_all nprops put_node (merge_write <$> u_merges u) <$> nodes g)
    as Hn'.
  { rewrite Hn. apply nodes_step_nocreate; [done|]. by eapply twin_presents. }
  assert (∀ q i, keyed q → matches q (nodes g') i ↔ matches q (nodes g) i) as Hst.
  { intros q i Hq. rewrite Hn'. apply matches_fmap_writes; [done|]. by apply wf_safe. }
  assert (keyed (u_src u)) as Hks by by apply wf_src_keyed.
  assert (keyed (u_dst u)) as Hkd by by apply merge_pattern_keyed, wf_dst_merge.
  assert (rels g' = apply_write rprops put_rel (shape_rel_write (nodes g) u) <$> rels g)
    as Hr'.
  { rewrite Hr, upsert_rels_covered_id.
    - apply map_fmap_ext. intros j r _. unfold apply_write.
      rewrite (rel_write_shape u (nodes g') rows r Hrows). simpl.
      rewrite (matchesb_ext (u_src u) (nodes g') (nodes g)) by by apply Hst.
      by rewrite (matchesb_ext (u_dst u) (nodes g') (nodes g)) by by apply Hst.
    - intros [a b] Hab. apply Hrows in Hab as [Ha Hb].
      destruct Htw as (_ & Hty & Hsrc & Hdst & _).
      rewrite <- Hty. apply Hcov; [done| |].
      + rewrite Hsrc. by apply Hst.
      + rewrite Hdst. by apply Hst. }
  split; [done|]. split; [done|]. split; [|done].
  rewrite Forall_forall in HH. destruct Hcov as [Hnc Hrc]. split.
  - intros m Hm. destruct (Hnc m Hm) as [i Hi]. exists i. apply Hst; [|done].
    unfold merges_of in Hm. apply list_elem_of_bind in Hm as (u1 & Hm & Hu1).
    destruct (HH u1 Hu1) as (Hms & _). rewrite Forall_forall in Hms.
    by apply merge_pattern_keyed, (Hms m Hm).
  - intros u1 a b Hu1 Ha Hb. rewrite Hr'. apply covered_fmap_apply.
    apply Hrc; [done| |].
    + apply Hst; [|done]. by apply wf_src_keyed, HH.
    + apply Hst; [|done]. by apply merge_pattern_keyed, wf_dst_merge, HH.
Qed.

Lemma shape_rel_write_ext H ns ns' r :
  Forall wf_upsert H →
  (∀ q i, keyed q → matches q ns' i ↔ matches q ns i) →
  apply_all rprops put_rel (shape_rel_write ns' <$> H) r =
  apply_all rprops put_rel (shape_rel_write ns <$> H) r.
Proof.
  intros HH Hst. apply apply_all_ext, Forall2_fmap, Forall2_same_length_lookup.
  split; [done|]. intros i u u' Hl Hl'. assert (u' = u) as -> by congruence.
  assert (wf_upsert u) as Hu.
  { rewrite Forall_forall in HH. apply HH. by eapply list_elem_of_lookup_2. }
  split; [|done]. intros b. simpl.
  rewrite (matchesb_ext (u_src u) ns' ns), (matchesb_ext (u_dst u) ns' ns); [done| |].
  - apply Hst. by apply merge_pattern_keyed, wf_dst_merge.
  - apply Hst. by apply wf_src_keyed.
Qed.

(** A run that ran before, sent again: every node and relationship is
    assigned its properties again, and nothing is created. *)
Lemma rerun env H qs m g :
  Forall wf_upsert H → covers H g → Forall merging qs →
  Forall (λ u, ∃ u0, u0 ∈ H ∧ twin u0 u) (shapes env m qs) →
  nodes (run_queries env m qs g) =
    apply_all nprops put_node (merge_write <$> merges_of (shapes env m qs)) <$> nodes g
  ∧ rels (run_queries env m qs g) =
    apply_all rprops put_rel (shape_rel_write (nodes g) <$> shapes env m qs) <$> rels g.
Proof.
  intros HH. revert m g. induction qs as [|q qs IH]; intros m g Hcov Hqs Htw.
  - simpl. by rewrite !map_fmap_id.
  - apply Forall_cons in Hqs as [Hq Hqs].
    destruct (shape_merging (neo4j_clock env m) q Hq) as [u Hu].
    rewrite (shapes_cons _ _ _ _ _ Hu) in *.
    apply Forall_cons in Htw as [(u0 & Hu0 & Htwin) Htw].
    destruct (exec_shape _ _ _ g Hu) as (rows & Hn & Hr & Hrows).
    rewrite <- Hn in Hrows.
    destruct (rerun_step H u0 u g _ rows HH Hcov Hu0 Htwin (shape_wf _ _ _ Hu)
                Hn Hr Hrows) as (Hn' & Hr' & Hcov' & Hst).
    simpl run_queries.
    destruct (IH (S m) _ Hcov' Hqs Htw) as [IHn IHr].
    rewrite IHn, IHr, Hn', Hr'. split.
    + rewrite <- map_fmap_compose. apply map_fmap_ext. intros i n _.
      unfold merges_of. simpl. by rewrite fmap_app, apply_all_app.
    + rewrite <- map_fmap_compose. apply map_fmap_ext. intros j r _.
      simpl. rewrite <- Hn'.
      apply shape_rel_write_ext; [apply shapes_wf|done].
Qed.

(** ** The same statement at two times of the clock *)

Lemma shape_twin now now' q u :
  shape now q = Some u → ∃ u', shape now' q = Some u' ∧ twin u u'.
Proof.
  destruct q; intros [= <-]; eexists; (split; [reflexivity|]);
    unfold twin, twin_merge; simpl; (split; [|done]);
    repeat constructor; simpl;
    rewrite ?delete_insert_ne by done; by rewrite ?delete_singleton_eq.
Qed.

Lemma shape_None now now' q : shape now q = None → shape now' q = None.
Proof. by destruct q. Qed.

Lemma shapes_twin env n m qs : Forall2 twin (shapes env n qs) (shapes env m qs).
Proof.
  revert n m. induction qs as [|q qs IH]; intros n m; simpl; [constructor|].
  apply Forall2_app; [|apply IH].
  destruct (shape (neo4j_clock env n) q) as [u|] eqn:Hu.
  - destruct (shape_twin _ (neo4j_clock env m) _ _ Hu) as (u' & -> & Htw).
    simpl. constructor; [done|constructor].
  - rewrite (shape_None _ (neo4j_clock env m) _ Hu). constructor.
Qed.

Lemma merges_of_twin H H' :
  Forall2 twin H H' → Forall2 twin_merge (merges_of H) (merges_of H').
Proof.
  intros HH. apply Forall2_bind. eapply Forall2_impl; [done|].
  by intros u u' (Hm & _).
Qed.

Lemma keyed_not_time p : keyed p → pat_key p ≠ "updatedAt".
Proof. intros [H|[H|H]]; rewrite H; done. Qed.

Lemma node_has_untimed p n : keyed p → node_has p (untimed n) ↔ node_has p n.
Proof.
  intros Hp. unfold node_has, node_is, untimed. simpl.
  rewrite lookup_delete_ne; [done|]. intros Heq. by apply (keyed_not_time p).
Qed.

Lemma untimed_assign s1 s2 n1 n2 :
  delete "updatedAt" s1 = delete "updatedAt" s2 → untimed n1 = untimed n2 →
  untimed (assign nprops put_node s1 n1) = untimed (assign nprops put_node s2 n2).
Proof.
  unfold untimed, assign, put_node. simpl. intros Hs [= Hl Hp].
  by rewrite !delete_union, Hs, Hp, Hl.
Qed.

(** The time of the update apart, twin merges assign the same. *)
Lemma untimed_apply_all W1 W2 n1 n2 :
  Forall2 twin_merge W1 W2 → Forall (λ m, keyed m.1) W1 →
  untimed n1 = untimed n2 →
  untimed (apply_all nprops put_node (merge_write <$> W1) n1)
  = untimed (apply_all nprops put_node (merge_write <$> W2) n2).
Proof.
  intros HW. revert n1 n2.
  induction HW as [|m m' W1 W2 [Hp Hs] _ IH]; intros n1 n2 Hk Hn; [done|].
  apply Forall_cons in Hk as [Hm Hk]. simpl. apply IH; [done|].
  unfold apply_write, merge_write, node_write. simpl. rewrite <- Hp.
  rewrite (bool_decide_ext (node_has m.1 n1) (node_has m.1 n2)).
  - case_bool_decide; [by apply untimed_assign|done].
  - by rewrite <- (node_has_untimed m.1 n1), <- (node_has_untimed m.1 n2), Hn.
Qed.

(** ** Counting *)

Lemma length_match_ids_ext p ns ns' :
  (∀ i, matches p ns i ↔ matches p ns' i) →
  length (match_ids p ns) = length (match_ids p ns').
Proof.
  intros Hm. apply Permutation_length, NoDup_Permutation.
  - apply NoDup_fst_map_to_list.
  - apply NoDup_fst_map_to_list.
  - intros i. by rewrite !elem_of_match_ids.
Qed.

Lemma length_match_ids_pos p ns : present p ns → 0 < length (match_ids p ns).
Proof.
  intros [i Hi]. apply elem_of_match_ids in Hi.
  destruct (match_ids p ns); [by apply elem_of_nil in Hi|simpl; lia].
Qed.

(** A merge leaves one node of its pattern when there was none, and as
    many nodes of every pattern as there were otherwise. *)
Lemma count_upsert_node q p sets ns :
  keyed q → safe_sets sets →
  length (match_ids q (upsert_node p sets ns)) =
  if decide (q = p) then Nat.max 1 (length (match_ids q ns))
  else length (match_ids q ns).
Proof.
  intros Hq Hs. destruct (decide (q = p)) as [->|Hne].
  - destruct (decide (present p ns)) as [Hp|Hp].
    + pose proof (length_match_ids_pos p ns Hp).
      rewrite (length_match_ids_ext p _ ns); [lia|].
      intros i. apply matches_upsert_stable; auto.
    + assert (match_ids p ns = []) as -> by by apply match_ids_nil.
      simpl. change 1 with (length [fresh (dom ns)]).
      apply Permutation_length, NoDup_Permutation.
      * apply NoDup_fst_map_to_list.
      * apply NoDup_singleton.
      * intros i. rewrite elem_of_match_ids, matches_upsert_node by done.
        rewrite matches_merge_node, list_elem_of_singleton. split.
        -- intros [Hi|(_ & _ & ->)]; [|done]. destruct Hp. by exists i.
        -- intros ->. by right.
  - apply length_match_ids_ext. intros i. apply matches_upsert_stable; auto.
Qed.

Lemma count_merges q ms ns :
  keyed q → Forall (λ m : pattern * gmap string Value, safe_sets m.2) ms →
  length (match_ids q (foldl (λ ns m, upsert_node m.1 m.2 ns) ns ms)) =
  if bool_decide (q ∈ ms.*1) then Nat.max 1 (length (match_ids q ns))
  else length (match_ids q ns).
Proof.
  intros Hq Hms. revert ns. induction Hms as [|m ms Hm _ IH]; intros ns.
  - done.
  - cbn [foldl]. rewrite IH, count_upsert_node by done. rewrite fmap_cons.
    destruct (decide (q = m.1)) as [Heq|Hne].
    + rewrite (bool_decide_eq_true_2 (q ∈ m.1 :: ms.*1)) by (rewrite Heq; left).
      case_bool_decide; lia.
    + rewrite (bool_decide_ext (q ∈ m.1 :: ms.*1) (q ∈ ms.*1)); [done|].
      rewrite elem_of_cons. tauto.
Qed.

Lemma count_run env q qs n g :
  keyed q → Forall merging qs →
  count_matches q (run_queries env n qs g) =
  if bool_decide (q ∈ (merges_of (shapes env n qs)).*1)
  then Nat.max 1 (count_matches q g) else count_matches q g.
Proof.
  intros Hq. revert n g. induction qs as [|q0 qs IH]; intros n g Hqs.
  - done.
  - apply Forall_cons in Hqs as [Hq0 Hqs].
    destruct (shape_merging (neo4j_clock env n) q0 Hq0) as [u Hu].
    rewrite (shapes_cons _ _ _ _ _ Hu). simpl run_queries. rewrite IH by done.
    destruct (exec_shape _ _ _ g Hu) as (rows & Hn & _).
    assert (count_matches q (exec (neo4j_clock env n) q0 g) =
            if bool_decide (q ∈ (u_merges u).*1)
            then Nat.max 1 (count_matches q g) else count_matches q g) as ->.
    { unfold count_matches. rewrite Hn. unfold nodes_step.
      apply count_merges; [done|by eapply wf_safe, shape_wf]. }
    unfold merges_of. simpl. rewrite fmap_app.
    fold (merges_of (shapes env (S n) qs)).
    destruct (bool_decide (q ∈ (u_merges u).*1)) eqn:H1;
      destruct (bool_decide (q ∈ (merges_of (shapes env (S n) qs)).*1)) eqn:H2.
    + rewrite bool_decide_eq_true_2; [lia|].
      apply elem_of_app. left. by apply bool_decide_eq_true in H1.
    + rewrite bool_decide_eq_true_2; [lia|].
      apply elem_of_app. left. by apply bool_decide_eq_true in H1.
    + rewrite bool_decide_eq_true_2; [lia|].
      apply elem_of_app. right. by apply bool_decide_eq_true in H2.
    + rewrite bool_decide_eq_false_2; [lia|].
      apply bool_decide_eq_false in H1, H2. rewrite elem_of_app. tauto.
Qed.

(** ** Statements that merge leave the quotes alone *)

Lemma nlabel_apply w n : nlabel (apply_write nprops put_node w n) = nlabel n.
Proof. unfold apply_write. by destruct (w_cond w n). Qed.

Lemma rtype_apply w r : rtype (apply_write rprops put_rel w r) = rtype r.
Proof. unfold apply_write. by destruct (w_cond w r). Qed.

Lemma size_label_fmap l (f : Node → Node) (ns : gmap nat Node) :
  (∀ n, nlabel (f n) = nlabel n) →
  size (filter (λ kn : nat * Node, nlabel kn.2 = l) (f <$> ns))
  = size (filter (λ kn : nat * Node, nlabel kn.2 = l) ns).
Proof.
  intros Hf. rewrite map_filter_fmap, map_size_fmap. f_equal.
  apply map_filter_ext. intros i n _. simpl. by rewrite Hf.
Qed.

Lemma size_type_fmap ty (f : Rel → Rel) (rs : gmap nat Rel) :
  (∀ r, rtype (f r) = rtype r) →
  size (filter (λ jr : nat * Rel, rtype jr.2 = ty) (f <$> rs))
  = size (filter (λ jr : nat * Rel, rtype jr.2 = ty) rs).
Proof.
  intros Hf. rewrite map_filter_fmap, map_size_fmap. f_equal.
  apply map_filter_ext. intros j r _. simpl. by rewrite Hf.
Qed.

Lemma size_label_upsert l p sets ns :
  pat_label p ≠ l →
  size (filter (λ kn : nat * Node, nlabel kn.2 = l) (upsert_node p sets ns))
  = size (filter (λ kn : nat * Node, nlabel kn.2 = l) ns).
Proof.
  intros Hl. unfold upsert_node. rewrite size_label_fmap by apply nlabel_apply.
  destruct (decide (present p ns)) as [Hp|Hp].
  - by rewrite merge_node_nocreate.
  - rewrite merge_node_create by done.
    rewrite map_filter_insert_False by done.
    by rewrite delete_id by apply fresh_lookup.
Qed.

Lemma size_label_merges l ms ns :
  Forall (λ m : pattern * gmap string Value, pat_label m.1 ≠ l) ms →
  size (filter (λ kn : nat * Node, nlabel kn.2 = l)
          (foldl (λ ns m, upsert_node m.1 m.2 ns) ns ms))
  = size (filter (λ kn : nat * Node, nlabel kn.2 = l) ns).
Proof.
  intros Hms. revert ns. induction Hms as [|m ms Hm _ IH]; intros ns; [done|].
  simpl. by rewrite IH, size_label_upsert.
Qed.

Lemma size_type_merge_rows ty0 ty rows rs :
  ty ≠ ty0 →
  size (filter (λ jr : nat * Rel, rtype jr.2 = ty0) (foldl (merge_row ty) rs rows))
  = size (filter (λ jr : nat * Rel, rtype jr.2 = ty0) rs).
Proof.
  intros Hty. revert rs. induction rows as [|row rows IH]; intros rs; [done|].
  simpl. rewrite IH. unfold merge_row. case_decide; [|done].
  rewrite map_filter_insert_False by done.
  by rewrite delete_id by apply fresh_lookup.
Qed.

Lemma size_type_upsert ty0 ty rows sets rs :
  ty ≠ ty0 →
  size (filter (λ jr : nat * Rel, rtype jr.2 = ty0) (upsert_rels ty rows sets rs))
  = size (filter (λ jr : nat * Rel, rtype jr.2 = ty0) rs).
Proof.
  intros Hty. unfold upsert_rels. rewrite size_type_fmap by apply rtype_apply.
  by apply size_type_merge_rows.
Qed.

Lemma run_merging_quotes env qs n g :
  Forall merging qs →
  count_label Quote (run_queries env n qs g) = count_label Quote g
  ∧ count_rels QUOTED (run_queries env n qs g) = count_rels QUOTED g.
Proof.
  revert n g. induction qs as [|q qs IH]; intros n g Hqs; [done|].
  apply Forall_cons in Hqs as [Hq Hqs].
  destruct (shape_merging (neo4j_clock env n) q Hq) as [u Hu].
  destruct (exec_shape _ _ _ g Hu) as (rows & Hn & Hr & _).
  pose proof (shape_wf _ _ _ Hu) as Hwf.
  simpl. destruct (IH (S n) (exec (neo4j_clock env n) q g) Hqs) as [-> ->].
  unfold count_label, count_rels. rewrite Hn, Hr. split.
  - apply size_label_merges. destruct Hwf as (Hms & _).
    eapply Forall_impl; [done|]. by intros m [(_ & _ & ?) _].
  - apply size_type_upsert. by destruct Hwf as (_ & _ & _ & ?).
Qed.

(** ** One run of the synchronizer, and a second *)

Lemma Forall2_exists_l {A B} (R : A → B → Prop) l k :
  Forall2 R l k → Forall (λ y, ∃ x, x ∈ l ∧ R x y) k.
Proof.
  induction 1 as [|x y l k Hxy _ IH]; constructor.
  - exists x. split; [left|done].
  - eapply Forall_impl; [done|]. intros y' (x' & ? & ?). exists x'.
    split; [by right|done].
Qed.

Lemma twin_rel_writes H H' ns r :
  Forall2 twin H H' →
  apply_all rprops put_rel (shape_rel_write ns <$> H) r
  = apply_all rprops put_rel (shape_rel_write ns <$> H') r.
Proof.
  intros HH. apply apply_all_ext, Forall2_fmap. eapply Forall2_impl; [done|].
  intros u u' (_ & Hty & Hs & Hd & Hr). simpl. by rewrite Hty, Hs, Hd, Hr.
Qed.

Lemma twin_merge_patterns ms ms' : Forall2 twin_merge ms ms' → ms.*1 = ms'.*1.
Proof.
  induction 1 as [|m m' ms ms' [Hp _] _ IH]; [done|].
  rewrite !fmap_cons. by rewrite Hp, IH.
Qed.

Lemma twin_patterns u u' : twin u u' → (u_merges u).*1 = (u_merges u').*1.
Proof. intros (Hm & _). by apply twin_merge_patterns. Qed.

Lemma shapes_elem env qs n q u0 :
  q ∈ qs → shape 0 q = Some u0 → ∃ u, u ∈ shapes env n qs ∧ twin u0 u.
Proof.
  intros Hq Hu0. revert n. induction Hq as [q qs|q q' qs _ IH]; intros n.
  - destruct (shape_twin _ (neo4j_clock env n) _ _ Hu0) as (u & Hu & Htw).
    exists u. split; [|done]. simpl. rewrite Hu. left.
  - destruct (IH Hu0 (S n)) as (u & Hu & Htw). exists u. split; [|done].
    simpl. apply elem_of_app. by right.
Qed.

Lemma key_merged env n qs q u0 p :
  q ∈ qs → shape 0 q = Some u0 → p ∈ (u_merges u0).*1 →
  p ∈ (merges_of (shapes env n qs)).*1.
Proof.
  intros Hq Hu0 Hp. destruct (shapes_elem env qs n q u0 Hq Hu0) as (u & Hu & Htw).
  rewrite (twin_patterns _ _ Htw) in Hp.
  apply list_elem_of_fmap in Hp as (m & -> & Hm).
  apply list_elem_of_fmap. exists m. split; [done|]. by eapply merges_of_elem.
Qed.

(** Every natural key of the extraction is merged on by a statement of
    the run. *)
Lemma natural_keys_merged env n e p :
  p ∈ natural_keys e → p ∈ (merges_of (shapes env n (merge_queries e))).*1.
Proof.
  unfold natural_keys, merge_queries. rewrite !elem_of_app.
  intros [Hp|[Hp|[Hp|Hp]]].
  - apply list_elem_of_bind in Hp as (t & Hp & Ht).
    apply elem_of_cons in Hp as [->|Hp].
    + eapply (key_merged _ _ _ (QTheme _ _ _ _ _ _)); [|reflexivity|left].
      apply elem_of_app. left. apply list_elem_of_bind. exists t.
      split; [left|done].
    + apply list_elem_of_fmap in Hp as (d & -> & Hd).
      eapply (key_merged _ _ _ (QDimension (theme_name t) d));
        [|reflexivity|right; left].
      apply elem_of_app. left. apply list_elem_of_bind. exists t.
      split; [|done]. right. apply list_elem_of_fmap. by exists d.
  - apply list_elem_of_fmap in Hp as (t & -> & Ht).
    eapply (key_merged _ _ _ (tool_statement (session_id e) t)); [|reflexivity|left].
    apply elem_of_app. right. apply elem_of_app. left.
    apply list_elem_of_fmap. by exists t.
  - apply list_elem_of_fmap in Hp as (t & -> & Ht).
    eapply (key_merged _ _ _ (pain_point_statement (session_id e) t));
      [|reflexivity|left].
    apply elem_of_app. right. apply elem_of_app. right. apply elem_of_app. left.
    apply list_elem_of_fmap. by exists t.
  - apply list_elem_of_fmap in Hp as (t & -> & Ht).
    eapply (key_merged _ _ _ (goal_statement (session_id e) t)); [|reflexivity|left].
    apply elem_of_app. right. apply elem_of_app. right. apply elem_of_app. right.
    apply list_elem_of_fmap. by exists t.
Qed.

Lemma merged_merge_pattern env n qs p :
  p ∈ (merges_of (shapes env n qs)).*1 → merge_pattern p.
Proof.
  intros Hp. apply list_elem_of_fmap in Hp as (m & -> & Hm).
  pose proof (merges_of_wf _ (shapes_wf env n qs)) as Hwf.
  rewrite Forall_forall in Hwf. by apply (Hwf m Hm).
Qed.

(** What one run establishes. *)
Lemma sync_run_inv env e n g :
  run_inv (shapes env n (merge_queries e)) (run_queries env n (sync_queries e) g).
Proof.
  rewrite sync_queries_split, run_queries_app.
  eapply run_inv_quote_ext.
  - apply (run_inv_merging env [] (merge_queries e) n g);
      [apply run_inv_nil|apply merge_queries_merging].
  - eapply run_quotes, quote_queries_of.
Qed.

(** Nodes that are not quotes match the same patterns after one run of
    the quote statements. *)
Lemma sync_run_matches env e n g q i :
  pat_label q ≠ Quote →
  matches q (nodes (run_queries env n (sync_queries e) g)) i
  ↔ matches q (nodes (run_queries env n (merge_queries e) g)) i.
Proof.
  intros Hq. rewrite sync_queries_split, run_queries_app.
  apply matches_quote_ext; [|done]. eapply run_quotes, quote_queries_of.
Qed.

Lemma session_not_merged env n qs sid :
  Pat Session "id" sid ∉ (merges_of (shapes env n qs)).*1.
Proof. intros Hp. apply merged_merge_pattern in Hp as (_ & Hl & _). by apply Hl. Qed.

(** One run leaves one node of each of its natural keys, or as many as
    there were. *)
Lemma sync_run_keys env e n g p :
  p ∈ natural_keys e →
  count_matches p (run_queries env n (sync_queries e) g)
  = Nat.max 1 (count_matches p g).
Proof.
  intros Hp. apply (natural_keys_merged env n) in Hp.
  pose proof (merged_merge_pattern _ _ _ _ Hp) as Hmp.
  rewrite (count_matches_ext p _ (run_queries env n (merge_queries e) g)).
  - rewrite count_run; [|by apply merge_pattern_keyed|apply merge_queries_merging].
    by rewrite bool_decide_eq_true_2.
  - intros i. apply sync_run_matches. by destruct Hmp as (_ & _ & ?).
Qed.

(** One run creates a quote, and its relationship, for every quote of the
    extraction and every Session node of its identity. *)
Lemma sync_run_quotes env e n g :
  count_label Quote (run_queries env n (sync_queries e) g)
  = count_label Quote g + session_nodes e g * length (quotes e)
  ∧ count_rels QUOTED (run_queries env n (sync_queries e) g)
    = count_rels QUOTED g + session_nodes e g * length (quotes e)
  ∧ session_nodes e (run_queries env n (sync_queries e) g) = session_nodes e g.
Proof.
  assert (session_nodes e (run_queries env n (merge_queries e) g) = session_nodes e g)
    as Hs.
  { unfold session_nodes.
    rewrite count_run; [|unfold keyed; simpl; tauto|apply merge_queries_merging].
    rewrite bool_decide_eq_false_2; [done|apply session_not_merged]. }
  destruct (run_merging_quotes env (merge_queries e) n g (merge_queries_merging e))
    as [Hc Hr].
  destruct (run_quotes env (session_id e) (quote_queries e)
              (n + length (merge_queries e))
              (run_queries env n (merge_queries e) g) (quote_queries_of e))
    as (Hext & Hc' & Hr').
  rewrite sync_queries_split, run_queries_app, Hc', Hr', Hc, Hr.
  fold (session_nodes e (run_queries env n (merge_queries e) g)). rewrite Hs.
  unfold quote_queries. rewrite length_fmap. split; [done|]. split; [done|].
  etrans; [|exact Hs]. unfold session_nodes. apply count_matches_ext.
  intros i. by apply matches_quote_ext.
Qed.

Lemma shape_rel_write_ext_on H ns ns' r :
  Forall wf_upsert H →
  (∀ q i, keyed q → pat_label q ≠ Quote → matches q ns' i ↔ matches q ns i) →
  apply_all rprops put_rel (shape_rel_write ns' <$> H) r =
  apply_all rprops put_rel (shape_rel_write ns <$> H) r.
Proof.
  intros HH Hst. apply apply_all_ext, Forall2_fmap, Forall2_same_length_lookup.
  split; [done|]. intros i u u' Hl Hl'. assert (u' = u) as -> by congruence.
  assert (wf_upsert u) as Hu.
  { rewrite Forall_forall in HH. apply HH. by eapply list_elem_of_lookup_2. }
  split; [|done]. intros b. simpl.
  rewrite (matchesb_ext (u_src u) ns' ns), (matchesb_ext (u_dst u) ns' ns); [done| |].
  - pose proof (wf_dst_merge u Hu) as Hd.
    apply Hst; [by apply merge_pattern_keyed|by destruct Hd as (_ & _ & ?)].
  - apply Hst; [by apply wf_src_keyed|by apply wf_src_not_quote].
Qed.

(** The second of two runs: the graph is the same but for the times of
    update and the new quotes, and assigning the properties of the
    relationships again changes nothing. *)
Lemma sync_rerun env e n n' g :
  let g1 := run_queries env n (sync_queries e) g in
  let g2 := run_queries env n' (sync_queries e) g1 in
  same_but_quotes g1 g2
  ∧ (∀ q i, keyed q → pat_label q ≠ Quote →
       matches q (nodes g2) i ↔ matches q (nodes g1) i)
  ∧ (∀ j r, rels g2 !! j = Some r →
       apply_all rprops put_rel (rel_writes env n' e g2) r = r).
Proof.
  intros g1 g2.
  pose proof (sync_run_inv env e n g) as Hinv. fold g1 in Hinv.
  set (H := shapes env n (merge_queries e)) in *.
  set (H2 := shapes env n' (merge_queries e)).
  assert (Forall2 twin H H2) as Htw by apply shapes_twin.
  destruct Hinv as (HH & Hcov & [Hnset Hrset]).
  destruct (rerun env H (merge_queries e) n' g1 HH Hcov (merge_queries_merging e)
              (Forall2_exists_l _ _ _ Htw)) as [Hn Hr].
  fold H2 in Hn, Hr.
  set (g2' := run_queries env n' (merge_queries e) g1) in *.
  assert (quote_ext g2' g2) as Hext.
  { unfold g2, g2'. rewrite sync_queries_split, run_queries_app.
    eapply run_quotes, quote_queries_of. }
  pose proof Hext as (Hns & Hrs & Hqn & Hqr).
  assert (∀ j r, rels g1 !! j = Some r →
            apply_all rprops put_rel (shape_rel_write (nodes g1) <$> H2) r = r) as Hkeep.
  { intros j r Hj. rewrite <- (twin_rel_writes H H2) by done. by eapply Hrset. }
  assert (∀ q i, keyed q → pat_label q ≠ Quote →
            matches q (nodes g2) i ↔ matches q (nodes g1) i) as Hst.
  { intros q i Hk Hl. rewrite (matches_quote_ext q g2' g2) by done. rewrite Hn.
    apply matches_fmap_writes; [done|].
    eapply Forall_impl; [apply (merges_of_wf _ (shapes_wf env n' (merge_queries e)))|].
    by intros m [_ ?]. }
  split; [|split; [done|]].
  - split; [|split; [|split]].
    + intros i n1 Hi. eexists. split.
      * eapply lookup_weaken; [|exact Hns]. by rewrite Hn, lookup_fmap, Hi.
      * transitivity
          (untimed (apply_all nprops put_node (merge_write <$> merges_of H) n1));
          [|by rewrite (Hnset i n1 Hi)].
        symmetry. apply untimed_apply_all; [by apply merges_of_twin| |done].
        eapply Forall_impl; [apply (merges_of_wf _ HH)|].
        intros m [? _]. by apply merge_pattern_keyed.
    + intros i n2 Hi Hnone. destruct (Hqn i n2 Hi) as [Hi'|]; [|done].
      by rewrite Hn, lookup_fmap, Hnone in Hi'.
    + intros j r Hj. eapply lookup_weaken; [|exact Hrs].
      rewrite Hr, lookup_fmap, Hj. simpl. f_equal. by eapply Hkeep.
    + intros j r Hj Hnone. destruct (Hqr j r Hj) as [Hj'|]; [|done].
      by rewrite Hr, lookup_fmap, Hnone in Hj'.
  - intros j r Hj. unfold rel_writes. fold H2.
    rewrite (shape_rel_write_ext_on H2 (nodes g1) (nodes g2));
      [|apply shapes_wf|done].
    destruct (Hqr j r Hj) as [Hj'|Hty].
    + rewrite Hr, lookup_fmap in Hj'.
      destruct (rels g1 !! j) as [r1|] eqn:Hj1; [|done].
      simpl in Hj'. injection Hj' as <-.
      rewrite (Hkeep j r1 Hj1). by eapply Hkeep.
    + apply apply_all_nomatch. apply Forall_fmap, Forall_forall. intros u Hu. simpl.
      rewrite bool_decide_eq_false_2; [done|].
      pose proof (shapes_wf env n' (merge_queries e)) as Hwf.
      rewrite Forall_forall in Hwf. destruct (Hwf u Hu) as (_ & _ & _ & Hq).
      congruence.
Qed.

(** ** Synchronizing the same extraction twice *)

(** C1, as it is stated, fails: in a graph that holds a quote already,
    the second run does not double the number of Quote nodes and of
    QUOTED relationships that the first run leaves; two become three. *)
Lemma quotes_not_doubled :
  let env := env_of [] (Failure LLMError) (Failure LLMError) None in
  let w1 := snd (sync_extraction_to_graph env extraction_with_quote
                   (start graph_with_quote)) in
  let w2 := snd (sync_extraction_to_graph env extraction_with_quote w1) in
  count_label Quote (graph w1) = 2 ∧ count_label Quote (graph w2) = 3
  ∧ count_rels QUOTED (graph w1) = 2 ∧ count_rels QUOTED (graph w2) = 3.
Proof. vm_compute. by repeat split. Qed.

(** C1 (amended): when the store answers, two runs of the synchronizer
    with the same extraction both succeed and, whatever the graph was,
    the graph after the second run is the graph after the first one with
    the times of update renewed and with more quotes: no node and no
    relationship other than Quote nodes and QUOTED relationships is
    created by the second run, and every other property is as it was.
    After the first run each natural key of the extraction has one node
    if it had none, and as many as it had otherwise; the second run
    changes none of these numbers.  After the second run every
    relationship carries the properties that the statements of that run
    which apply to it assign, the last one winning.  Each run adds one
    Quote node and one QUOTED relationship for every quote of the
    extraction and every Session node that has the identity of the
    extraction. *)
Theorem sync_twice env e w :
  reachable_from env (length (sent w)) →
  ∃ w1 w2,
    sync_extraction_to_graph env e w = (Ok tt, w1)
    ∧ sync_extraction_to_graph env e w1 = (Ok tt, w2)
    ∧ same_but_quotes (graph w1) (graph w2)
    ∧ (∀ p, p ∈ natural_keys e →
         count_matches p (graph w1) = Nat.max 1 (count_matches p (graph w))
         ∧ count_matches p (graph w2) = count_matches p (graph w1))
    ∧ (∀ j r, rels (graph w2) !! j = Some r →
         assigned (rel_writes env (length (sent w1)) e (graph w2)) r ⊆ rprops r)
    ∧ count_label Quote (graph w1)
      = count_label Quote (graph w) + session_nodes e (graph w) * length (quotes e)
    ∧ count_label Quote (graph w2)
      = count_label Quote (graph w1) + session_nodes e (graph w) * length (quotes e)
    ∧ count_rels QUOTED (graph w1)
      = count_rels QUOTED (graph w) + session_nodes e (graph w) * length (quotes e)
    ∧ count_rels QUOTED (graph w2)
      = count_rels QUOTED (graph w1) + session_nodes e (graph w) * length (quotes e).
Proof.
  intros Hup. destruct (sync_ok env e w Hup) as [w1 H1].
  pose proof (sync_inv _ _ _ _ H1) as (Hg1 & Hs1 & _).
  assert (reachable_from env (length (sent w1))) as Hup1.
  { intros k Hk. apply Hup. rewrite Hs1, length_app in Hk. lia. }
  destruct (sync_ok env e w1 Hup1) as [w2 H2].
  pose proof (sync_inv _ _ _ _ H2) as (Hg2 & Hs2 & _).
  exists w1, w2. split; [done|]. split; [done|].
  destruct (sync_rerun env e (length (sent w)) (length (sent w1)) (graph w))
    as (Hsame & Hst & Hlatest).
  destruct (sync_run_quotes env e (length (sent w)) (graph w)) as (Hc1 & Hr1 & Hk1).
  destruct (sync_run_quotes env e (length (sent w1)) (graph w1)) as (Hc2 & Hr2 & _).
  rewrite <- Hg1 in Hsame, Hst, Hlatest, Hc1, Hr1, Hk1.
  rewrite <- Hg2 in Hsame, Hst, Hlatest, Hc2, Hr2.
  rewrite Hk1 in Hc2, Hr2.
  split; [done|]. split; [|split; [|done]].
  - intros p Hp. split.
    + rewrite Hg1. by apply sync_run_keys.
    + apply count_matches_ext. intros i.
      pose proof (merged_merge_pattern _ _ _ _ (natural_keys_merged env 0 e p Hp))
        as Hmp.
      apply Hst; [by apply merge_pattern_keyed|by destruct Hmp as (_ & _ & ?)].
  - intros j r Hj. specialize (Hlatest j r Hj).
    rewrite (apply_all_assigned rprops put_rel rel_get_put rel_put_put put_rel_get
               ok_rel ok_rel_stable) in Hlatest by apply shape_writes_ok.
    apply (f_equal rprops) in Hlatest. simpl in Hlatest.
    pose proof (map_union_subseteq_l
                  (assigned (rel_writes env (length (sent w1)) e (graph w2)) r)
                  (rprops r)) as Hsub.
    by rewrite Hlatest in Hsub.
Qed.

Lemma sync_twice_witness :
  ∃ w1 w2,
    sync_extraction_to_graph (env_of [] (Failure LLMError) (Failure LLMError) None)
      extraction_with_quote (start graph_with_quote) = (Ok tt, w1)
    ∧ sync_extraction_to_graph (env_of [] (Failure LLMError) (Failure LLMError) None)
        extraction_with_quote w1 = (Ok tt, w2)
    ∧ same_but_quotes (graph w1) (graph w2)
    ∧ count_label Quote (graph w2) = count_label Quote (graph w1) + 1 * 1.
Proof.
  destruct (sync_twice (env_of [] (Failure LLMError) (Failure LLMError) None)
              extraction_with_quote (start graph_with_quote) (λ k _, eq_refl))
    as (w1 & w2 & H1 & H2 & Hsame & _ & _ & _ & Hc & _).
  exists w1, w2. repeat split; try done; apply Hsame.
Defined.

(** The example run twice: one Tool node and one USES_TOOL relationship,
    which carries the defaults of the tool that was named only. *)
Example rerun_keeps_one_tool :
  let env := env_of [] (Failure LLMError) (Failure LLMError) None in
  let w1 := snd (sync_extraction_to_graph env extraction_with_quote
                   (start graph_with_quote)) in
  let w2 := snd (sync_extraction_to_graph env extraction_with_quote w1) in
  count_matches (Pat Tool "name" (VStr (lit "ChatGPT"))) (graph w2) = 1
  ∧ count_rels USES_TOOL (graph w2) = 1
  ∧ map_Forall (λ _ r, rtype r = USES_TOOL →
                  rprops r !! "frequency" = Some (VStr (lit "unknown"))
                  ∧ rprops r !! "sophistication" = Some (VStr (lit "unknown"))
                  ∧ rprops r !! "useCase" = Some (VStr []))
       (rels (graph w2)).
Proof.
  cbv zeta. split; [vm_compute; reflexivity|]. split; [vm_compute; reflexivity|].
  apply (bool_decide_unpack _). vm_compute. exact I.
Qed.

(** ** Synchronizing without a Session node *)

Lemma orphan_ext_refl g : orphan_ext g g.
Proof.
  split; [|split]; [|done|].
  - intros i n Hn. by exists n.
  - intros j r Hr. by left.
Qed.

Lemma theme_to_dimension_mono g g' r :
  (∀ i n, nodes g !! i = Some n → ∃ n', nodes g' !! i = Some n' ∧ nlabel n' = nlabel n) →
  theme_to_dimension g r → theme_to_dimension g' r.
Proof.
  intros Hn (Hty & s & t & Hs & Hls & Ht & Hlt). split; [done|].
  destruct (Hn _ _ Hs) as (s' & Hs' & Hls'). destruct (Hn _ _ Ht) as (t' & Ht' & Hlt').
  exists s', t'. repeat split; congruence.
Qed.

Lemma orphan_ext_trans g1 g2 g3 : orphan_ext g1 g2 → orphan_ext g2 g3 → orphan_ext g1 g3.
Proof.
  intros (Hn1 & Hr1 & Hd1) (Hn2 & Hr2 & Hd2). split; [|split].
  - intros i n Hn. destruct (Hn1 i n Hn) as (n' & Hn' & Hl).
    destruct (Hn2 i n' Hn') as (n'' & Hn'' & Hl'). exists n''. split; congruence.
  - by etrans.
  - intros j r Hr. destruct (Hd2 j r Hr) as [Hr'|Hd]; [|by right].
    destruct (Hd1 j r Hr') as [?|Hd]; [by left|right].
    by eapply theme_to_dimension_mono.
Qed.

Lemma upsert_node_label p sets ns i n :
  ns !! i = Some n → ∃ n', upsert_node p sets ns !! i = Some n' ∧ nlabel n' = nlabel n.
Proof.
  intros Hn. rewrite upsert_node_lookup.
  rewrite (lookup_weaken _ _ _ _ Hn (merge_node_subseteq p ns)). simpl.
  eexists. split; [done|]. apply nlabel_apply.
Qed.

Lemma nodes_step_label u ns i n :
  ns !! i = Some n → ∃ n', nodes_step u ns !! i = Some n' ∧ nlabel n' = nlabel n.
Proof.
  unfold nodes_step. generalize (u_merges u). intros ms. revert ns n.
  induction ms as [|m ms IH]; intros ns n Hn; [by exists n|].
  simpl. destruct (upsert_node_label m.1 m.2 ns i n Hn) as (n1 & Hn1 & Hl1).
  destruct (IH _ _ Hn1) as (n' & Hn' & Hl'). exists n'. split; congruence.
Qed.

Lemma shape_for_session now sid q u :
  shape now q = Some u → for_session sid q →
  u_src u = Pat Session "id" (VStr sid)
  ∨ (u_type u = RELATES_TO ∧ pat_label (u_src u) = Theme
     ∧ pat_label (u_dst u) = ScoringDimension ∧ u_rsets u = ∅).
Proof.
  destruct q; intros [= <-]; simpl; try (intros ->; by left). intros _. by right.
Qed.

Lemma session_keyed sid : keyed (Pat Session "id" sid).
Proof. unfold keyed. simpl. tauto. Qed.

(** One statement, in a graph without the Session node. *)
Lemma exec_no_session now sid q g :
  for_session sid q →
  ¬ present (Pat Session "id" (VStr sid)) (nodes g) →
  orphan_ext g (exec now q g)
  ∧ ¬ present (Pat Session "id" (VStr sid)) (nodes (exec now q g)).
Proof.
  intros Hq Hno. destruct (shape now q) as [u|] eqn:Hu.
  - destruct (exec_shape _ _ _ g Hu) as (rows & Hn & Hr & Hrows).
    pose proof (shape_wf _ _ _ Hu) as Hwf.
    assert (∀ i, matches (Pat Session "id" (VStr sid)) (nodes (exec now q g)) i
                 ↔ matches (Pat Session "id" (VStr sid)) (nodes g) i) as Hst.
    { intros i. rewrite Hn. apply matches_nodes_step; [done|apply session_keyed|].
      by right. }
    split; [|intros [i Hi]; apply Hno; exists i; by apply Hst].
    assert (∀ i n, nodes g !! i = Some n →
              ∃ n', nodes (exec now q g) !! i = Some n' ∧ nlabel n' = nlabel n) as Hlab.
    { intros i n Hi. rewrite Hn. by apply nodes_step_label. }
    split; [done|].
    destruct (shape_for_session _ _ _ _ Hu Hq) as [Hsrc|(Hty & Hls & Hld & Hsets)].
    + assert (rows = []) as ->.
      { destruct rows as [|[a b] rows]; [done|]. exfalso. apply Hno. exists a.
        apply Hst. rewrite Hn, <- Hsrc. apply (Hrows a b). left. }
      rewrite upsert_rels_nil in Hr. rewrite Hr. split; [done|].
      intros j r Hj. by left.
    + rewrite Hsets, upsert_rels_empty in Hr. rewrite Hr. split.
      * apply merge_rows_subseteq.
      * intros j r Hj. apply merge_rows_lookup in Hj
          as [Hj|(_ & [a b] & Hab & -> & _)]; [by left|right].
        apply Hrows in Hab as [(s & Hs & Hhs & _) (t & Ht & Hht & _)].
        rewrite <- Hn in Hs, Ht. split; [done|]. exists s, t. simpl.
        repeat split; congruence.
  - destruct q; try done. simpl in *. subst.
    rewrite quote_query_fold.
    assert (match_ids (Pat Session "id" (VStr sid)) (nodes g) = []) as ->
      by by apply match_ids_nil.
    split; [apply orphan_ext_refl|done].
Qed.

(** A run of statements for a session that has no node. *)
Lemma run_no_session env sid qs n g :
  Forall (for_session sid) qs →
  ¬ present (Pat Session "id" (VStr sid)) (nodes g) →
  orphan_ext g (run_queries env n qs g).
Proof.
  revert n g. induction qs as [|q qs IH]; intros n g Hqs Hno.
  - apply orphan_ext_refl.
  - apply Forall_cons in Hqs as [Hq Hqs].
    destruct (exec_no_session (neo4j_clock env n) sid q g Hq Hno) as [Hext Hno'].
    eapply orphan_ext_trans; [done|]. by apply IH.
Qed.

Lemma sync_queries_for_session e : Forall (for_session (session_id e)) (sync_queries e).
Proof.
  unfold sync_queries. rewrite !Forall_app. repeat split.
  - apply Forall_bind, Forall_forall. intros t _. unfold theme_queries.
    apply Forall_cons. split; [done|]. by apply Forall_fmap, Forall_forall.
  - by apply Forall_fmap, Forall_forall.
  - by apply Forall_fmap, Forall_forall.
  - by apply Forall_fmap, Forall_forall.
  - by apply Forall_fmap, Forall_forall.
Qed.

Lemma session_nodes_0 e g :
  session_nodes e g = 0 ↔ ¬ present (Pat Session "id" (VStr (session_id e))) (nodes g).
Proof.
  unfold session_nodes, count_matches. rewrite <- match_ids_nil.
  by destruct (match_ids _ _).
Qed.

(** C2, as it is stated, fails: the nodes the synchronizer merges are
    not always orphaned.  The graph holds Session s2 with a USES_TOOL
    relationship to the Tool node ChatGPT and no Session s1; the
    extraction of s1 names ChatGPT.  The run merges on the node that is
    there, and after it that Tool node still has the relationship from
    Session s2. *)
Lemma merged_tool_not_orphaned :
  session_nodes extraction_chatgpt_only graph_s2_uses_chatgpt = 0
  ∧ (sync_extraction_to_graph (env_of [] (Failure LLMError) (Failure LLMError) None)
       extraction_chatgpt_only (start graph_s2_uses_chatgpt)).1 = Ok tt
  ∧ count_matches (Pat Tool "name" (VStr (lit "ChatGPT")))
      (graph (sync_extraction_to_graph
                (env_of [] (Failure LLMError) (Failure LLMError) None)
                extraction_chatgpt_only (start graph_s2_uses_chatgpt)).2) = 1
  ∧ from_sessions
      (graph (sync_extraction_to_graph
                (env_of [] (Failure LLMError) (Failure LLMError) None)
                extraction_chatgpt_only (start graph_s2_uses_chatgpt)).2)
    = [(Some (VStr (lit "s2")), USES_TOOL, Tool, Some (VStr (lit "ChatGPT")))].
Proof. vm_compute. by repeat split. Qed.

(** C2, amended: when the graph holds no Session node with the identity
    of the extraction and the store answers, the synchronizer returns
    without an error.  Every natural key of the extraction then has a node
    (one if it had none, as many as it had otherwise).  The relationships
    of the graph are all kept, and each new one is a RELATES_TO
    relationship from a Theme node to a ScoringDimension node: none
    involves a Session.  No Quote node is created, and there is still no
    Session node with that identity.  So a node the run creates is
    orphaned from every Session: in a graph without dangling
    relationships it takes part in no relationship but those from a Theme
    to a ScoringDimension.  A node that was there before keeps the
    relationships it had. *)
Theorem sync_without_session env e w :
  reachable_from env (length (sent w)) →
  session_nodes e (graph w) = 0 →
  ∃ w',
    sync_extraction_to_graph env e w = (Ok tt, w')
    ∧ (∀ p, p ∈ natural_keys e →
         count_matches p (graph w') = Nat.max 1 (count_matches p (graph w)))
    ∧ rels (graph w) ⊆ rels (graph w')
    ∧ (∀ j r, rels (graph w') !! j = Some r → rels (graph w) !! j = None →
         theme_to_dimension (graph w') r)
    ∧ count_label Quote (graph w') = count_label Quote (graph w)
    ∧ count_rels QUOTED (graph w') = count_rels QUOTED (graph w)
    ∧ session_nodes e (graph w') = 0
    ∧ (no_dangling (graph w) →
       ∀ i j r, nodes (graph w) !! i = None → rels (graph w') !! j = Some r →
                rsrc r = i ∨ rdst r = i → theme_to_dimension (graph w') r).
Proof.
  intros Hup Hno. destruct (sync_ok env e w Hup) as [w' Hs]. exists w'.
  split; [done|]. apply sync_inv in Hs as (Hg & _). rewrite Hg.
  destruct (run_no_session env (session_id e) (sync_queries e) (length (sent w))
              (graph w) (sync_queries_for_session e)) as (_ & Hsub & Hnew).
  { by apply session_nodes_0. }
  destruct (sync_run_quotes env e (length (sent w)) (graph w)) as (Hc & Hr & Hk).
  rewrite Hno in Hc, Hr, Hk. simpl in Hc, Hr. rewrite Nat.add_0_r in Hc, Hr.
  split; [intros p Hp; by apply sync_run_keys|]. split; [done|].
  split.
  { intros j r Hj Hnone. destruct (Hnew j r Hj) as [Hold|?]; [congruence|done]. }
  split; [done|]. split; [done|]. split; [done|].
  intros Hnd i j r Hi Hj Hend.
  destruct (Hnew j r Hj) as [Hold|?]; [|done]. exfalso.
  destruct (Hnd j r Hold) as [[s Hsrc] [t Hdst]].
  destruct Hend as [<-|<-]; congruence.
Qed.

Lemma sync_without_session_witness :
  ∃ w',
    sync_extraction_to_graph (env_of [] (Failure LLMError) (Failure LLMError) None)
      extraction_with_quote (start empty_graph) = (Ok tt, w')
    ∧ count_matches (Pat Tool "name" (VStr (lit "ChatGPT"))) (graph w') = 1
    ∧ rels (graph w') = ∅
    ∧ count_label Quote (graph w') = 0.
Proof.
  destruct (sync_without_session
              (env_of [] (Failure LLMError) (Failure LLMError) None)
              extraction_with_quote (start empty_graph) (λ k _, eq_refl) eq_refl)
    as (w' & Hs & Hk & _ & Hnew & Hc & _).
  exists w'. split; [done|]. split; [|split; [|done]].
  - apply (Hk (Pat Tool "name" (VStr (lit "ChatGPT")))). left.
  - apply map_empty. intros j. destruct (rels (graph w') !! j) as [r|] eqn:Hj; [|done].
    destruct (Hnew j r Hj (lookup_empty j)) as (_ & s & t & Hsrc & Hlab & _).
    injection Hs as <-. vm_compute in Hsrc.
    by destruct (rsrc r) as [|[|?]]; simplify_eq.
Defined.

(* ================================================================= *)
(** * Further properties of the code *)

(** ** [str.strip] *)

Lemma lstrip_spaces ws s : all_space ws → lstrip (ws ++ s) = lstrip s.
Proof. induction 1 as [|c ws Hc _ IH]; [done|]. simpl. by rewrite Hc. Qed.

Lemma lstrip_nonspace c s : py_isspace c = false → lstrip (c :: s) = c :: s.
Proof. intros Hc. simpl. by rewrite Hc. Qed.

Lemma rstrip_spaces s ws : all_space ws → rstrip (s ++ ws) = rstrip s.
Proof.
  intros Hws. unfold rstrip. rewrite reverse_app, lstrip_spaces; [done|].
  by apply Forall_reverse.
Qed.

Lemma rstrip_nonspace s c : py_isspace c = false → rstrip (s ++ [c]) = s ++ [c].
Proof.
  intros Hc. unfold rstrip. rewrite reverse_app, reverse_singleton.
  cbn [app]. rewrite lstrip_nonspace by done.
  by rewrite reverse_cons, reverse_involutive.
Qed.

(** Text between two non-space characters is what [strip] leaves of it,
    whatever whitespace surrounds it. *)
Lemma strip_core ws1 c mid d ws2 :
  all_space ws1 → all_space ws2 → py_isspace c = false → py_isspace d = false →
  strip (ws1 ++ (c :: mid ++ [d]) ++ ws2) = c :: mid ++ [d].
Proof.
  intros H1 H2 Hc Hd. unfold strip.
  rewrite lstrip_spaces by done.
  change ((c :: mid ++ [d]) ++ ws2) with (c :: (mid ++ [d]) ++ ws2).
  rewrite lstrip_nonspace by done.
  change (c :: (mid ++ [d]) ++ ws2) with ((c :: mid ++ [d]) ++ ws2).
  rewrite rstrip_spaces by done.
  change (c :: mid ++ [d]) with ((c :: mid) ++ [d]).
  by apply rstrip_nonspace.
Qed.

Lemma strip_snoc_space s c : py_isspace c = true → strip (s ++ [c]) = strip s.
Proof.
  intros Hc. unfold strip. induction s as [|a s IH]; simpl.
  - by rewrite Hc.
  - destruct (py_isspace a) eqn:Ha; [done|].
    change (a :: s ++ [c]) with ((a :: s) ++ [c]).
    apply rstrip_spaces. by apply Forall_singleton.
Qed.



(** ** The transcript is blank only without an eligible response *)





(** ** Code fences around the reply of the fallback *)

Lemma lstrip_decompose s : ∃ wl, all_space wl ∧ s = wl ++ lstrip s.
Proof.
  induction s as [|c s (wl & Hwl & IH)]; [exists []; by split; [constructor|]|].
  simpl. destruct (py_isspace c) eqn:Hc.
  - exists (c :: wl). split; [by constructor|]. simpl. by rewrite <- IH.
  - exists []. by split; [constructor|].
Qed.

Lemma rstrip_decompose s : ∃ wr, all_space wr ∧ s = rstrip s ++ wr.
Proof.
  destruct (lstrip_decompose (reverse s)) as (wl & Hwl & Hs).
  exists (reverse wl). split; [by apply Forall_reverse|].
  unfold rstrip. rewrite <- reverse_app, <- Hs. by rewrite reverse_involutive.
Qed.

(** [strip] removes whitespace at the two ends and nothing else. *)
Lemma strip_decompose s :
  ∃ wl wr, all_space wl ∧ all_space wr ∧ s = wl ++ strip s ++ wr.
Proof.
  destruct (lstrip_decompose s) as (wl & Hwl & Hs).
  destruct (rstrip_decompose (lstrip s)) as (wr & Hwr & Hr).
  exists wl, wr. split; [done|]. split; [done|]. unfold strip.
  by rewrite <- Hr.
Qed.

Lemma after_first_newline_app a rest :
  NL ∉ a → after_first_newline (a ++ NL :: rest) = Some rest.
Proof.
  induction a as [|c a IH]; intros Ha; simpl.
  - done.
  - apply not_elem_of_cons in Ha as [Hc Ha].
    destruct (c =? NL)%N eqn:Heq; [|by apply IH].
    apply N.eqb_eq in Heq. congruence.
Qed.

Lemma after_first_newline_suffix s rest :
  after_first_newline s = Some rest → ∃ a, s = a ++ NL :: rest.
Proof.
  revert rest. induction s as [|c s IH]; intros rest; simpl; [done|].
  destruct (c =? NL)%N eqn:Heq.
  - intros [= <-]. apply N.eqb_eq in Heq as ->. by exists [].
  - intros H. destruct (IH _ H) as [a ->]. by exists (c :: a).
Qed.

Lemma startswith_app s p : startswith (p ++ s) p = true.
Proof. apply bool_decide_eq_true. by exists s. Qed.

Lemma endswith_app s p : endswith (s ++ p) p = true.
Proof. apply bool_decide_eq_true. by exists s. Qed.

Lemma startswith_head c s p d p' :
  p = d :: p' → c ≠ d → startswith (c :: s) p = false.
Proof.
  intros -> Hne. apply bool_decide_eq_false. intros [k Hk].
  injection Hk as Hcd _. done.
Qed.

Lemma endswith_last s c p p' d :
  p = p' ++ [d] → c ≠ d → endswith (s ++ [c]) p = false.
Proof.
  intros -> Hne. apply bool_decide_eq_false. intros [k Hk].
  rewrite app_assoc in Hk. apply app_inj_tail in Hk as [_ ?]. done.
Qed.

(** X2: removing the fences only removes text at the two ends of the
    reply: what is left is a contiguous part of it. *)
Theorem strip_fences_infix (text : pystr) :
  ∃ before after, text = before ++ strip_fences text ++ after.
Proof.
  unfold strip_fences.
  set (t1 := if startswith text (lit "```")
             then match after_first_newline text with
                  | Some rest => rest
                  | None => drop 3 text
                  end
             else text).
  assert (∃ a, text = a ++ t1) as [a Ha].
  { unfold t1. destruct (startswith text (lit "```")); [|by exists []].
    destruct (after_first_newline text) as [rest|] eqn:Hn.
    - destruct (after_first_newline_suffix _ _ Hn) as [a ->].
      exists (a ++ [NL]). by rewrite <- app_assoc.
    - exists (take 3 text). by rewrite take_drop. }
  set (t2 := if endswith t1 (lit "```") then take (length t1 - 3) t1 else t1).
  assert (∃ b, t1 = t2 ++ b) as [b Hb].
  { unfold t2. destruct (endswith t1 (lit "```")).
    - exists (drop (length t1 - 3) t1). by rewrite take_drop.
    - exists []. by rewrite app_nil_r. }
  assert (∃ a', t2 = a' ++ (if startswith t2 (lit "json") then drop 4 t2 else t2))
    as [a' Ha'].
  { destruct (startswith t2 (lit "json")); [|by exists []].
    exists (take 4 t2). by rewrite take_drop. }
  exists (a ++ a'), b. rewrite Ha, Hb. rewrite Ha' at 1.
  by rewrite <- !app_assoc.
Qed.

Lemma strip_fences_plain c mid d :
  c ≠ 96%N → c ≠ 106%N → d ≠ 96%N →
  strip_fences (c :: mid ++ [d]) = c :: mid ++ [d].
Proof.
  intros Hc Hj Hd. unfold strip_fences.
  rewrite (startswith_head c _ (lit "```") 96%N (lit "``")) by done.
  cbv beta iota zeta.
  change (c :: mid ++ [d]) with ((c :: mid) ++ [d]).
  rewrite (endswith_last (c :: mid) d (lit "```") (lit "``") 96%N) by done.
  change ((c :: mid) ++ [d]) with (c :: mid ++ [d]).
  by rewrite (startswith_head c _ (lit "json") 106%N (lit "son")).
Qed.

Lemma strip_fences_fenced tag body :
  NL ∉ tag → startswith (body ++ [NL]) (lit "json") = false →
  strip (strip_fences (fenced tag body)) = strip body.
Proof.
  intros Htag Hj. unfold strip_fences, fenced.
  rewrite startswith_app.
  assert (after_first_newline (lit "```" ++ tag ++ [NL] ++ body ++ [NL] ++ lit "```")
          = Some ((body ++ [NL]) ++ lit "```")) as ->.
  { rewrite (app_assoc (lit "```") tag), <- (app_assoc body).
    apply after_first_newline_app.
    rewrite elem_of_app. intros [Hin|Hin]; [|done]. vm_compute in Hin.
    repeat (apply elem_of_cons in Hin as [Hin|Hin]; [done|]).
    by apply elem_of_nil in Hin. }
  cbv beta iota zeta. rewrite endswith_app.
  rewrite length_app. change (length (lit "```")) with 3.
  rewrite Nat.add_sub, take_app_length, Hj.
  by apply strip_snoc_space.
Qed.

Lemma strip_core0 c mid d :
  py_isspace c = false → py_isspace d = false →
  strip (c :: mid ++ [d]) = c :: mid ++ [d].
Proof.
  intros Hc Hd. pose proof (strip_core [] c mid d [] (Forall_nil_2 _) (Forall_nil_2 _) Hc Hd)
    as H.
  by rewrite app_nil_r in H.
Qed.

Lemma space_not_j ws s : all_space ws → startswith ((ws ++ 123%N :: s)) (lit "json") = false.
Proof.
  intros Hws. destruct Hws as [|c ws Hc _].
  - by apply (startswith_head _ _ _ 106%N (lit "son")).
  - apply (startswith_head c _ _ 106%N (lit "son")); [done|]. by intros ->.
Qed.

(** X3: a JSON object reaches the parser as the same text whether the
    reply is the bare object, the object inside a code fence with any
    language tag on the fence line, or the object after a bare json tag;
    whitespace around any of them makes no difference. *)
Theorem fences_are_transparent (tag body ws1 ws2 mid : pystr) :
  NL ∉ tag → all_space ws1 → all_space ws2 →
  strip body = 123%N :: mid ++ [125%N] →
  cleaned body = strip body
  ∧ cleaned (ws1 ++ fenced tag body ++ ws2) = strip body
  ∧ cleaned (ws1 ++ (lit "json" ++ body) ++ ws2) = strip body.
Proof.
  intros Htag H1 H2 Hb. unfold cleaned.
  destruct (strip_decompose body) as (wl & wr & Hwl & Hwr & Hbody).
  rewrite Hb in Hbody. split; [|split].
  - rewrite Hb, strip_fences_plain by done. by apply strip_core0.
  - assert (strip (ws1 ++ fenced tag body ++ ws2) = fenced tag body) as ->.
    { unfold fenced.
      change (lit "```" ++ tag ++ [NL] ++ body ++ [NL] ++ lit "```")
        with (96%N :: (lit "``" ++ tag ++ [NL] ++ body ++ [NL] ++ lit "```")).
      replace (lit "``" ++ tag ++ [NL] ++ body ++ [NL] ++ lit "```")
        with ((lit "``" ++ tag ++ [NL] ++ body ++ [NL] ++ lit "``") ++ [96%N])
        by (by rewrite <- !app_assoc).
      by apply strip_core. }
    apply strip_fences_fenced; [done|]. rewrite Hbody.
    rewrite <- !app_assoc. cbn [app]. by apply space_not_j.
  - assert (strip (ws1 ++ (lit "json" ++ body) ++ ws2)
            = lit "json" ++ wl ++ 123%N :: mid ++ [125%N]) as ->.
    { rewrite Hbody.
      replace (ws1 ++ (lit "json" ++ wl ++ (123%N :: mid ++ [125%N]) ++ wr) ++ ws2)
        with (ws1 ++ (106%N :: (lit "son" ++ wl ++ 123%N :: mid) ++ [125%N])
                  ++ (wr ++ ws2)).
      - rewrite strip_core; [|done|by apply Forall_app|done|done].
        cbn [app]. by rewrite <- !app_assoc.
      - cbn [app]. rewrite <- !app_assoc. cbn [app]. by rewrite <- !app_assoc. }
    unfold strip_fences.
    change (lit "json" ++ wl ++ 123%N :: mid ++ [125%N])
      with (106%N :: lit "son" ++ wl ++ 123%N :: mid ++ [125%N]).
    rewrite (startswith_head 106%N (lit "son" ++ wl ++ 123%N :: mid ++ [125%N])
               (lit "```") 96%N (lit "``")) by done.
    cbv beta iota zeta.
    change (106%N :: lit "son" ++ wl ++ 123%N :: mid ++ [125%N])
      with (lit "json" ++ wl ++ 123%N :: mid ++ [125%N]).
    replace (lit "json" ++ wl ++ 123%N :: mid ++ [125%N])
      with ((lit "json" ++ wl ++ 123%N :: mid) ++ [125%N])
      by (by rewrite <- !app_assoc).
    rewrite (endswith_last _ 125%N (lit "```") (lit "``") 96%N) by done.
    replace ((lit "json" ++ wl ++ 123%N :: mid) ++ [125%N])
      with (lit "json" ++ (wl ++ (123%N :: mid ++ [125%N])))
      by (by rewrite <- !app_assoc).
    rewrite startswith_app.
    change 4 with (length (lit "json")). rewrite drop_app_length, Hb.
    pose proof (strip_core wl 123%N mid 125%N [] Hwl (Forall_nil_2 _) eq_refl eq_refl) as H.
    by rewrite app_nil_r in H.
Qed.

Lemma fences_are_transparent_witness :
  cleaned (lit "{}") = lit "{}"
  ∧ cleaned (fenced (lit "json") (lit "{}") ++ [NL]) = lit "{}"
  ∧ cleaned ((lit "json" ++ lit "{}") ++ [NL]) = lit "{}".
Proof.
  assert (NL ∉ lit "json") as Htag.
  { intros Hin. vm_compute in Hin.
    repeat (apply elem_of_cons in Hin as [Hin|Hin]; [done|]).
    by apply elem_of_nil in Hin. }
  assert (all_space []) as H1 by constructor.
  assert (all_space [NL]) as H2 by (by repeat constructor).
  destruct (fences_are_transparent (lit "json") (lit "{}") [] [NL] [] Htag H1 H2 eq_refl)
    as (Ha & Hb & Hc).
  split; [exact Ha|]. split; [exact Hb|]. exact Hc.
Defined.

(** ** The requests of the extractor *)



(** ** What a statement keeps and what it creates *)

Lemma node_kept_refl n : node_kept n n.
Proof. by repeat split. Qed.

Lemma node_kept_trans n1 n2 n3 : node_kept n1 n2 → node_kept n2 n3 → node_kept n1 n3.
Proof.
  intros (Hl1 & Hk1 & Hp1 & Hq1) (Hl2 & Hk2 & Hp2 & Hq2). repeat split.
  - congruence.
  - intros k Hk. rewrite Hk2, Hk1; done.
  - intros k Hk. by apply Hp2, Hp1.
  - intros Hs. rewrite <- (Hq1 Hs). apply Hq2. rewrite Hl1. done.
Qed.

Lemma rel_kept_refl r : rel_kept r r.
Proof. by repeat split. Qed.

Lemma rel_kept_trans r1 r2 r3 : rel_kept r1 r2 → rel_kept r2 r3 → rel_kept r1 r3.
Proof.
  intros (Ht1 & Hs1 & Hd1 & Hp1 & Hq1) (Ht2 & Hs2 & Hd2 & Hp2 & Hq2). repeat split.
  - congruence.
  - congruence.
  - congruence.
  - intros k Hk. by apply Hp2, Hp1.
  - intros Hq. rewrite <- (Hq1 Hq). apply Hq2. by rewrite Ht1.
Qed.

Lemma kept_refl g : kept g g.
Proof.
  split.
  - intros i n Hn. exists n. split; [done|apply node_kept_refl].
  - intros j r Hr. exists r. split; [done|apply rel_kept_refl].
Qed.

Lemma kept_trans g1 g2 g3 : kept g1 g2 → kept g2 g3 → kept g1 g3.
Proof.
  intros [Hn1 Hr1] [Hn2 Hr2]. split.
  - intros i n Hn. destruct (Hn1 i n Hn) as (n' & Hn' & Hk).
    destruct (Hn2 i n' Hn') as (n'' & Hn'' & Hk'). exists n''.
    split; [done|by eapply node_kept_trans].
  - intros j r Hr. destruct (Hr1 j r Hr) as (r' & Hr' & Hk).
    destruct (Hr2 j r' Hr') as (r'' & Hr'' & Hk'). exists r''.
    split; [done|by eapply rel_kept_trans].
Qed.

Lemma grows_refl ls ts g : grows ls ts g g.
Proof.
  split; [apply kept_refl|]. split.
  - intros i n Hn. left. by rewrite Hn.
  - intros j r Hr. left. by rewrite Hr.
Qed.

Lemma grows_trans ls ts g1 g2 g3 :
  grows ls ts g1 g2 → grows ls ts g2 g3 → grows ls ts g1 g3.
Proof.
  intros [Hk1 [Hn1 Hr1]] [Hk2 [Hn2 Hr2]]. split; [by eapply kept_trans|]. split.
  - intros i n3 Hi. destruct (Hn2 i n3 Hi) as [[n2 Hi2]|?]; [|by right].
    destruct (Hn1 i n2 Hi2) as [?|Hl]; [by left|right].
    destruct Hk2 as [Hk2 _]. destruct (Hk2 i n2 Hi2) as (n3' & Hi3 & Hl3 & _).
    assert (n3' = n3) as -> by congruence. by rewrite Hl3.
  - intros j r3 Hj. destruct (Hr2 j r3 Hj) as [[r2 Hj2]|?]; [|by right].
    destruct (Hr1 j r2 Hj2) as [?|Hl]; [by left|right].
    destruct Hk2 as [_ Hk2]. destruct (Hk2 j r2 Hj2) as (r3' & Hj3 & Hl3 & _).
    assert (r3' = r3) as -> by congruence. by rewrite Hl3.
Qed.

Lemma grows_weaken ls ts ls' ts' g g' :
  ls ⊆ ls' → ts ⊆ ts' → grows ls ts g g' → grows ls' ts' g g'.
Proof.
  intros Hls Hts [Hk [Hn Hr]]. split; [done|]. split.
  - intros i n Hi. destruct (Hn i n Hi); [by left|right; by apply Hls].
  - intros j r Hj. destruct (Hr j r Hj); [by left|right; by apply Hts].
Qed.

(** A [SET] of the pipeline on a node. *)
Lemma node_kept_apply p sets n :
  merge_pattern p → safe_sets sets →
  node_kept n (apply_write nprops put_node (node_write p sets) n).
Proof.
  intros (_ & Hs & Hq) (Hname & Hdesc & Hid). unfold apply_write. simpl.
  case_bool_decide as Hhas; [|apply node_kept_refl].
  destruct Hhas as [Hlab _]. unfold assign, put_node. repeat split; simpl.
  - intros k Hk. unfold key_properties in Hk.
    apply lookup_union_r.
    repeat (apply elem_of_cons in Hk as [->|Hk]; [done|]).
    by apply elem_of_nil in Hk.
  - intros k Hk. apply lookup_union_is_Some. by right.
  - intros [Hl|Hl]; congruence.
Qed.

Lemma rel_kept_apply ty rows sets r :
  ty ≠ QUOTED → rel_kept r (apply_write rprops put_rel (rel_write ty rows sets) r).
Proof.
  intros Hty. unfold apply_write. simpl.
  case_bool_decide as Hc; [|apply rel_kept_refl].
  destruct Hc as [Hrt _]. unfold assign, put_rel. repeat split; simpl.
  - intros k Hk. apply lookup_union_is_Some. by right.
  - congruence.
Qed.

(** One [MERGE ... SET ...] on the table of nodes. *)
Lemma upsert_node_grows p sets ns :
  merge_pattern p → safe_sets sets →
  (∀ i n, ns !! i = Some n →
     ∃ n', upsert_node p sets ns !! i = Some n' ∧ node_kept n n')
  ∧ (∀ i n', upsert_node p sets ns !! i = Some n' →
       is_Some (ns !! i) ∨ nlabel n' = pat_label p).
Proof.
  intros Hp Hs. split.
  - intros i n Hn. rewrite upsert_node_lookup.
    rewrite (lookup_weaken _ _ _ _ Hn (merge_node_subseteq p ns)). simpl.
    eexists. split; [done|]. by apply node_kept_apply.
  - intros i n' Hn'. rewrite upsert_node_lookup in Hn'.
    apply fmap_Some in Hn' as (n0 & Hn0 & ->). rewrite nlabel_apply.
    destruct (decide (present p ns)) as [Hpr|Hpr].
    + rewrite merge_node_nocreate in Hn0 by done. left. by rewrite Hn0.
    + rewrite merge_node_create in Hn0 by done.
      apply lookup_insert_Some in Hn0 as [[_ <-]|[_ Hn0]]; [by right|].
      left. by rewrite Hn0.
Qed.

Lemma merges_grow ms ns :
  Forall (λ m, merge_pattern m.1 ∧ safe_sets m.2) ms →
  (∀ i n, ns !! i = Some n →
     ∃ n', foldl (λ ns m, upsert_node m.1 m.2 ns) ns ms !! i = Some n' ∧ node_kept n n')
  ∧ (∀ i n', foldl (λ ns m, upsert_node m.1 m.2 ns) ns ms !! i = Some n' →
       is_Some (ns !! i) ∨ nlabel n' ∈ pat_label <$> ms.*1).
Proof.
  intros Hms. revert ns. induction Hms as [|m ms [Hp Hs] _ IH]; intros ns.
  - split; [intros i n Hn; exists n; split; [done|apply node_kept_refl]|].
    intros i n Hn. left. simpl in Hn. by rewrite Hn.
  - destruct (upsert_node_grows m.1 m.2 ns Hp Hs) as [Hk Hn].
    destruct (IH (upsert_node m.1 m.2 ns)) as [IHk IHn]. cbn [foldl]. split.
    + intros i n Hi. destruct (Hk i n Hi) as (n1 & Hi1 & Hk1).
      destruct (IHk i n1 Hi1) as (n' & Hi' & Hk'). exists n'.
      split; [done|by eapply node_kept_trans].
    + intros i n' Hi'. rewrite !fmap_cons.
      destruct (IHn i n' Hi') as [[n1 Hi1]|Hl]; [|right; by right].
      destruct (Hn i n1 Hi1) as [?|Hl]; [by left|right].
      destruct (IHk i n1 Hi1) as (n2 & Hi2 & Hl2 & _).
      assert (n2 = n') as -> by congruence. rewrite Hl2, Hl. left.
Qed.

Lemma upsert_rels_grows ty rows sets rs :
  ty ≠ QUOTED →
  (∀ j r, rs !! j = Some r →
     ∃ r', upsert_rels ty rows sets rs !! j = Some r' ∧ rel_kept r r')
  ∧ (∀ j r', upsert_rels ty rows sets rs !! j = Some r' →
       is_Some (rs !! j) ∨ rtype r' = ty).
Proof.
  intros Hty. split.
  - intros j r Hj. unfold upsert_rels. rewrite lookup_fmap.
    rewrite (lookup_weaken _ _ _ _ Hj (merge_rows_subseteq ty rows rs)). simpl.
    eexists. split; [done|]. by apply rel_kept_apply.
  - intros j r' Hj. apply upsert_rels_lookup in Hj
      as (r0 & -> & [Hj|(_ & row & _ & -> & _)]).
    + left. by rewrite Hj.
    + right. by rewrite rtype_apply.
Qed.

Lemma shape_creates now q u :
  shape now q = Some u →
  pat_label <$> (u_merges u).*1 = (creates q).1 ∧ [u_type u] = (creates q).2.
Proof. destruct q; intros [= <-]; done. Qed.

(** One statement keeps what the graph holds and creates only what its
    text says. *)
Lemma exec_grows now q g : grows (creates q).1 (creates q).2 g (exec now q g).
Proof.
  destruct (shape now q) as [u|] eqn:Hu.
  - destruct (exec_shape _ _ _ g Hu) as (rows & Hn & Hr & _).
    pose proof (shape_wf _ _ _ Hu) as (Hms & _ & _ & Hty).
    destruct (shape_creates _ _ _ Hu) as (Hcl & Hct). rewrite <- Hcl, <- Hct.
    destruct (merges_grow (u_merges u) (nodes g) Hms) as [Hk Hnew].
    destruct (upsert_rels_grows (u_type u) rows (u_rsets u) (rels g) Hty) as [Hrk Hrnew].
    unfold nodes_step in Hn. split; split.
    + intros i n Hi. rewrite Hn. by apply Hk.
    + intros j r Hj. rewrite Hr. by apply Hrk.
    + intros i n Hi. rewrite Hn in Hi. by apply Hnew.
    + intros j r Hj. rewrite Hr in Hj.
      destruct (Hrnew j r Hj) as [?| ->]; [by left|right; left].
  - destruct q as [| | | | | |sid qtext qcontext qsentiment testimonial| |];
      try discriminate; try apply grows_refl.
    simpl. rewrite quote_query_fold.
    destruct (create_quotes_spec
                (quote_props now qtext qcontext qsentiment testimonial)
                (match_ids (Pat Session "id" (VStr sid)) (nodes g)) g)
      as ((Hns & Hrs & Hqn & Hqr) & _).
    split; split.
    + intros i n Hi. exists n. split; [|apply node_kept_refl].
      by eapply lookup_weaken.
    + intros j r Hj. exists r. split; [|apply rel_kept_refl].
      by eapply lookup_weaken.
    + intros i n Hi. destruct (Hqn i n Hi) as [Hold| ->]; [|right; left].
      left. by rewrite Hold.
    + intros j r Hj. destruct (Hqr j r Hj) as [Hold| ->]; [|right; left].
      left. by rewrite Hold.
Qed.

Lemma creates_sync q :
  (creates q).1 ⊆ sync_labels ∧ (creates q).2 ⊆ sync_types.
Proof.
  unfold sync_labels, sync_types.
  destruct q; simpl; split; intros x Hx;
    repeat (apply elem_of_cons in Hx as [->|Hx]; [by repeat constructor|]);
    by apply elem_of_nil in Hx.
Qed.

Lemma run_queries_grows env ls ts qs n g :
  Forall (λ q, (creates q).1 ⊆ ls ∧ (creates q).2 ⊆ ts) qs →
  grows ls ts g (run_queries env n qs g).
Proof.
  intros Hqs. revert n g. induction Hqs as [|q qs [Hl Ht] _ IH]; intros n g.
  - apply grows_refl.
  - simpl. eapply grows_trans; [|apply IH].
    eapply grows_weaken; [done|done|apply exec_grows].
Qed.

(** ** The synchronizer and the availability of the store *)

Lemma send_all_upto env qs w :
  (∀ i, i < length qs → neo4j_up env (length (sent w) + i) = true) →
  ∃ w', send_all env qs w = (Ok tt, w').
Proof.
  revert w. induction qs as [|q qs IH]; intros w Hup; [by eexists|].
  unfold send_all. simpl. run_m. unfold session_run.
  pose proof (Hup 0 ltac:(simpl; lia)) as H0. rewrite Nat.add_0_r in H0.
  rewrite H0. apply IH. simpl. intros i Hi. rewrite length_app. simpl.
  replace (length (sent w) + 1 + i) with (length (sent w) + S i) by lia.
  apply Hup. simpl. lia.
Qed.

Lemma send_all_fail env qs w k :
  k < length qs →
  (∀ i, i < k → neo4j_up env (length (sent w) + i) = true) →
  neo4j_up env (length (sent w) + k) = false →
  ∃ w', send_all env qs w = (Raise (Exception ServiceUnavailable), w')
        ∧ graph w' = run_queries env (length (sent w)) (take k qs) (graph w)
        ∧ sent w' = sent w ++ take (S k) qs
        ∧ llm_calls w' = llm_calls w
        ∧ logs w' = logs w.
Proof.
  revert w k. induction qs as [|q qs IH]; intros w k Hk Hup Hdown;
    [simpl in Hk; lia|].
  unfold send_all. simpl for_each. run_m. unfold session_run.
  destruct k as [|k].
  - rewrite Nat.add_0_r in Hdown. rewrite Hdown. by eexists.
  - pose proof (Hup 0 ltac:(lia)) as H0. rewrite Nat.add_0_r in H0. rewrite H0.
    destruct (IH (add_sent q (exec (neo4j_clock env (length (sent w))) q (graph w)) w) k)
      as (w' & Hr & Hg & Hs & Hl & Hlog).
    + simpl in Hk. lia.
    + intros i Hi. simpl. rewrite length_app. simpl.
      replace (length (sent w) + 1 + i) with (length (sent w) + S i) by lia.
      apply Hup. lia.
    + simpl. rewrite length_app. simpl.
      by replace (length (sent w) + 1 + k) with (length (sent w) + S k) by lia.
    + exists w'. split; [exact Hr|]. simpl in *.
      rewrite length_app in Hg. simpl in Hg. rewrite Nat.add_1_r in Hg.
      rewrite Hg, Hs, <- app_assoc. done.
Qed.

Lemma send_all_prefix env qs w r w' :
  send_all env qs w = (r, w') →
  ∃ k, graph w' = run_queries env (length (sent w)) (take k qs) (graph w).
Proof.
  revert w. induction qs as [|q qs IH]; intros w.
  - intros [= <- <-]. by exists 0.
  - unfold send_all. simpl for_each. run_m. unfold session_run.
    destruct (neo4j_up env (length (sent w))).
    + intros H. apply IH in H as [k Hk]. exists (S k). simpl in *.
      rewrite length_app in Hk. simpl in Hk. by rewrite Nat.add_1_r in Hk.
    + intros [= <- <-]. by exists 0.
Qed.

(** X6: the synchronizer succeeds exactly when the store answers each of
    its statements.  When the store stops answering at one of them, the
    error reaches the caller, the statements sent before it have been
    applied and stay applied (nothing is rolled back), no later
    statement is sent, and the line that reports the synchronization is
    not logged. *)
Theorem sync_stops_without_rollback (env : Env) (e : SessionExtraction) (w : World) :
  ((∀ i, i < length (sync_queries e) → neo4j_up env (length (sent w) + i) = true) →
   ∃ w', sync_extraction_to_graph env e w = (Ok tt, w')
         ∧ graph w' = run_queries env (length (sent w)) (sync_queries e) (graph w)
         ∧ sent w' = sent w ++ sync_queries e
         ∧ logs w' = logs w ++ [synced_line e])
  ∧ (∀ k, k < length (sync_queries e) →
       (∀ i, i < k → neo4j_up env (length (sent w) + i) = true) →
       neo4j_up env (length (sent w) + k) = false →
       ∃ w', sync_extraction_to_graph env e w
             = (Raise (Exception ServiceUnavailable), w')
             ∧ graph w' = run_queries env (length (sent w))
                            (take k (sync_queries e)) (graph w)
             ∧ sent w' = sent w ++ take (S k) (sync_queries e)
             ∧ logs w' = logs w).
Proof.
  split.
  - intros Hup. rewrite sync_send_all, M_seq.
    destruct (send_all_upto env (sync_queries e) w Hup) as [w1 Hs]. rewrite Hs.
    apply send_all_inv in Hs as (Hg & Hsent & _ & Hlog).
    eexists. split; [done|]. simpl. by rewrite Hg, Hsent, Hlog.
  - intros k Hk Hup Hdown. rewrite sync_send_all, M_seq.
    destruct (send_all_fail env (sync_queries e) w k Hk Hup Hdown)
      as (w' & -> & Hg & Hs & _ & Hlog).
    by exists w'.
Qed.

Lemma sync_stops_without_rollback_witness :
  ∃ w', sync_extraction_to_graph
          (env_store_up_for 1 [] (Failure LLMError)) extraction_with_quote
          (start (graph_with_session (lit "s1")))
        = (Raise (Exception ServiceUnavailable), w')
        ∧ count_label Tool (graph w') = 1
        ∧ count_label Quote (graph w') = 0
        ∧ length (sent w') = 2.
Proof.
  destruct (proj2 (sync_stops_without_rollback
                     (env_store_up_for 1 [] (Failure LLMError)) extraction_with_quote
                     (start (graph_with_session (lit "s1")))) 1)
    as (w' & Hr & Hg & Hs & _).
  - simpl. lia.
  - intros i Hi. by replace i with 0 by lia.
  - reflexivity.
  - exists w'. split; [exact Hr|]. rewrite Hg, Hs. by vm_compute.
Defined.

(** X7: whatever the outcome, the synchronizer deletes nothing and
    creates only what its statements name.  Every node of the graph is
    still there under its identity, with its label, its key properties
    (name, description, id) and at least the properties it had; Session
    and Quote nodes are exactly as they were.  Every relationship is
    still there with its type and its end nodes, and QUOTED
    relationships are exactly as they were.  A new node is a Theme,
    ScoringDimension, Tool, PainPoint, Goal or Quote node, never a
    Session node, and a new relationship has one of the six types of the
    statements. *)
Theorem sync_never_deletes (env : Env) (e : SessionExtraction) (w : World) :
  grows sync_labels sync_types (graph w)
        (graph (snd (sync_extraction_to_graph env e w))).
Proof.
  rewrite sync_send_all, M_seq.
  destruct (send_all env (sync_queries e) w) as [r w1] eqn:Hs.
  destruct (send_all_prefix _ _ _ _ _ Hs) as [k Hk].
  assert (graph (snd (match r with
                      | Ok _ => log (synced_line e) w1
                      | Raise e0 => (Raise e0, w1)
                      end)) = graph w1) as -> by by destruct r.
  rewrite Hk. apply run_queries_grows.
  apply Forall_forall. intros q _. apply creates_sync.
Qed.

(** ** The sessions that count as processed *)

Lemma elem_of_processed_query g v : v ∈ processed_query g ↔ surfaced_id g v.
Proof.
  unfold processed_query, surfaced_id. rewrite elem_of_remove_dups. split.
  - intros Hin. apply list_elem_of_bind in Hin as ([j r] & Hin & Hjr).
    apply elem_of_map_to_list in Hjr. simpl in Hin.
    destruct (decide (rtype r = SURFACED)) as [Hty|]; [|by apply elem_of_nil in Hin].
    destruct (nodes g !! rsrc r) as [s|] eqn:Hs; [|by apply elem_of_nil in Hin].
    destruct (nodes g !! rdst r) as [t|] eqn:Ht; [|by apply elem_of_nil in Hin].
    destruct (decide (nlabel s = Session ∧ nlabel t = Theme)) as [[Hls Hlt]|];
      [|by apply elem_of_nil in Hin].
    apply list_elem_of_singleton in Hin. by exists j, r, s, t.
  - intros (j & r & s & t & Hj & Hty & Hs & Hls & Ht & Hlt & ->).
    apply list_elem_of_bind. exists (j, r). split; [|by apply elem_of_map_to_list].
    simpl. rewrite decide_True by done. rewrite Hs, Ht.
    rewrite decide_True by done. left.
Qed.

(** What grows without a Session node, a Theme node or a SURFACED
    relationship surfaces the same ids. *)
Lemma grows_surfaced ls ts g g' v :
  grows ls ts g g' → Session ∉ ls → Theme ∉ ls → SURFACED ∉ ts →
  surfaced_id g' v ↔ surfaced_id g v.
Proof.
  intros [[Hnk Hrk] [Hnn Hrn]] HS HT HR. split.
  - intros (j & r' & s' & t' & Hj & Hty & Hs & Hls & Ht & Hlt & ->).
    destruct (Hrn j r' Hj) as [[r Hjr]|Hnew]; [|congruence].
    destruct (Hrk j r Hjr) as (r'' & Hj'' & Hrt & Hrs & Hrd & _).
    assert (r'' = r') as -> by congruence.
    destruct (Hnn _ s' Hs) as [[s Hs0]|Hnew]; [|congruence].
    destruct (Hnk _ s Hs0) as (s'' & Hs'' & Hl1 & Hk1 & _).
    assert (s'' = s') as -> by congruence.
    destruct (Hnn _ t' Ht) as [[t Ht0]|Hnew]; [|congruence].
    destruct (Hnk _ t Ht0) as (t'' & Ht'' & Hl2 & _).
    assert (t'' = t') as -> by congruence.
    exists j, r, s, t. rewrite <- Hrs, <- Hrd. repeat split; try congruence.
    apply Hk1. unfold key_properties. set_solver.
  - intros (j & r & s & t & Hj & Hty & Hs & Hls & Ht & Hlt & ->).
    destruct (Hrk j r Hj) as (r' & Hj' & Hrt & Hrs & Hrd & _).
    destruct (Hnk _ s Hs) as (s' & Hs' & Hl1 & Hk1 & _).
    destruct (Hnk _ t Ht) as (t' & Ht' & Hl2 & _).
    exists j, r', s', t'. rewrite Hrs, Hrd. repeat split; try congruence.
    symmetry. apply Hk1. unfold key_properties. set_solver.
Qed.

Lemma themeless_creates e :
  themes e = [] →
  Forall (λ q, (creates q).1 ⊆ [Tool; PainPoint; Goal; Quote]
               ∧ (creates q).2 ⊆ [USES_TOOL; HAS_PAIN_POINT; HAS_GOAL; QUOTED])
         (sync_queries e).
Proof.
  intros Hth. unfold sync_queries. rewrite Hth. simpl.
  rewrite !Forall_app. repeat split; apply Forall_fmap, Forall_forall; intros x _;
    simpl; split; intros y Hy; apply list_elem_of_singleton in Hy as ->;
    by repeat constructor.
Qed.

(** X8: a session is told to be processed by its SURFACED relationships
    alone, and only the statement of a theme creates one: synchronizing
    an extraction without themes leaves the set of processed ids as it
    was, whatever else the extraction holds and whatever the outcome. *)
Theorem sync_without_themes_marks_nothing (env : Env) (e : SessionExtraction)
    (w : World) (v : option Value) :
  themes e = [] →
  v ∈ processed_query (graph (snd (sync_extraction_to_graph env e w)))
  ↔ v ∈ processed_query (graph w).
Proof.
  intros Hth. rewrite !elem_of_processed_query.
  rewrite sync_send_all, M_seq.
  destruct (send_all env (sync_queries e) w) as [r w1] eqn:Hs.
  destruct (send_all_prefix _ _ _ _ _ Hs) as [k Hk].
  assert (graph (snd (match r with
                      | Ok _ => log (synced_line e) w1
                      | Raise e0 => (Raise e0, w1)
                      end)) = graph w1) as -> by by destruct r.
  rewrite Hk.
  apply (grows_surfaced [Tool; PainPoint; Goal; Quote]
           [USES_TOOL; HAS_PAIN_POINT; HAS_GOAL; QUOTED]).
  - apply run_queries_grows, Forall_take. by apply themeless_creates.
  - intros Hin. repeat (apply elem_of_cons in Hin as [?|Hin]; [done|]).
    by apply elem_of_nil in Hin.
  - intros Hin. repeat (apply elem_of_cons in Hin as [?|Hin]; [done|]).
    by apply elem_of_nil in Hin.
  - intros Hin. repeat (apply elem_of_cons in Hin as [?|Hin]; [done|]).
    by apply elem_of_nil in Hin.
Qed.

Lemma sync_without_themes_marks_nothing_witness :
  (Some (VStr (lit "s1"))
     ∈ processed_query
         (graph (snd (sync_extraction_to_graph
                        (env_of [] (Failure LLMError) (Failure LLMError) None)
                        extraction_with_quote (start (graph_with_session (lit "s1")))))))
  ↔ Some (VStr (lit "s1")) ∈ processed_query (graph_with_session (lit "s1")).
Proof.
  exact (sync_without_themes_marks_nothing
           (env_of [] (Failure LLMError) (Failure LLMError) None)
           extraction_with_quote (start (graph_with_session (lit "s1")))
           (Some (VStr (lit "s1"))) eq_refl).
Defined.

(** ** The links a synchronization leaves *)

Lemma twin_link u u' : twin u u' → u_link u' = u_link u.
Proof. intros (_ & Hty & Hs & Hd & _). unfold u_link. by rewrite Hty, Hs, Hd. Qed.

Lemma link_shape env n qs q u0 l :
  q ∈ qs → shape 0 q = Some u0 → u_link u0 = l →
  ∃ u, u ∈ shapes env n qs ∧ u_link u = l.
Proof.
  intros Hq Hu0 <-. destruct (shapes_elem env qs n q u0 Hq Hu0) as (u & Hu & Htw).
  exists u. split; [done|]. by apply twin_link.
Qed.

(** Every link of the extraction is the link of a statement of the run. *)
Lemma links_shapes env n e l :
  l ∈ links e → ∃ u, u ∈ shapes env n (merge_queries e) ∧ u_link u = l.
Proof.
  unfold links, merge_queries. rewrite !elem_of_app.
  intros [Hl|[Hl|[Hl|Hl]]].
  - apply list_elem_of_bind in Hl as (t & Hl & Ht).
    apply elem_of_cons in Hl as [->|Hl].
    + eapply (link_shape _ _ _ (QTheme _ _ _ _ _ _)); [|reflexivity|reflexivity].
      apply elem_of_app. left. apply list_elem_of_bind. exists t.
      split; [left|done].
    + apply list_elem_of_fmap in Hl as (d & -> & Hd).
      eapply (link_shape _ _ _ (QDimension (theme_name t) d)); [|reflexivity|reflexivity].
      apply elem_of_app. left. apply list_elem_of_bind. exists t.
      split; [|done]. right. apply list_elem_of_fmap. by exists d.
  - apply list_elem_of_fmap in Hl as (t & -> & Ht).
    eapply (link_shape _ _ _ (tool_statement (session_id e) t)); [|reflexivity|reflexivity].
    apply elem_of_app. right. apply elem_of_app. left.
    apply list_elem_of_fmap. by exists t.
  - apply list_elem_of_fmap in Hl as (t & -> & Ht).
    eapply (link_shape _ _ _ (pain_point_statement (session_id e) t)); [|reflexivity|reflexivity].
    apply elem_of_app. right. apply elem_of_app. right. apply elem_of_app. left.
    apply list_elem_of_fmap. by exists t.
  - apply list_elem_of_fmap in Hl as (t & -> & Ht).
    eapply (link_shape _ _ _ (goal_statement (session_id e) t)); [|reflexivity|reflexivity].
    apply elem_of_app. right. apply elem_of_app. right. apply elem_of_app. right.
    apply list_elem_of_fmap. by exists t.
Qed.

(** After one run every link of the extraction is in the graph, and the
    patterns at its two ends are such that no later statement changes
    the nodes they match. *)
Lemma sync_run_links env e n g l :
  l ∈ links e →
  let g1 := run_queries env n (sync_queries e) g in
  linked g1 l
  ∧ present l.2 (nodes g1)
  ∧ keyed l.1.2 ∧ pat_label l.1.2 ≠ Quote
  ∧ keyed l.2 ∧ pat_label l.2 ≠ Quote
  ∧ (present l.1.2 (nodes g1) ∨ pat_label l.1.2 = Session).
Proof.
  intros Hl g1. destruct (links_shapes env n e l Hl) as (u & Hu & <-).
  destruct (sync_run_inv env e n g) as (Hwf & [Hpres Hcov] & _). fold g1 in Hpres, Hcov.
  rewrite Forall_forall in Hwf. pose proof (Hwf u Hu) as Hu_wf.
  pose proof Hu_wf as (Hms & Hdst & Hsrc & _).
  rewrite Forall_forall in Hms.
  assert (∀ p, p ∈ (u_merges u).*1 → present p (nodes g1) ∧ merge_pattern p) as Hin.
  { intros p Hp. apply list_elem_of_fmap in Hp as (m & -> & Hm). split.
    - apply Hpres. by eapply merges_of_elem.
    - by apply (Hms m Hm). }
  destruct (Hin _ Hdst) as [Hpd Hmd]. unfold u_link. simpl.
  split; [intros a b; by apply Hcov|]. split; [done|].
  split; [by apply wf_src_keyed|]. split; [by apply wf_src_not_quote|].
  split; [by apply merge_pattern_keyed|]. split; [by destruct Hmd as (_ & _ & ?)|].
  destruct Hsrc as [Hs|[Hs _]]; [left; by apply Hin|by right].
Qed.

(** X9: after a synchronization that succeeds, every Session node with
    the id of the extraction has a relationship of the right type to
    every node of each theme, tool, pain point and goal of the
    extraction, every Theme node of a theme has a RELATES_TO relationship
    to every node of each of its dimensions, and each of these entities
    has a node. *)
Theorem sync_links_session_to_entities (env : Env) (e : SessionExtraction) (w : World) :
  reachable_from env (length (sent w)) →
  ∃ w', sync_extraction_to_graph env e w = (Ok tt, w')
        ∧ ∀ l, l ∈ links e → linked (graph w') l ∧ present l.2 (nodes (graph w')).
Proof.
  intros Hup. destruct (sync_ok env e w Hup) as [w' Hs]. exists w'.
  split; [done|]. apply sync_inv in Hs as (Hg & _). rewrite Hg.
  intros l Hl. destruct (sync_run_links env e (length (sent w)) (graph w) l Hl)
    as (Hlink & Hpres & _).
  done.
Qed.

Lemma sync_links_session_to_entities_witness :
  ∃ w', sync_extraction_to_graph
          (env_of [] (Failure LLMError) (Failure LLMError) None)
          extraction_with_theme (start (graph_with_session (lit "s1"))) = (Ok tt, w')
        ∧ linked (graph w')
            (USES_TOOL, Pat Session "id" (VStr (lit "s1")),
             Pat Tool "name" (VStr (lit "ChatGPT")))
        ∧ linked (graph w')
            (RELATES_TO, Pat Theme "name" (VStr (lit "adoption")),
             Pat ScoringDimension "name" (VStr (lit "ai_action"))).
Proof.
  destruct (sync_links_session_to_entities
              (env_of [] (Failure LLMError) (Failure LLMError) None)
              extraction_with_theme (start (graph_with_session (lit "s1")))
              (λ k _, eq_refl)) as (w' & Hs & Hl).
  exists w'. split; [exact Hs|]. split.
  - apply Hl. unfold links. simpl. right. right. left.
  - apply Hl. unfold links. simpl. right. left.
Defined.

Lemma present_count p g : 0 < count_matches p g ↔ present p (nodes g).
Proof.
  unfold count_matches. split; [|apply length_match_ids_pos].
  intros Hpos. destruct (match_ids p (nodes g)) as [|i ids] eqn:Hm; [simpl in Hpos; lia|].
  exists i. apply elem_of_match_ids. rewrite Hm. left.
Qed.

(** X10: once an extraction with a theme is synchronized for a session
    that has a node, the id of the session is among the processed ids,
    so a later run without flags leaves the session out. *)
Theorem sync_marks_processed (env : Env) (e : SessionExtraction) (w : World) :
  reachable_from env (length (sent w)) →
  themes e ≠ [] →
  0 < session_nodes e (graph w) →
  ∃ w', sync_extraction_to_graph env e w = (Ok tt, w')
        ∧ Some (VStr (session_id e)) ∈ processed_query (graph w').
Proof.
  intros Hup Hth Hses. destruct (sync_ok env e w Hup) as [w' Hs]. exists w'.
  split; [done|]. apply sync_inv in Hs as (Hg & _). rewrite Hg.
  destruct (themes e) as [|t ths] eqn:Het; [done|].
  set (l := (SURFACED, Pat Session "id" (VStr (session_id e)),
             Pat Theme "name" (VStr (theme_name t)))).
  assert (l ∈ links e) as Hl.
  { unfold links. rewrite Het. simpl. left. }
  destruct (sync_run_links env e (length (sent w)) (graph w) l Hl)
    as (Hlink & [b Hb] & _).
  destruct (sync_run_quotes env e (length (sent w)) (graph w)) as (_ & _ & Hk).
  rewrite <- Hk in Hses. apply present_count in Hses as [a Ha].
  destruct (Hlink a b Ha Hb) as (j & r & Hj & Hty & Hsrc & Hdst).
  simpl in Hty, Hsrc, Hdst.
  destruct Ha as (s & Hs & Hls & Hid). destruct Hb as (th & Hth' & Hlt & _).
  simpl in Hls, Hid, Hlt.
  apply elem_of_processed_query. exists j, r, s, th.
  rewrite Hsrc, Hdst. by repeat split.
Qed.

Lemma sync_marks_processed_witness :
  ∃ w', sync_extraction_to_graph
          (env_of [] (Failure LLMError) (Failure LLMError) None)
          extraction_with_theme (start (graph_with_session (lit "s1"))) = (Ok tt, w')
        ∧ Some (VStr (lit "s1")) ∈ processed_query (graph w').
Proof.
  apply (sync_marks_processed
           (env_of [] (Failure LLMError) (Failure LLMError) None)
           extraction_with_theme (start (graph_with_session (lit "s1")))
           (λ k _, eq_refl)).
  - discriminate.
  - vm_compute. lia.
Defined.

(** ** Links and later synchronizations *)






(** ** What a run never removes *)

Lemma only_adds_ret {A} (a : A) : only_adds (mret a : M A).
Proof. intros w. apply grows_refl. Qed.

Lemma only_adds_raise {A} e : only_adds (raise e : M A).
Proof. intros w. apply grows_refl. Qed.

Lemma only_adds_log l : only_adds (log l).
Proof. intros w. apply grows_refl. Qed.

Lemma only_adds_get_graph : only_adds get_graph.
Proof. intros w. apply grows_refl. Qed.

Lemma only_adds_of_res {A} (r : res A) : only_adds (of_res r).
Proof. intros w. apply grows_refl. Qed.

Lemma only_adds_bind {A B} (m : M A) (k : A → M B) :
  only_adds m → (∀ a, only_adds (k a)) → only_adds (m ≫= k).
Proof.
  intros Hm Hk w. rewrite M_bind_app. specialize (Hm w).
  destruct (m w) as [[a|e] w1]; [|done].
  eapply grows_trans; [exact Hm|apply Hk].
Qed.

Lemma only_adds_try {A} (body handler : M A) :
  only_adds body → only_adds handler → only_adds (try_except body handler).
Proof.
  intros Hb Hh w. unfold try_except. specialize (Hb w).
  destruct (body w) as [[a|[e|c]] w1]; [done| |done].
  eapply grows_trans; [exact Hb|apply Hh].
Qed.

Lemma only_adds_session_run env q : only_adds (session_run env q).
Proof.
  intros w. unfold session_run.
  destruct (neo4j_up env (length (sent w))); simpl; [|apply grows_refl].
  destruct (creates_sync q) as [Hl Ht].
  eapply grows_weaken; [exact Hl|exact Ht|apply exec_grows].
Qed.

Lemma only_adds_extract env session : only_adds (extract_intelligence env session).
Proof.
  intros w. destruct (extract_trace env session w) as (r & w' & ? & ? & Hr & Hg & _).
  rewrite Hr. simpl. rewrite Hg. apply grows_refl.
Qed.

Lemma only_adds_for_each {A} (xs : list A) (body : A → M unit) :
  (∀ x, only_adds (body x)) → only_adds (for_each xs body).
Proof.
  intros Hb. induction xs as [|x xs IH]; simpl.
  - apply only_adds_ret.
  - apply only_adds_bind; [apply Hb|by intros _].
Qed.

Lemma only_adds_sync env e : only_adds (sync_extraction_to_graph env e).
Proof.
  unfold sync_extraction_to_graph.
  repeat (apply only_adds_bind; [|intros _]);
    try (apply only_adds_for_each; intros x); try apply only_adds_log;
    try apply only_adds_session_run.
  apply only_adds_bind; [apply only_adds_session_run|intros _].
  apply only_adds_for_each. intros d. apply only_adds_session_run.
Qed.

Lemma only_adds_process env sessions i n c :
  only_adds (process_sessions env i n sessions c).
Proof.
  revert i c. induction sessions as [|row rest IH]; intros i c.
  - apply only_adds_ret.
  - cbn [process_sessions].
    apply only_adds_bind; [apply only_adds_of_res|intros p].
    apply only_adds_bind; [apply only_adds_log|intros _].
    apply only_adds_bind; [apply only_adds_extract|intros r].
    apply only_adds_bind; [|intros c'; apply IH].
    destruct r as [e|].
    + apply only_adds_bind; [apply only_adds_sync|intros _; apply only_adds_ret].
    + apply only_adds_bind; [apply only_adds_log|intros _; apply only_adds_ret].
Qed.

Lemma only_adds_fetch env session : only_adds (fetch_analyzed_sessions env session).
Proof.
  unfold fetch_analyzed_sessions.
  destruct (supabase_up env); [|apply only_adds_raise].
  apply only_adds_bind; [apply only_adds_log|intros _; apply only_adds_ret].
Qed.

Lemma only_adds_main env reprocess session : only_adds (main env reprocess session).
Proof.
  unfold main.
  apply only_adds_bind; [apply only_adds_log|intros _].
  apply only_adds_bind; [|intros _].
  { apply only_adds_try.
    - apply only_adds_bind; [apply only_adds_session_run|intros _; apply only_adds_log].
    - apply only_adds_bind; [apply only_adds_log|intros _; apply only_adds_raise]. }
  apply only_adds_bind; [apply only_adds_fetch|intros sessions].
  destruct sessions as [|row rest]; [apply only_adds_log|].
  apply only_adds_bind.
  { destruct (negb reprocess && negb (from_option truthy false session));
      [|apply only_adds_ret].
    apply only_adds_bind.
    - unfold get_processed_session_ids.
      apply only_adds_bind; [apply only_adds_session_run|intros _].
      apply only_adds_bind; [apply only_adds_get_graph|intros g; apply only_adds_ret].
    - intros ids. apply only_adds_bind; [apply only_adds_log|intros _; apply only_adds_ret]. }
  intros sessions. destruct sessions as [|row' rest']; [apply only_adds_log|].
  apply only_adds_bind; [apply only_adds_process|intros c].
  apply only_adds_bind; [apply only_adds_log|intros _].
  apply only_adds_bind; [apply only_adds_session_run|intros _].
  apply only_adds_bind; [apply only_adds_get_graph|intros g].
  destruct (totals_query g); [apply only_adds_log|apply only_adds_ret].
Qed.

Lemma kept_surfaced g g' v : kept g g' → surfaced_id g v → surfaced_id g' v.
Proof.
  intros [Hnk Hrk] (j & r & s & t & Hj & Hty & Hs & Hls & Ht & Hlt & ->).
  destruct (Hrk j r Hj) as (r' & Hj' & Hrt & Hrs & Hrd & _).
  destruct (Hnk _ s Hs) as (s' & Hs' & _ & _ & _ & Hsame).
  destruct (Hnk _ t Ht) as (t' & Ht' & Hlt' & _).
  assert (s' = s) as -> by (apply Hsame; by left).
  exists j, r', s, t'. rewrite Hrs, Hrd, Hrt, Hlt'. done.
Qed.

(** X15: whatever the store, the source table and the LLM clients answer
    or fail with, and whether main returns, exits or dies of an uncaught
    error, a run of main deletes nothing from the graph.  Every node is
    still there under its identity with its label, its key properties and
    at least the properties it had, Session and Quote nodes exactly as
    they were; every relationship is still there with its type and its end
    nodes; a new node is never a Session node, and a new relationship has
    one of the six types the synchronizer writes. *)
Theorem main_never_deletes (env : Env) (reprocess : bool) (session : option pystr)
    (w : World) :
  grows sync_labels sync_types (graph w) (graph (main env reprocess session w).2).
Proof. apply only_adds_main. Qed.

(** X16: a session that counts as processed before a run of main still
    does after it, whatever happens during the run; so the sessions a
    later run without flags is left with are among those an earlier one
    was left with, for the same source table. *)
Theorem processed_stays_processed (env : Env) (reprocess : bool)
    (session : option pystr) (w : World) :
  Forall (λ v, v ∈ processed_query (graph (main env reprocess session w).2))
         (processed_query (graph w))
  ∧ Forall (λ s, s ∈ to_process env false None (graph w))
           (to_process env false None (graph (main env reprocess session w).2)).
Proof.
  assert (∀ v, v ∈ processed_query (graph w) →
               v ∈ processed_query (graph (main env reprocess session w).2)) as Hmono.
  { intros v. rewrite !elem_of_processed_query. apply kept_surfaced.
    apply (only_adds_main env reprocess session w). }
  split; apply Forall_forall.
  - exact Hmono.
  - intros s. unfold to_process. simpl. rewrite !list_elem_of_filter.
    intros [Hn Hin]. split; [|done]. intros Hp. apply Hn, Hmono, Hp.
Qed.

(** X17: the pipeline creates no Session node, so only a session that
    already has a Session node in the graph can come to count as
    processed: after any run of main, whatever fails during it, every
    processed id is the id of a Session node that was in the graph before
    the run. *)
Theorem processed_needs_session_node (env : Env) (reprocess : bool)
    (session : option pystr) (w : World) :
  Forall (session_with_id (graph w))
         (processed_query (graph (main env reprocess session w).2)).
Proof.
  apply Forall_forall. intros v Hv. apply elem_of_processed_query in Hv.
  destruct Hv as (j & r & s & t & Hj & Hty & Hs & Hls & Ht & Hlt & ->).
  destruct (only_adds_main env reprocess session w) as [[Hnk _] [Hnn _]].
  destruct (Hnn _ s Hs) as [[s0 Hs0]|Hnew].
  - destruct (Hnk _ s0 Hs0) as (s' & Hs' & Hl & _ & _ & Hsame).
    assert (s' = s) as -> by congruence.
    assert (nlabel s0 = Session) as Hl0 by congruence.
    assert (s = s0) as -> by (apply Hsame; by left).
    by exists (rsrc r), s0.
  - rewrite Hls in Hnew. unfold sync_labels in Hnew.
    repeat (apply elem_of_cons in Hnew as [?|Hnew]; [done|]).
    by apply elem_of_nil in Hnew.
Qed.

(** ** Statements the store refuses *)

Lemma fail_fast_ret {A} env (a : A) : fail_fast env (mret a : M A).
Proof. by intros w Hw. Qed.

Lemma fail_fast_log env l : fail_fast env (log l).
Proof. by intros w Hw. Qed.

Lemma fail_fast_get_graph env : fail_fast env get_graph.
Proof. by intros w Hw. Qed.

Lemma fail_fast_attribute {A} env (v : option A) : fail_fast env (of_res (attribute v)).
Proof.
  intros w Hw. destruct v; simpl; [done|]. split; [|done].
  intros j Hj. apply Hw. lia.
Qed.

Lemma fail_fast_raise {A} env e :
  exit_code (Raise e) = 1 → fail_fast env (raise e : M A).
Proof.
  intros He w Hw. simpl. split; [|done]. intros j Hj. apply Hw. lia.
Qed.

Lemma fail_fast_bind {A B} env (m : M A) (k : A → M B) :
  fail_fast env m → (∀ a, fail_fast env (k a)) → fail_fast env (m ≫= k).
Proof.
  intros Hm Hk w Hw. rewrite M_bind_app. specialize (Hm w Hw).
  destruct (m w) as [[a|e] w1]; simpl in *; [by apply Hk|done].
Qed.

Lemma fail_fast_session_run env q : fail_fast env (session_run env q).
Proof.
  intros w Hw. unfold session_run.
  destruct (neo4j_up env (length (sent w))) eqn:Hup; simpl.
  - intros j Hj. rewrite length_app in Hj. simpl in Hj.
    destruct (decide (j = length (sent w))) as [->|Hne]; [done|].
    apply Hw. lia.
  - split; [|done]. intros j Hj. rewrite length_app in Hj. simpl in Hj.
    apply Hw. lia.
Qed.

Lemma fail_fast_startup env :
  fail_fast env (try_except (session_run env QPing ;; log LogVerified)
                            (log LogCannotConnect ;; raise (SystemExit 1))).
Proof.
  intros w Hw. destruct (neo4j_up env (length (sent w))) eqn:Hup.
  - rewrite startup_ok by done. simpl.
    intros j Hj. rewrite length_app in Hj. simpl in Hj.
    destruct (decide (j = length (sent w))) as [->|Hne]; [done|].
    apply Hw. lia.
  - rewrite startup_down by done. simpl. split; [|done].
    intros j Hj. rewrite length_app in Hj. simpl in Hj. apply Hw. lia.
Qed.

Lemma fail_fast_extract env session : fail_fast env (extract_intelligence env session).
Proof.
  intros w Hw.
  destruct (extract_trace env session w)
    as (r & w' & ? & ? & Hr & _ & Hs & _ & _ & _ & _ & _ & Hraise & _).
  rewrite Hr. simpl. rewrite Hs. destruct r as [res|e]; [done|].
  split; [intros j Hj; apply Hw; lia|].
  by destruct (Hraise e eq_refl) as [[-> _]|[-> _]].
Qed.

Lemma fail_fast_for_each {A} env (xs : list A) (body : A → M unit) :
  (∀ x, fail_fast env (body x)) → fail_fast env (for_each xs body).
Proof.
  intros Hb. induction xs as [|x xs IH]; simpl.
  - apply fail_fast_ret.
  - apply fail_fast_bind; [apply Hb|by intros _].
Qed.

Lemma fail_fast_sync env e : fail_fast env (sync_extraction_to_graph env e).
Proof.
  unfold sync_extraction_to_graph.
  repeat (apply fail_fast_bind; [|intros _]);
    try (apply fail_fast_for_each; intros x); try apply fail_fast_log;
    try apply fail_fast_session_run.
  apply fail_fast_bind; [apply fail_fast_session_run|intros _].
  apply fail_fast_for_each. intros d. apply fail_fast_session_run.
Qed.

Lemma fail_fast_process env sessions i n c :
  fail_fast env (process_sessions env i n sessions c).
Proof.
  revert i c. induction sessions as [|row rest IH]; intros i c.
  - apply fail_fast_ret.
  - cbn [process_sessions].
    apply fail_fast_bind; [apply fail_fast_attribute|intros p].
    apply fail_fast_bind; [apply fail_fast_log|intros _].
    apply fail_fast_bind; [apply fail_fast_extract|intros r].
    apply fail_fast_bind; [|intros c'; apply IH].
    destruct r as [e|].
    + apply fail_fast_bind; [apply fail_fast_sync|intros _; apply fail_fast_ret].
    + apply fail_fast_bind; [apply fail_fast_log|intros _; apply fail_fast_ret].
Qed.

Lemma fail_fast_fetch env session : fail_fast env (fetch_analyzed_sessions env session).
Proof.
  unfold fetch_analyzed_sessions.
  destruct (supabase_up env); [|by apply fail_fast_raise].
  apply fail_fast_bind; [apply fail_fast_log|intros _; apply fail_fast_ret].
Qed.

Lemma fail_fast_main env reprocess session : fail_fast env (main env reprocess session).
Proof.
  unfold main.
  apply fail_fast_bind; [apply fail_fast_log|intros _].
  apply fail_fast_bind; [apply fail_fast_startup|intros _].
  apply fail_fast_bind; [apply fail_fast_fetch|intros sessions].
  destruct sessions as [|row rest]; [apply fail_fast_log|].
  apply fail_fast_bind.
  { destruct (negb reprocess && negb (from_option truthy false session));
      [|apply fail_fast_ret].
    apply fail_fast_bind.
    - unfold get_processed_session_ids.
      apply fail_fast_bind; [apply fail_fast_session_run|intros _].
      apply fail_fast_bind; [apply fail_fast_get_graph|intros g; apply fail_fast_ret].
    - intros ids. apply fail_fast_bind; [apply fail_fast_log|intros _; apply fail_fast_ret]. }
  intros sessions. destruct sessions as [|row' rest']; [apply fail_fast_log|].
  apply fail_fast_bind; [apply fail_fast_process|intros c].
  apply fail_fast_bind; [apply fail_fast_log|intros _].
  apply fail_fast_bind; [apply fail_fast_session_run|intros _].
  apply fail_fast_bind; [apply fail_fast_get_graph|intros g].
  destruct (totals_query g); [apply fail_fast_log|apply fail_fast_ret].
Qed.

(** X18: main sends no statement after one the store refused.  In every
    run, whatever the services answer, each statement sent except possibly
    the last one was answered by the store; when the store refused a
    statement the process exits with status 1; and a run that does not
    return exits with status 1. *)
Theorem main_stops_at_refusal (env : Env) (reprocess : bool) (session : option pystr)
    (g : Graph) :
  (∀ j, S j < length (sent (main env reprocess session (start g)).2) →
        neo4j_up env j = true)
  ∧ (∀ j, j < length (sent (main env reprocess session (start g)).2) →
          neo4j_up env j = false →
          exit_code (main env reprocess session (start g)).1 = 1)
  ∧ ((main env reprocess session (start g)).1 = Ok tt
     ∨ exit_code (main env reprocess session (start g)).1 = 1).
Proof.
  assert (answered env (sent (start g))) as H0 by (intros j Hj; simpl in Hj; lia).
  pose proof (fail_fast_main env reprocess session (start g) H0) as H.
  destruct (main env reprocess session (start g)) as [[[]|e] w']; simpl in *.
  - split; [intros j Hj; apply H; lia|].
    split; [|by left]. intros j Hj Hdown. rewrite H in Hdown by done. done.
  - destruct H as [H1 H2]. split; [done|]. split; [done|by right].
Qed.

(** ** The trace of a batch *)




















(** ** The driver and its flags *)








(** ** The exit status *)




